(** * scippr inference notebook: a shallow embedding and its properties

    The notebook computes with numpy arrays of IEEE doubles.  The embedding
    idealises finite doubles as real numbers ([R]): rounding, overflow and
    underflow are not modelled.  What numpy and Python do at a division by
    zero is modelled: a numpy division yields a non-finite value ([xreal]),
    a Python float division raises [ZeroDivisionError].

    numpy arrays are mutable objects.  The ones the program writes through
    ([reg_vals], the in-place [/=]) and its module-level arrays live in an
    explicit [store]; array expressions that are only read are computed as
    values. *)

From Stdlib Require Import Reals Lra Lia List Arith ZArith Bool Eqdep_dec.
From Equations Require Import Equations.
Import ListNotations.
Local Open Scope R_scope.

(** ** Python results and exceptions *)

Module Py.

Inductive exn : Type :=
| IndexError
| ValueError
| AssertionError
| ZeroDivisionError
| NameError.

Inductive result (A : Type) : Type :=
| Return (a : A)
| Raise (e : exn).
Arguments Return {A} a.
Arguments Raise {A} e.

Definition bind {A B} (m : result A) (k : A -> result B) : result B :=
  match m with
  | Return a => k a
  | Raise e => Raise e
  end.

Definition fmap {A B} (f : A -> B) (m : result A) : result B :=
  bind m (fun a => Return (f a)).

(** The builtin [max(a, b)] of two numbers: [b] when [b > a], else [a]. *)
Definition max (a b : R) : R := if Rlt_dec a b then b else a.

(** [seq[i]] for a sequence of length [n]: a negative index counts from the
    end, an index outside [-n, n) raises [IndexError]. *)
Definition index (n : nat) (i : Z) : result nat :=
  if (0 <=? i)%Z then
    if (i <? Z.of_nat n)%Z then Return (Z.to_nat i) else Raise IndexError
  else
    if (0 <=? i + Z.of_nat n)%Z then Return (Z.to_nat (i + Z.of_nat n))
    else Raise IndexError.

(** [sys.float_info.min], the smallest positive normal double, 2^-1022. *)
Definition epsilon : R := / 2 ^ 1022.

(** [sys.float_info.min_exp], the integer -1021. *)
Definition log_epsilon : R := - 1021.

End Py.

Import Py.

(** ** numpy arrays *)

Module Np.

(** A [d]-dimensional array as nested lists, outermost axis first. *)
Fixpoint tensor (d : nat) : Type :=
  match d with
  | O => R
  | S d' => list (tensor d')
  end.

(** An array of any dimension. *)
Definition ndarray : Type := { d : nat & tensor d }.

Definition nd {d : nat} (t : tensor d) : ndarray := existT tensor d t.

(** Element-wise application of a scalar function. *)
Fixpoint tmap (f : R -> R) (d : nat) : tensor d -> tensor d :=
  match d with
  | O => f
  | S d' => map (tmap f d')
  end.

Definition nd_map (f : R -> R) (a : ndarray) : ndarray :=
  nd (tmap f (projT1 a) (projT2 a)).

(** [arr.flatten()]: the elements in row-major order. *)
Fixpoint flatten (d : nat) : tensor d -> list R :=
  match d with
  | O => fun x => [x]
  | S d' => fun t => flat_map (flatten d') t
  end.

(** [flat.reshape(shape)]: the shape is carried by an array [like] of that
    shape; the elements of [flat] are consumed in row-major order.  Returns
    the reshaped array and the elements left over. *)
Fixpoint reshape_rows {A : Type} (row : A -> list R -> option (A * list R))
    (like : list A) (flat : list R) : option (list A * list R) :=
  match like with
  | [] => Some ([], flat)
  | t :: ts =>
      match row t flat with
      | Some (t', rest) =>
          match reshape_rows row ts rest with
          | Some (ts', rest') => Some (t' :: ts', rest')
          | None => None
          end
      | None => None
      end
  end.

Fixpoint reshape_like (d : nat) : tensor d -> list R -> option (tensor d * list R) :=
  match d with
  | O => fun _ flat =>
      match flat with
      | x :: rest => Some (x, rest)
      | [] => None
      end
  | S d' => fun like flat => reshape_rows (reshape_like d') like flat
  end.

(** [np.log(np.array([max(a, threshold) for a in flat]))] on the flat list. *)
Definition log_floor (threshold : R) (flat : list R) : list R :=
  map ln (map (fun a => Py.max a threshold) flat).

(** The value computed by [safe_log]: flatten, floor and log, reshape.  A
    reshape to the shape the elements came from cannot fail; the [None] branch
    keeps the definition total. *)
Definition safe_log_val (threshold : R) (d : nat) (arr : tensor d) : tensor d :=
  match reshape_like d arr (log_floor threshold (flatten d arr)) with
  | Some (logged, _) => logged
  | None => arr
  end.

(** One element under [arr[arr < threshold] = threshold]. *)
Definition floor_at (threshold x : R) : R :=
  if Rlt_dec x threshold then threshold else x.

(** The contents of an array after [arr[arr < threshold] = threshold]. *)
Definition reg_vals_val (threshold : R) (d : nat) (arr : tensor d) : tensor d :=
  tmap (floor_at threshold) d arr.

End Np.

Import Np.

(** ** The store of array objects *)

Module Store.

Definition ref : Type := nat.
Bind Scope nat_scope with ref.
Definition store : Type := list ndarray.

(** Computations that read and write array objects and may raise.  A
    Python name always refers to a live object of the expected kind; the
    checks in [read] and [read_as] only make the operations total. *)
Definition M (A : Type) : Type := store -> result (A * store).

Definition ret {A} (a : A) : M A := fun s => Return (a, s).

Definition bind {A B} (m : M A) (k : A -> M B) : M B :=
  fun s =>
    match m s with
    | Return (a, s') => k a s'
    | Raise e => Raise e
    end.

Definition raise {A} (e : exn) : M A := fun _ => Raise e.

Definition lift {A} (r : result A) : M A :=
  fun s => Py.fmap (fun a => (a, s)) r.

(** A new array object; its reference is the next free address. *)
Definition alloc (a : ndarray) : M ref :=
  fun s => Return (length s, s ++ [a]).

Fixpoint update (s : store) (r : ref) (a : ndarray) : store :=
  match s, r with
  | [], _ => []
  | _ :: s', O => a :: s'
  | b :: s', S r' => b :: update s' r' a
  end.

Definition read (r : ref) : M ndarray :=
  fun s =>
    match nth_error s r with
    | Some a => Return (a, s)
    | None => Raise NameError
    end.

Definition write (r : ref) (a : ndarray) : M unit :=
  fun s =>
    match nth_error s r with
    | Some _ => Return (tt, update s r a)
    | None => Raise NameError
    end.

(** An array seen at dimension [d]. *)
Definition cast (d : nat) (a : ndarray) : option (tensor d) :=
  match Nat.eq_dec (projT1 a) d with
  | left e => Some (eq_rect (projT1 a) tensor (projT2 a) d e)
  | right _ => None
  end.

Definition read_as (d : nat) (r : ref) : M (tensor d) :=
  bind (read r) (fun a =>
    match cast d a with
    | Some t => ret t
    | None => raise ValueError
    end).

End Store.

Import Store.

Declare Scope store_scope.
Delimit Scope store_scope with store.
Notation "x <- m ;; k" := (Store.bind m (fun x => k))
  (at level 61, m at next level, right associativity) : store_scope.
Notation "m ;;; k" := (Store.bind m (fun _ => k))
  (at level 61, right associativity) : store_scope.
Local Open Scope store_scope.

(** ** SafeLog utilities (notebook cell 5) *)

(** [safe_log(arr, threshold)]: reads [arr], returns a new array. *)
Definition safe_log (arr : ref) (threshold : R) : M ref :=
  a <- read arr ;;
  alloc (nd (safe_log_val threshold (projT1 a) (projT2 a))).

(** [reg_vals(arr, threshold)]: overwrites [arr] in place and returns it. *)
Definition reg_vals (arr : ref) (threshold : R) : M ref :=
  a <- read arr ;;
  write arr (nd (reg_vals_val threshold (projT1 a) (projT2 a))) ;;;
  ret arr.

(** ** numpy floats that may be non-finite *)

Module XReal.

(** The value of a numpy float: a real, an infinity, or NaN.  Only divisions
    by zero produce the non-finite values here (no overflow); the sign of a
    zero is not tracked. *)
Inductive xreal : Type :=
| Fin (r : R)
| PInf
| NInf
| NaN.

Definition xadd (a b : xreal) : xreal :=
  match a, b with
  | Fin x, Fin y => Fin (x + y)
  | NaN, _ | _, NaN => NaN
  | PInf, NInf | NInf, PInf => NaN
  | PInf, _ | _, PInf => PInf
  | NInf, _ | _, NInf => NInf
  end.

Definition xopp (a : xreal) : xreal :=
  match a with
  | Fin x => Fin (- x)
  | PInf => NInf
  | NInf => PInf
  | NaN => NaN
  end.

Definition xsub (a b : xreal) : xreal := xadd a (xopp b).

(** An infinity of the sign of [pos] scaled by the real [x]. *)
Definition scale_inf (pos : bool) (x : R) : xreal :=
  if Rlt_dec 0 x then (if pos then PInf else NInf)
  else if Rlt_dec x 0 then (if pos then NInf else PInf)
  else NaN.

Definition xmul (a b : xreal) : xreal :=
  match a, b with
  | Fin x, Fin y => Fin (x * y)
  | NaN, _ | _, NaN => NaN
  | PInf, Fin y | Fin y, PInf => scale_inf true y
  | NInf, Fin y | Fin y, NInf => scale_inf false y
  | PInf, PInf | NInf, NInf => PInf
  | PInf, NInf | NInf, PInf => NaN
  end.

(** numpy's [a / b]: a zero divisor gives an infinity or NaN (and a
    warning), never an exception. *)
Definition xdiv (a b : xreal) : xreal :=
  match a, b with
  | Fin x, Fin y =>
      if Req_dec_T y 0 then scale_inf true x else Fin (x / y)
  | NaN, _ | _, NaN => NaN
  | Fin _, PInf | Fin _, NInf => Fin 0
  | PInf, Fin y => if Rlt_dec y 0 then NInf else PInf
  | NInf, Fin y => if Rlt_dec y 0 then PInf else NInf
  | PInf, PInf | PInf, NInf | NInf, PInf | NInf, NInf => NaN
  end.

(** [np.sqrt]. *)
Definition xsqrt (a : xreal) : xreal :=
  match a with
  | Fin x => if Rlt_dec x 0 then NaN else Fin (sqrt x)
  | PInf => PInf
  | NInf => NaN
  | NaN => NaN
  end.

(** [a > b]; every comparison with NaN is false. *)
Definition xgt (a b : xreal) : bool :=
  match a, b with
  | Fin x, Fin y => if Rlt_dec y x then true else false
  | NaN, _ | _, NaN => false
  | PInf, PInf => false
  | PInf, _ => true
  | NInf, _ => false
  | Fin _, NInf => true
  | Fin _, PInf => false
  end.

(** [a <= b]; every comparison with NaN is false. *)
Definition xle (a b : xreal) : bool :=
  match a, b with
  | Fin x, Fin y => if Rle_dec x y then true else false
  | NaN, _ | _, NaN => false
  | NInf, _ => true
  | _, PInf => true
  | PInf, _ => false
  | Fin _, NInf => false
  end.

(** [np.maximum] on two values: NaN propagates. *)
Definition xmax (a b : xreal) : xreal :=
  match a, b with
  | NaN, _ | _, NaN => NaN
  | _, _ => if xgt b a then b else a
  end.

Definition xsum (l : list xreal) : xreal := fold_right xadd (Fin 0) l.

(** [np.mean] of a one-dimensional array: the sum over the count; the mean
    of an empty array is NaN. *)
Definition xmean (l : list xreal) : xreal :=
  xdiv (xsum l) (Fin (INR (length l))).

End XReal.

Import XReal.

(** ** List helpers for array arithmetic *)

(** [np.sum] of a one-dimensional array. *)
Definition np_sum (l : list R) : R := fold_right Rplus 0 l.

(** Element-wise operation on two arrays of one shape. *)
Fixpoint zip_with {A B C : Type} (f : A -> B -> C) (l : list A) (l' : list B) : list C :=
  match l, l' with
  | x :: xs, y :: ys => f x y :: zip_with f xs ys
  | _, _ => []
  end.

(** [bins[1:] - bins[:-1]]. *)
Definition difs (bins : list R) : list R :=
  zip_with Rminus (tl bins) (removelast bins).

(** [(bins[1:] + bins[:-1]) / 2.]. *)
Definition mids (bins : list R) : list R :=
  map (fun s => s / 2) (zip_with Rplus (tl bins) (removelast bins)).

(** [vector[i] += x]. *)
Fixpoint add_at (vector : list R) (i : nat) (x : R) : list R :=
  match vector, i with
  | [], _ => []
  | v :: vs, O => (v + x) :: vs
  | v :: vs, S i' => v :: add_at vs i' x
  end.

(** Sequencing of a fallible function over a list (a [for] loop that
    appends). *)
Fixpoint for_each {A B : Type} (f : A -> result B) (l : list A) : result (list B) :=
  match l with
  | [] => Return []
  | x :: xs =>
      Py.bind (f x) (fun y =>
      Py.bind (for_each f xs) (fun ys => Return (y :: ys)))
  end.

(** ** bisect (Python standard library) *)

(** The loop of [bisect.bisect_right(a, x, lo, hi)]:
    [while lo < hi: mid = (lo+hi)//2; if x < a[mid]: hi = mid else: lo = mid+1]. *)
Equations? bisect_loop (a : list R) (x : R) (lo hi : nat) : nat by wf (hi - lo)%nat lt :=
  bisect_loop a x lo hi with lt_dec lo hi => {
    | left _ with Rlt_dec x (nth ((lo + hi) / 2) a 0) => {
        | left _ => bisect_loop a x lo ((lo + hi) / 2);
        | right _ => bisect_loop a x (S ((lo + hi) / 2)) hi };
    | right _ => lo }.
Proof.
  all: change (fst (Nat.divmod (lo + hi) 1 0 1)) with ((lo + hi) / 2)%nat.
  all: pose proof (Nat.div_mod_eq (lo + hi) 2).
  all: pose proof (Nat.mod_upper_bound (lo + hi) 2).
  all: lia.
Qed.

(** [bisect.bisect(a, x)]. *)
Definition bisect (a : list R) (x : R) : nat := bisect_loop a x 0 (length a).

(** numpy's rule for one axis of an element-wise operation: equal lengths
    pair up, an operand of length 1 is repeated, anything else raises
    [ValueError] (operands could not be broadcast together). *)
Definition broadcast {A B C : Type} (f : A -> B -> C) (l : list A) (w : list B)
  : result (list C) :=
  if (length l =? length w)%nat then Return (zip_with f l w)
  else
    match l, w with
    | _, [y] => Return (map (fun x => f x y) l)
    | [x], _ => Return (map (fun y => f x y) w)
    | _, _ => Raise ValueError
    end.

(** [np.sum] of a three-dimensional array over all its axes. *)
Definition np_sum3 (t : tensor 3) : R :=
  np_sum (map (fun plane => np_sum (map np_sum plane)) t).

(** [np.isclose(a, b)] with the default tolerances:
    [|a - b| <= atol + rtol * |b|], [rtol = 1e-5], [atol = 1e-8]. *)
Definition isclose (a b : R) : bool :=
  if Rle_dec (Rabs (a - b)) (1 / 10 ^ 8 + 1 / 10 ^ 5 * Rabs b) then true else false.

(** Python's float division [a / b]. *)
Definition py_div (a b : R) : result R :=
  if Req_dec_T b 0 then Raise ZeroDivisionError else Return (a / b).

(** [np.max] of a one-dimensional array: NaN propagates; an empty array
    raises [ValueError]. *)
Definition np_max (l : list xreal) : result xreal :=
  match l with
  | [] => Raise ValueError
  | x :: xs => Return (fold_left xmax xs x)
  end.

(** ** Convergence diagnostic (notebook cell 15) *)

Module GelmanRubin.

(** [np.mean(row)] of a row of reals. *)
Definition row_mean (row : list R) : xreal := xmean (map Fin row).

(** [np.var(row, ddof=1)]: the squared deviations from the mean, summed and
    divided by [max(n - 1, 0)]. *)
Definition row_var (row : list R) : xreal :=
  let arrmean := row_mean row in
  let x := map (fun a => xsub (Fin a) arrmean) row in
  xdiv (xsum (map (fun d => xmul d d) x)) (Fin (INR (length row - 1))).

(** [chain.shape[1]] of a two-dimensional array given by its rows (an array
    without rows is taken to have no columns). *)
Definition n_columns {A : Type} (chain : list (list A)) : nat :=
  match chain with
  | [] => 0
  | row :: _ => length row
  end.

Definition single_parameter_gr_stat (chain : list (list R)) : result xreal :=
  let ssq := map row_var chain in
  let W := xmean ssq in
  let xb := map row_mean chain in
  let xbb := xmean xb in
  let m := INR (length chain) in
  let n := INR (n_columns chain) in
  Py.bind (py_div n (m - 1)) (fun c =>
  let B := xmul (Fin c) (xsum (map (fun x => xmul (xsub xbb x) (xsub xbb x)) xb)) in
  Py.bind (py_div (n - 1) n) (fun c1 =>
  Py.bind (py_div 1 n) (fun c2 =>
  let var_x := xadd (xmul (Fin c1) W) (xmul (Fin c2) B) in
  let R_hat := xsqrt (xdiv var_x W) in
  Return R_hat))).

(** [np.swapaxes(sample, 0, 1)[n_burn_ins:, :][:, :, i].T]: for every walker
    the values of parameter [i] at the iterations from [n_burn_ins] on. *)
Definition kept_chains (sample : tensor 3) (n_burn_ins i : nat) : list (list R) :=
  map (fun walker => map (fun it => nth i it 0) (skipn n_burn_ins walker)) sample.

Definition multi_parameter_gr_stat (sample : tensor 3) : result (list xreal) :=
  let n_iterations := n_columns sample in
  let n_params := n_columns (hd [] sample) in
  let n_burn_ins := (n_iterations / 2)%nat in
  for_each (fun i => single_parameter_gr_stat (kept_chains sample n_burn_ins i))
           (seq 0 n_params).

Definition gr_test (sample : tensor 3) (threshold : R) : result bool :=
  Py.bind (multi_parameter_gr_stat sample) (fun gr =>
  Py.bind (np_max gr) (fun top =>
  Return (xgt top (Fin threshold)))).

End GelmanRubin.

Import GelmanRubin.

(** ** The catalog and the grids (notebook cells 4 to 7) *)

(** The contents of [data/data.hkl], with the shape of the interim
    log-posteriors as numpy reports it: line 193 rebinds [n_types], [n_zs]
    and [n_mus] to that shape, so these are the values every function below
    sees.  A field has a trailing underscore where the notebook gives the
    same name to the module-level array. *)
Record SimInfo : Type := {
  z_bins : list R;
  mu_bins : list R;
  interim_ln_posteriors : tensor 4;
  interim_ln_prior_ : tensor 3;
  ln_selection_function_ : tensor 3;
  n_SNe : nat;
  n_types : nat;
  n_zs : nat;
  n_mus : nat
}.

(** A three-dimensional array of shape [(T, Z, M)]. *)
Definition has_shape3 (T Z M : nat) (a : tensor 3) : Prop :=
  length a = T /\
  Forall (fun plane => length plane = Z /\
                       Forall (fun row : list R => length row = M) plane) a.

(** A catalog whose arrays agree with the grids. *)
Record well_shaped (sim : SimInfo) : Prop := {
  ws_z_bins : length (z_bins sim) = S (n_zs sim);
  ws_mu_bins : length (mu_bins sim) = S (n_mus sim);
  ws_posteriors :
    length (interim_ln_posteriors sim) = n_SNe sim /\
    Forall (has_shape3 (n_types sim) (n_zs sim) (n_mus sim))
           (interim_ln_posteriors sim);
  ws_prior : has_shape3 (n_types sim) (n_zs sim) (n_mus sim) (interim_ln_prior_ sim);
  ws_selection :
    has_shape3 (n_types sim) (n_zs sim) (n_mus sim) (ln_selection_function_ sim)
}.
Arguments ws_z_bins {sim} _.
Arguments ws_mu_bins {sim} _.
Arguments ws_posteriors {sim} _.
Arguments ws_prior {sim} _.
Arguments ws_selection {sim} _.

(** The hyperparameter vector [(H0, Om0)] that the sampler proposes. *)
Record Hyper : Type := { H0 : R; Om0 : R }.

(** Configuration (notebook cells 9 and 14). *)
Definition n_sigmas : R := 2.
Definition H0_mean : R := 70.
Definition H0_std : R := 22 / 10 * n_sigmas.
Definition min_H0 : R := 50.
Definition max_H0 : R := 90.
Definition Om0_mean : R := 1 - 721 / 1000.
Definition Om0_std : R := 25 / 1000 * n_sigmas.
Definition min_Om0 : R := 0.
Definition max_Om0 : R := 1.
Definition gr_limit : R := 12 / 10.

Definition Rgtb (a b : R) : bool := if Rlt_dec b a then true else false.
Definition Rltb (a b : R) : bool := if Rlt_dec a b then true else false.

Definition param_check (params : Hyper) : bool :=
  if Rgtb (H0 params) min_H0 && Rltb (H0 params) max_H0
     && Rgtb (Om0 params) min_Om0 && Rltb (Om0 params) max_Om0
  then true else false.

(** The loop of [indie_dist.logpdf]:
    [for d in range(n_dists): lnprob += dists[d].logpdf(locs[d])]. *)
Fixpoint logpdf_loop (dists : list (R -> R)) (locs : list R) (d : nat) (lnprob : R)
  : result R :=
  match dists with
  | [] => Return lnprob
  | dist :: rest =>
      match nth_error locs d with
      | Some x => logpdf_loop rest locs (S d) (lnprob + dist x)
      | None => Raise IndexError
      end
  end.

Definition indie_dist_logpdf (dists : list (R -> R)) (locs : list R) : result R :=
  logpdf_loop dists locs 0 0.

(** The module-level arrays, by reference. *)
Record Globals : Type := {
  lninterimposteriors : ref;
  interim_ln_prior : ref;
  ln_selection_function : ref;
  flat_hyperlikelihood : ref;
  flat_lnhyperlikelihood : ref;
  const_term : ref
}.

(** [a - b[np.newaxis, :]] and [a + b[np.newaxis, :]]: [b] is paired with
    every object of [a] (shapes agree in a well-shaped catalog). *)
Definition zip3 (f : R -> R -> R) (a b : tensor 3) : tensor 3 :=
  zip_with (zip_with (zip_with f)) a b.

Definition per_object (f : R -> R -> R) (a : tensor 4) (b : tensor 3) : tensor 4 :=
  map (fun obj => zip3 f obj b) a.

(** Checkpoints written by [hickle.dump]. *)
Record mcmc_outputs : Type := {
  chain : tensor 3;
  lnprobability : tensor 2;
  acceptance_fraction : tensor 1
}.

Inductive checkpoint : Type :=
| EpochFile (burn_ins : nat) (outputs : mcmc_outputs)
| FullChainFile (full_chain : tensor 3).

Section Notebook.

(** The catalog read at start-up. *)
Variable sim : SimInfo.

(** astropy, [cosmology.FlatLambdaCDM(H0, Om0).distmod(z).value]. *)
Variable distmod : R -> R -> R -> R.

(** scipy, [sps.norm(loc, scale).logpdf(x)]. *)
Variable norm_logpdf : R -> R -> R -> R.

(** Where the module-level arrays live. *)
Variable g : Globals.

Definition z_difs : list R := difs (z_bins sim).
Definition z_mids : list R := mids (z_bins sim).
Definition mu_difs : list R := difs (mu_bins sim).
Definition mu_mids : list R := mids (mu_bins sim).

(** *** Hyperprior (cells 8 to 9) *)

Definition prior_cosmo_dist : list (R -> R) :=
  [norm_logpdf H0_mean H0_std; norm_logpdf Om0_mean Om0_std].

Definition lnprior (hyperparameters : Hyper) : result R :=
  indie_dist_logpdf prior_cosmo_dist [H0 hyperparameters; Om0 hyperparameters].

(** *** Hyperlikelihood (cell 11) *)

(** One pass of the loop of [mu_binner]. *)
Definition mu_row (mu : R) : result (list R) :=
  let vector := repeat 0 (n_mus sim) in
  let ind := (Z.of_nat (bisect (removelast (mu_bins sim)) mu) - 1)%Z in
  Py.bind (Py.index (n_mus sim) ind) (fun i =>
  Return (add_at vector i 1)).

Definition mu_binner (mus : list R) : result (tensor 3) :=
  Py.bind (for_each mu_row mus) (fun matrix =>
  Return (repeat matrix (n_types sim))).

(** [d * w[:, np.newaxis, np.newaxis]]. *)
Definition times_axis0 (w : list R) (d : tensor 3) : result (tensor 3) :=
  broadcast (fun plane c => map (map (fun x => x * c)) plane) d w.

(** [d * w[np.newaxis, :, np.newaxis]]. *)
Definition times_axis1 (w : list R) (d : tensor 3) : result (tensor 3) :=
  for_each (fun plane => broadcast (fun row c => map (fun x => x * c) row) plane w) d.

(** [d * w[np.newaxis, np.newaxis, :]]. *)
Definition times_axis2 (w : list R) (d : tensor 3) : result (tensor 3) :=
  for_each (for_each (fun row => broadcast Rmult row w)) d.

Definition over_n_types (d : tensor 3) : tensor 3 :=
  tmap (fun x => x / INR (n_types sim)) 3 d.

(** Line 438, the normaliser:
    [np.sum(delta * z_difs[np.newaxis, :, np.newaxis]
            * mu_difs[np.newaxis, np.newaxis, :]
            * np.ones((n_types))[:, np.newaxis, np.newaxis] / n_types)]. *)
Definition normaliser (delta : tensor 3) : result R :=
  Py.bind (times_axis1 z_difs delta) (fun a =>
  Py.bind (times_axis2 mu_difs a) (fun b =>
  Py.bind (times_axis0 (repeat 1 (n_types sim)) b) (fun c =>
  Return (np_sum3 (over_n_types c))))).

(** Line 439, the sum inside the assertion: as line 438, except that
    [mu_difs] is indexed [[np.newaxis, :, np.newaxis]]. *)
Definition asserted_sum (delta : tensor 3) : result R :=
  Py.bind (times_axis1 z_difs delta) (fun a =>
  Py.bind (times_axis1 mu_difs a) (fun b =>
  Py.bind (times_axis0 (repeat 1 (n_types sim)) b) (fun c =>
  Return (np_sum3 (over_n_types c))))).

(** [arr /= c] for a nonzero [c]. *)
Definition idiv (arr : ref) (c : R) : M unit :=
  a <- read arr ;;
  write arr (nd_map (fun x => x / c) a).

(** The in-bounds branch of [lnhyperlikelihood] from line 438 on, for the
    array [delta] that [mu_binner] returned.  When the normaliser is 0, numpy
    fills [delta] with infinities and NaN; the sum inside the assertion is
    then not finite and the assertion fails (unless the broadcast in it has
    raised before).  The model goes to that outcome directly. *)
Definition normalised_log (matrix : tensor 3) : M ref :=
  delta <- alloc (nd (d:=3) matrix) ;;
  d <- read_as 3 delta ;;
  norm <- lift (normaliser d) ;;
  idiv delta norm ;;;
  d' <- read_as 3 delta ;;
  total <- lift (asserted_sum d') ;;
  (if Req_dec_T norm 0 then raise AssertionError
   else if isclose total 1 then ret tt
   else raise AssertionError) ;;;
  safe_log delta epsilon.

Definition lnhyperlikelihood (hyperparameters : Hyper) : M ref :=
  if param_check hyperparameters then
    matrix <- lift (mu_binner
                (map (distmod (H0 hyperparameters) (Om0 hyperparameters)) z_mids)) ;;
    normalised_log matrix
  else
    ret (flat_lnhyperlikelihood g).

(** *** Module-level arrays (cells 6, 7, 11 and 13) *)

(** The statements that create the module-level arrays, in order.  The
    assertion of line 485 compares the boolean [np.all(...)] with [0.] and
    always holds. *)
Definition notebook_setup : M Globals :=
  posts <- alloc (nd (d:=4) (interim_ln_posteriors sim)) ;;
  prior <- alloc (nd (d:=3) (interim_ln_prior_ sim)) ;;
  sel <- alloc (nd (d:=3) (ln_selection_function_ sim)) ;;
  shape <- read_as 3 prior ;;
  flat <- alloc (nd (d:=3) (tmap (fun _ => 1 * epsilon) 3 shape)) ;;
  flat_ln <- safe_log flat epsilon ;;
  p <- read_as 4 posts ;;
  h <- read_as 3 prior ;;
  f <- read_as 3 sel ;;
  tmp <- alloc (nd (d:=4) (per_object Rminus (per_object Rminus p h) f)) ;;
  ct <- reg_vals tmp log_epsilon ;;
  ret {| lninterimposteriors := posts;
         interim_ln_prior := prior;
         ln_selection_function := sel;
         flat_hyperlikelihood := flat;
         flat_lnhyperlikelihood := flat_ln;
         const_term := ct |}.

(** *** Posterior (cell 13) *)

(** For one object,
    [np.sum(np.sum(np.sum(np.exp(in_exp) * mu_difs, axis=3) * z_difs, axis=2)
            / n_types, axis=1)]; the widths are paired with the cells along
    their axis (shapes agree in a well-shaped catalog). *)
Definition in_log_object (obj : tensor 3) : R :=
  np_sum (map (fun plane =>
    np_sum (zip_with (fun row dz =>
      np_sum (zip_with (fun x dmu => exp x * dmu) row mu_difs) * dz)
      plane z_difs) / INR (n_types sim)) obj).

Definition lnposterior (hyperparameters : Hyper) : M R :=
  new_term <- lnhyperlikelihood hyperparameters ;;
  nt <- read_as 3 new_term ;;
  ct <- read_as 4 (const_term g) ;;
  tmp <- alloc (nd (d:=4) (per_object Rplus ct nt)) ;;
  in_exp <- reg_vals tmp log_epsilon ;;
  e <- read_as 4 in_exp ;;
  in_log <- alloc (nd (d:=1) (map in_log_object e)) ;;
  in_sum <- safe_log in_log epsilon ;;
  v <- read_as 1 in_sum ;;
  ret (np_sum v).

Definition lnhyperposterior (hyperparameters : Hyper) : M R :=
  p <- lift (lnprior hyperparameters) ;;
  l <- lnposterior hyperparameters ;;
  ret (Py.max (p + l) log_epsilon).

(** *** MCMC driver (cells 14 to 16) *)

(** emcee's ensemble sampler, an opaque object with the methods the driver
    calls. *)
Variable sampler : Type.
Variable EnsembleSampler : nat -> nat -> (Hyper -> M R) -> nat -> sampler.
Variable sampler_reset : sampler -> sampler.
Variable sampler_run_mcmc : sampler -> tensor 2 -> nat -> sampler.
Variable sampler_chain : sampler -> tensor 3.
Variable sampler_lnprobability : sampler -> tensor 2.
Variable sampler_acceptance_fraction : sampler -> tensor 1.

(** Configuration values of cell 14. *)
Variables nthreads nwalkers nsteps ninit : nat.

Definition n_cosmo_hyperparams : nat := 2.

Definition sample (smp : sampler) (ivals : tensor 2) (n_samps : nat)
  : sampler * mcmc_outputs :=
  let smp := sampler_reset smp in
  let smp := sampler_run_mcmc smp ivals n_samps in
  (smp, {| chain := sampler_chain smp;
           lnprobability := sampler_lnprobability smp;
           acceptance_fraction := sampler_acceptance_fraction smp |}).

(** The variables of [run_MCMC] and the files written so far. *)
Record driver : Type := {
  the_sampler : sampler;
  burn_ins : nat;
  burning_in : bool;
  vals : tensor 2;
  full_chain : tensor 3;
  files : list checkpoint
}.

(** [a.shape[2]] of a three-dimensional array, read off its first sample;
    the lists of an array without samples do not show it. *)
Definition last_axis (a : tensor 3) : option nat :=
  match a with
  | (params :: _) :: _ => Some (length params)
  | _ => None
  end.

(** [np.concatenate((a, b), axis=1)]: the walkers' sequences are joined
    pairwise; a different number of walkers or a different number of
    parameters raises [ValueError] (all the input array dimensions except
    for the concatenation axis must match exactly).  An array without
    samples is taken to agree on the parameter axis. *)
Definition concatenate_axis1 (a b : tensor 3) : result (tensor 3) :=
  if (length a =? length b)%nat then
    match last_axis a, last_axis b with
    | Some p, Some q =>
        if (p =? q)%nat then Return (zip_with (@app (list R)) a b)
        else Raise ValueError
    | _, _ => Return (zip_with (@app (list R)) a b)
    end
  else Raise ValueError.

(** [item[-1]]. *)
Definition last_item (item : list (list R)) : result (list R) :=
  match item with
  | [] => Raise IndexError
  | _ => Return (last item [])
  end.

(** The statements before the loop of [run_MCMC]. *)
Definition run_MCMC_init (ivals : tensor 2) : result driver :=
  Py.bind (for_each (fun w => match nth_error ivals w with
                              | Some v => Return [v]
                              | None => Raise IndexError
                              end) (seq 0 nwalkers)) (fun fc =>
  Return {| the_sampler :=
              EnsembleSampler nwalkers n_cosmo_hyperparams lnhyperposterior nthreads;
            burn_ins := 0;
            burning_in := true;
            vals := ivals;
            full_chain := fc;
            files := [] |}).

(** The body of [while burning_in:] (the progress plot is left out). *)
Definition burn_in_epoch (st : driver) : result driver :=
  let (smp, burn_in_mcmc_outputs) := sample (the_sampler st) (vals st) ninit in
  let written := files st ++ [EpochFile (burn_ins st) burn_in_mcmc_outputs] in
  Py.bind (concatenate_axis1 (full_chain st) (chain burn_in_mcmc_outputs)) (fun fc =>
  Py.bind (gr_test fc gr_limit) (fun b =>
  Py.bind (for_each last_item (chain burn_in_mcmc_outputs)) (fun v =>
  Return {| the_sampler := smp;
            burn_ins := S (burn_ins st);
            burning_in := b;
            vals := v;
            full_chain := fc;
            files := written |}))).

(** [while burning_in: ...], run for at most [fuel] epochs; [None] when the
    fuel runs out with the loop still going. *)
Fixpoint burn_in_loop (fuel : nat) (st : driver) : option (result driver) :=
  if burning_in st then
    match fuel with
    | O => None
    | S fuel' =>
        match burn_in_epoch st with
        | Return st' => burn_in_loop fuel' st'
        | Raise e => Some (Raise e)
        end
    end
  else Some (Return st).

(** The statements after the loop: the production run. *)
Definition production (st : driver) : result (tensor 3 * driver) :=
  let (smp, mcmc_outputs) := sample (the_sampler st) (vals st) nsteps in
  Py.bind (concatenate_axis1 (full_chain st) (chain mcmc_outputs)) (fun fc =>
  Return (fc, {| the_sampler := smp;
                 burn_ins := burn_ins st;
                 burning_in := burning_in st;
                 vals := vals st;
                 full_chain := fc;
                 files := files st ++ [FullChainFile fc] |})).

Definition run_MCMC (fuel : nat) (ivals : tensor 2)
  : option (result (tensor 3 * driver)) :=
  match run_MCMC_init ivals with
  | Return st =>
      match burn_in_loop fuel st with
      | Some (Return st') => Some (production st')
      | Some (Raise e) => Some (Raise e)
      | None => None
      end
  | Raise e => Some (Raise e)
  end.

End Notebook.

Arguments the_sampler {sampler} _.
Arguments burn_ins {sampler} _.
Arguments burning_in {sampler} _.
Arguments vals {sampler} _.
Arguments full_chain {sampler} _.
Arguments files {sampler} _.
Arguments Build_driver {sampler} _ _ _ _ _ _.
Arguments sample {sampler} _ _ _ _ _ _ _ _.
Arguments burn_in_epoch {sampler} _ _ _ _ _ _ _.
Arguments burn_in_loop {sampler} _ _ _ _ _ _ _ _.
Arguments production {sampler} _ _ _ _ _ _ _.
Arguments run_MCMC_init _ _ _ _ {sampler} _ _ _ _.
Arguments run_MCMC _ _ _ _ {sampler} _ _ _ _ _ _ _ _ _ _ _ _.

(** ** Starting positions of the walkers (notebook cell 16) *)

(** [while len(init_positions) < nwalkers: pair = prior_cosmo_dist.rvs()[0];
    if param_check(pair): init_positions.append(pair)].  The successive
    values of [prior_cosmo_dist.rvs()[0]] are given as the list [draws];
    [None] when they run out with the loop still going. *)
Fixpoint init_positions_loop (nwalkers : nat) (draws : list Hyper)
    (init_positions : list Hyper) : option (list Hyper) :=
  if (length init_positions <? nwalkers)%nat then
    match draws with
    | [] => None
    | pair_ :: draws' =>
        if param_check pair_
        then init_positions_loop nwalkers draws' (init_positions ++ [pair_])
        else init_positions_loop nwalkers draws' init_positions
    end
  else Some init_positions.

(** ** The array operations of [multi_parameter_gr_stat], one by one *)

(** [np.swapaxes(sample, 0, 1)] for a sample of shape
    [(n_walkers, n_iterations, n_params)]. *)
Definition swapaxes_0_1 (n_iterations : nat) (sample : tensor 3) : tensor 3 :=
  map (fun it => map (fun walker => nth it walker []) sample) (seq 0 n_iterations).

(** [chain_ensemble[:, :, i]]. *)
Definition take_param (i : nat) (chain_ensemble : tensor 3) : tensor 2 :=
  map (map (fun params => nth i params 0)) chain_ensemble.

(** [a.T] for a two-dimensional array with [n_cols] columns. *)
Definition transpose (n_cols : nat) (a : tensor 2) : tensor 2 :=
  map (fun c => map (fun row => nth c row 0) a) (seq 0 n_cols).

(** [chains] at pass [i] of the loop of [multi_parameter_gr_stat]:
    [np.swapaxes(sample, 0, 1)[n_burn_ins:, :][:, :, i].T]. *)
Definition chains_of_parameter (sample : tensor 3) (n_burn_ins i : nat) : tensor 2 :=
  let chain_ensemble := swapaxes_0_1 (n_columns sample) sample in
  let chain_ensemble := skipn n_burn_ins chain_ensemble in
  transpose (length sample) (take_param i chain_ensemble).

(** ** Vocabulary of the statements *)

(** Bin edges strictly increasing (the invariant of a grid axis). *)
Definition increasing (l : list R) : Prop :=
  forall i j, (i < j < length l)%nat -> nth i l 0 < nth j l 0.

(** A row with a 1 at position [k] and 0 everywhere else. *)
Definition one_hot (n k : nat) (row : list R) : Prop :=
  length row = n /\ (k < n)%nat /\ nth k row 0 = 1 /\
  forall j, j <> k -> nth j row 0 = 0.

(** The bin that [mu_binner] marks when [bisect] returns [p], on a grid of
    [n] bins: [p - 1], and the last bin for [p = 0] (index [-1]). *)
Definition marked_bin (n p : nat) : nat :=
  match p with
  | O => (n - 1)%nat
  | S k => k
  end.

(** A numpy float that is NaN. *)
Definition is_nan (v : xreal) : bool :=
  match v with
  | NaN => true
  | _ => false
  end.

(** The number in the name of a burn-in checkpoint [data/mcmc<k>.hkl]. *)
Definition checkpoint_epoch (file : checkpoint) : option nat :=
  match file with
  | EpochFile k _ => Some k
  | FullChainFile _ => None
  end.

(** A walker's sequence of samples continues another one. *)
Definition starts_with (old new : list (list R)) : Prop :=
  exists more, new = old ++ more.

(** The quantities of the Gelman-Rubin diagnostic as the specification
    words them, over the reals, for [m] chains (rows) of [n] kept samples. *)
Module GRSpec.

Definition sample_mean (row : list R) : R :=
  np_sum row / INR (length row).

(** Unbiased sample variance, divisor [n - 1]. *)
Definition sample_variance (row : list R) : R :=
  np_sum (map (fun a => (a - sample_mean row) * (a - sample_mean row)) row)
  / INR (length row - 1).

(** [W]: the mean over walkers of each walker's sample variance. *)
Definition within_chain_variance (chain : list (list R)) : R :=
  np_sum (map sample_variance chain) / INR (length chain).

Definition grand_mean (chain : list (list R)) : R :=
  np_sum (map sample_mean chain) / INR (length chain).

(** [B = n/(m-1) * sum over walkers of (walker_mean - grand_mean)^2]. *)
Definition between_chain_variance (chain : list (list R)) : R :=
  INR (n_columns chain) / (INR (length chain) - 1)
  * np_sum (map (fun xb => (grand_mean chain - xb) * (grand_mean chain - xb))
                (map sample_mean chain)).

(** [var = (n-1)/n * W + (1/n) * B]. *)
Definition pooled_variance (chain : list (list R)) : R :=
  (INR (n_columns chain) - 1) / INR (n_columns chain) * within_chain_variance chain
  + 1 / INR (n_columns chain) * between_chain_variance chain.

End GRSpec.

(** The contents of the module-level arrays [const_term] and
    [flat_lnhyperlikelihood] once the notebook has been set up. *)
Definition const_term_value (sim : SimInfo) : tensor 4 :=
  reg_vals_val log_epsilon 4
    (per_object Rminus
       (per_object Rminus (interim_ln_posteriors sim) (interim_ln_prior_ sim))
       (ln_selection_function_ sim)).

Definition flat_value (sim : SimInfo) : tensor 3 :=
  safe_log_val epsilon 3 (tmap (fun _ => 1 * epsilon) 3 (interim_ln_prior_ sim)).

(** A store in which the two module-level arrays that the posterior reads
    hold these contents. *)
Definition loaded (sim : SimInfo) (g : Globals) (s : store) : Prop :=
  nth_error s (const_term g) = Some (nd (d:=4) (const_term_value sim)) /\
  nth_error s (flat_lnhyperlikelihood g) = Some (nd (d:=3) (flat_value sim)).

(** The references and the store that the set-up statements produce,
    started in an empty store. *)
Definition setup_globals : Globals := {|
  lninterimposteriors := 0;
  interim_ln_prior := 1;
  ln_selection_function := 2;
  flat_hyperlikelihood := 3;
  flat_lnhyperlikelihood := 4;
  const_term := 5
|}.

Definition setup_store (sim : SimInfo) : store :=
  [nd (d:=4) (interim_ln_posteriors sim);
   nd (d:=3) (interim_ln_prior_ sim);
   nd (d:=3) (ln_selection_function_ sim);
   nd (d:=3) (tmap (fun _ => 1 * epsilon) 3 (interim_ln_prior_ sim));
   nd (d:=3) (flat_value sim);
   nd (d:=4) (const_term_value sim)].

(** Every array of [s] is still there, unchanged, in [s']. *)
Definition extends (s s' : store) : Prop :=
  forall r a, nth_error s r = Some a -> nth_error s' r = Some a.

(** Sums over grid indices, as the specification writes them. *)
Definition big_sum (n : nat) (f : nat -> R) : R := np_sum (map f (seq 0 n)).

(** Element [[t][z][k]] of a three-dimensional array. *)
Definition at3 (a : tensor 3) (t z k : nat) : R :=
  nth k (nth z (nth t a []) []) 0.

(** The grid integral of the specification,
    [sum_t sum_z sum_mu exp(a[t][z][mu]) * dmu * dz / n_types]. *)
Definition grid_integral (sim : SimInfo) (a : tensor 3) : R :=
  big_sum (n_types sim) (fun t =>
  big_sum (n_zs sim) (fun z =>
  big_sum (n_mus sim) (fun k =>
    exp (at3 a t z k) * nth k (difs (mu_bins sim)) 0 * nth z (difs (z_bins sim)) 0
    / INR (n_types sim)))).

(** The weighted sum [sum_t sum_z sum_mu a[t][z][mu] * dmu * dz / n_types]
    of a density over the grid. *)
Definition weighted_sum (sim : SimInfo) (a : tensor 3) : R :=
  big_sum (n_types sim) (fun t =>
  big_sum (n_zs sim) (fun z =>
  big_sum (n_mus sim) (fun k =>
    at3 a t z k * nth k (difs (mu_bins sim)) 0 * nth z (difs (z_bins sim)) 0
    / INR (n_types sim)))).

(** [clamp_log(constant_term + log_hyperlikelihood)] for one object. *)
Definition combined (obj new_term : tensor 3) : tensor 3 :=
  zip3 (fun c x => Rmax (c + x) log_epsilon) obj new_term.

(** The log-posterior of the specification for the log-hyperlikelihood
    array [new_term]: the sum over the objects of
    [safe_log(grid integral)]. *)
Definition log_posterior_spec (sim : SimInfo) (new_term : tensor 3) : R :=
  np_sum (map (fun obj => ln (Rmax (grid_integral sim (combined obj new_term)) epsilon))
              (const_term_value sim)).

(** ** The posterior as a function of the hyperparameters alone *)

(** The in-bounds branch of [lnhyperlikelihood] from line 438 on, on
    values: what [normalised_log] puts into the array it returns, or the
    exception it raises. *)
Definition normalised_value (sim : SimInfo) (matrix : tensor 3) : result (tensor 3) :=
  Py.bind (normaliser sim matrix) (fun norm =>
  let d' := tmap (fun x => x / norm) 3 matrix in
  Py.bind (asserted_sum sim d') (fun total =>
  if Req_dec_T norm 0 then Raise AssertionError
  else if isclose total 1 then Return (safe_log_val epsilon 3 d')
  else Raise AssertionError)).

(** [lnposterior] on values, with the module-level arrays at the contents
    they have after set-up. *)
Definition lnposterior_value (sim : SimInfo) (distmod : R -> R -> R -> R)
    (hyperparameters : Hyper) : result R :=
  if param_check hyperparameters then
    Py.bind (mu_binner sim
               (map (distmod (H0 hyperparameters) (Om0 hyperparameters)) (z_mids sim)))
      (fun matrix =>
    Py.bind (normalised_value sim matrix) (fun new_term =>
    Return (log_posterior_spec sim new_term)))
  else Return (log_posterior_spec sim (flat_value sim)).

(** ** Small inputs used in examples *)

Module Toy.

(** A store holding one array, [np.array([-2000.])]. *)
Definition low_array : ndarray := nd (d:=1) [-2000].
Definition low_store : store := [low_array].

(** A catalog of one object and one type on a grid of one redshift bin
    (midpoint 1) and two distance-modulus bins. *)
Definition sim : SimInfo := {|
  z_bins := [0; 2];
  mu_bins := [45; 46; 47];
  interim_ln_posteriors := [[[[0; 0]]]];
  interim_ln_prior_ := [[[0; 0]]];
  ln_selection_function_ := [[[0; 0]]];
  n_SNe := 1;
  n_types := 1;
  n_zs := 1;
  n_mus := 2
|}.

(** One walker's kept samples of one parameter. *)
Definition two_samples : list R := [0; 1].

(** A sampler whose walkers never move: two walkers that sit at
    [(70, 0.3)] for the three steps of every epoch. *)
Definition stuck_at : list R := [70; 3 / 10].
Definition stuck_start : tensor 2 := [stuck_at; stuck_at].
Definition stuck_chain : tensor 3 :=
  [[stuck_at; stuck_at; stuck_at]; [stuck_at; stuck_at; stuck_at]].
Definition stuck_reset (smp : unit) : unit := smp.
Definition stuck_run_mcmc (smp : unit) (ivals : tensor 2) (n_samps : nat) : unit := smp.
Definition stuck_chain_of (smp : unit) : tensor 3 := stuck_chain.
Definition stuck_lnprobability (smp : unit) : tensor 2 := [[0; 0; 0]; [0; 0; 0]].
Definition stuck_acceptance (smp : unit) : tensor 1 := [0; 0].

(** The driver before and after the first epoch with this sampler. *)
Definition stuck_before : driver unit := {|
  the_sampler := tt;
  burn_ins := 0;
  burning_in := true;
  vals := stuck_start;
  full_chain := [[stuck_at]; [stuck_at]];
  files := []
|}.

Definition stuck_after : driver unit := {|
  the_sampler := tt;
  burn_ins := 1;
  burning_in := false;
  vals := stuck_start;
  full_chain := [[stuck_at; stuck_at; stuck_at; stuck_at];
                 [stuck_at; stuck_at; stuck_at; stuck_at]];
  files := [EpochFile 0 {| chain := stuck_chain;
                           lnprobability := [[0; 0; 0]; [0; 0; 0]];
                           acceptance_fraction := [0; 0] |}]
|}.

(** A catalog of one object and one type on a grid of two redshift bins
    and three distance-modulus bins. *)
Definition sim23 : SimInfo := {|
  z_bins := [0; 1; 2];
  mu_bins := [40; 43; 46; 49];
  interim_ln_posteriors := [[[[0; 0; 0]; [0; 0; 0]]]];
  interim_ln_prior_ := [[[0; 0; 0]; [0; 0; 0]]];
  ln_selection_function_ := [[[0; 0; 0]; [0; 0; 0]]];
  n_SNe := 1;
  n_types := 1;
  n_zs := 2;
  n_mus := 3
|}.

(** A catalog of one object and one type on a grid of a single cell. *)
Definition sim11 : SimInfo := {|
  z_bins := [0; 2];
  mu_bins := [44; 45];
  interim_ln_posteriors := [[[[0]]]];
  interim_ln_prior_ := [[[0]]];
  ln_selection_function_ := [[[0]]];
  n_SNe := 1;
  n_types := 1;
  n_zs := 1;
  n_mus := 1
|}.

(** A catalog of one object and one type on a grid of one redshift bin and
    two distance-modulus bins around the distance modulus 44.1. *)
Definition sim12 : SimInfo := {|
  z_bins := [0; 2];
  mu_bins := [43; 44; 45];
  interim_ln_posteriors := [[[[0; 0]]]];
  interim_ln_prior_ := [[[0; 0]]];
  ln_selection_function_ := [[[0; 0]]];
  n_SNe := 1;
  n_types := 1;
  n_zs := 1;
  n_mus := 2
|}.

(** Two walkers, four iterations, two parameters: the kept halves are
    [0, 1] and [10, 11] for both parameters. *)
Definition far_apart : tensor 3 :=
  [[[0; 0]; [0; 0]; [0; 0]; [1; 1]];
   [[0; 0]; [0; 0]; [10; 10]; [11; 11]]].

(** Hyperparameters inside the admissible box. *)
Definition inside : Hyper := {| H0 := 70; Om0 := 3 / 10 |}.

(** Hyperparameters outside the admissible box, past two different
    bounds. *)
Definition outside : Hyper := {| H0 := 40; Om0 := 3 / 10 |}.
Definition outside' : Hyper := {| H0 := 70; Om0 := 1 |}.

(** A stand-in for astropy's [distmod]: the distance modulus 44.1 that a
    flat cosmology with [H0 = 70], [Om0 = 0.3] gives at redshift 1, for
    every argument. *)
Definition distmod_44 (H0 Om0 z : R) : R := 441 / 10.

(** scipy's normal log-density,
    [-(x - loc)^2 / (2 scale^2) - ln(scale) - ln(sqrt(2 pi))]. *)
Definition gauss_logpdf (loc scale x : R) : R :=
  - ((x - loc) * (x - loc)) / (2 * (scale * scale)) - ln scale - ln (sqrt (2 * PI)).

(** The stuck walkers at the end of [run_MCMC]: one epoch of three steps,
    then a production run of three steps. *)
Definition stuck_full : tensor 3 :=
  [[stuck_at; stuck_at; stuck_at; stuck_at; stuck_at; stuck_at; stuck_at];
   [stuck_at; stuck_at; stuck_at; stuck_at; stuck_at; stuck_at; stuck_at]].

Definition stuck_done : driver unit := {|
  the_sampler := tt;
  burn_ins := 1;
  burning_in := false;
  vals := stuck_start;
  full_chain := stuck_full;
  files := [EpochFile 0 {| chain := stuck_chain;
                           lnprobability := [[0; 0; 0]; [0; 0; 0]];
                           acceptance_fraction := [0; 0] |};
            FullChainFile stuck_full]
|}.

(** A catalog of one object and one type on a grid of one redshift bin and
    no distance-modulus bin. *)
Definition sim_no_mu : SimInfo := {|
  z_bins := [0; 2];
  mu_bins := [45];
  interim_ln_posteriors := [[[[]]]];
  interim_ln_prior_ := [[[]]];
  ln_selection_function_ := [[[]]];
  n_SNe := 1;
  n_types := 1;
  n_zs := 1;
  n_mus := 0
|}.

End Toy.

(** * Properties *)

(** Decide the comparisons of real constants met while evaluating a
    definition at a concrete input. *)
Ltac decide_reals :=
  repeat match goal with
  | |- context [Rlt_dec ?a ?b] => destruct (Rlt_dec a b); try lra
  | |- context [Rle_dec ?a ?b] => destruct (Rle_dec a b); try lra
  | |- context [Req_dec_T ?a ?b] => destruct (Req_dec_T a b); try lra
  end.

(** ** The store *)

Lemma nth_error_update_same (s : store) (r : ref) (a b : ndarray) :
  nth_error s r = Some b -> nth_error (update s r a) r = Some a.
Proof.
  revert r; induction s as [|c s IH]; intros [|r] H; simpl in *; try discriminate; auto.
Qed.

Lemma nth_error_update_other (s : store) (r r' : ref) (a : ndarray) :
  r' <> r -> nth_error (update s r a) r' = nth_error s r'.
Proof.
  revert r r'; induction s as [|c s IH]; intros [|r] [|r'] H; simpl; auto;
    try congruence.
Qed.

Lemma update_same (s : store) (r : ref) (a : ndarray) :
  nth_error s r = Some a -> update s r a = s.
Proof.
  revert r; induction s as [|c s IH]; intros [|r] H; simpl in *; try discriminate.
  - congruence.
  - f_equal; auto.
Qed.

Lemma length_update (s : store) (r : ref) (a : ndarray) :
  length (update s r a) = length s.
Proof.
  revert r; induction s as [|c s IH]; intros [|r]; simpl; auto.
Qed.

Lemma cast_nd (d : nat) (t : tensor d) : cast d (nd t) = Some t.
Proof.
  unfold cast, nd; simpl.
  destruct (Nat.eq_dec d d) as [e|ne]; [|congruence].
  now rewrite (UIP_refl_nat d e).
Qed.

Lemma nd_inj (d : nat) (t t' : tensor d) : nd t = nd t' -> t = t'.
Proof.
  intros H. apply (f_equal (cast d)) in H. rewrite !cast_nd in H. congruence.
Qed.

Lemma read_as_nd (d : nat) (t : tensor d) (s : store) (r : ref) :
  nth_error s r = Some (nd t) -> read_as d r s = Return (t, s).
Proof.
  intros H. unfold read_as, Store.bind, read. rewrite H, cast_nd. reflexivity.
Qed.

Lemma nth_error_alloc_old (s : store) (a b : ndarray) (r : ref) :
  nth_error s r = Some a -> nth_error (s ++ [b]) r = Some a.
Proof.
  intros H. rewrite nth_error_app1; auto. apply nth_error_Some. congruence.
Qed.

Lemma nth_error_alloc_new (s : store) (b : ndarray) :
  nth_error (s ++ [b]) (length s) = Some b.
Proof.
  rewrite nth_error_app2, Nat.sub_diag; auto.
Qed.

(** ** SafeLog utilities *)

Lemma reshape_like_flatten (f : R -> R) (d : nat) :
  forall (arr : tensor d) (rest : list R),
    reshape_like d arr (map f (flatten d arr) ++ rest) = Some (tmap f d arr, rest).
Proof.
  induction d as [|d IHd]; intros arr rest; simpl.
  - reflexivity.
  - revert rest. induction arr as [|t ts IHts]; intros rest; simpl.
    + reflexivity.
    + rewrite map_app, <- app_assoc, IHd, IHts. reflexivity.
Qed.

(** Flatten, map and reshape is the element-wise map. *)
Lemma safe_log_val_tmap (threshold : R) (d : nat) (arr : tensor d) :
  safe_log_val threshold d arr = tmap (fun a => ln (Py.max a threshold)) d arr.
Proof.
  unfold safe_log_val, log_floor.
  rewrite map_map.
  rewrite <- (app_nil_r (map _ (flatten d arr))).
  now rewrite reshape_like_flatten.
Qed.

Lemma floor_at_Rmax (threshold x : R) : floor_at threshold x = Rmax x threshold.
Proof.
  unfold floor_at, Rmax.
  destruct (Rlt_dec x threshold), (Rle_dec x threshold); lra.
Qed.

Lemma py_max_Rmax (a b : R) : Py.max a b = Rmax a b.
Proof.
  unfold Py.max, Rmax. destruct (Rlt_dec a b), (Rle_dec a b); lra.
Qed.

Lemma tmap_ext (f f' : R -> R) (d : nat) (t : tensor d) :
  (forall x, In x (flatten d t) -> f x = f' x) -> tmap f d t = tmap f' d t.
Proof.
  induction d as [|d IHd]; simpl in *; intros H.
  - apply H; auto.
  - induction t as [|p t IHt]; simpl in *; [reflexivity|].
    f_equal.
    + apply IHd. intros x Hx. apply H, in_or_app; auto.
    + apply IHt. intros x Hx. apply H, in_or_app; auto.
Qed.

Lemma tmap_id (d : nat) (t : tensor d) : tmap (fun x => x) d t = t.
Proof.
  induction d as [|d IHd]; simpl in *; [reflexivity|].
  induction t as [|p t IHt]; simpl; [reflexivity|]. now rewrite IHd, IHt.
Qed.

Lemma reg_vals_val_above (threshold : R) (d : nat) (t : tensor d) :
  (forall x, In x (flatten d t) -> threshold <= x) -> reg_vals_val threshold d t = t.
Proof.
  intros H. unfold reg_vals_val.
  rewrite <- (tmap_id d t) at 2. apply tmap_ext.
  intros x Hx. apply H in Hx. unfold floor_at. destruct (Rlt_dec x threshold); lra.
Qed.

Lemma safe_log_run (s : store) (arr : ref) (a : ndarray) (threshold : R) :
  nth_error s arr = Some a ->
  safe_log arr threshold s
  = Return (length s, s ++ [nd_map (fun x => ln (Py.max x threshold)) a]).
Proof.
  intros H. unfold safe_log, Store.bind, read, alloc. rewrite H.
  now rewrite safe_log_val_tmap.
Qed.

Lemma reg_vals_run (s : store) (arr : ref) (a : ndarray) (threshold : R) :
  nth_error s arr = Some a ->
  reg_vals arr threshold s
  = Return (arr, update s arr (nd_map (floor_at threshold) a)).
Proof.
  intros H. unfold reg_vals, Store.bind, read, write, Store.ret. rewrite H.
  simpl. rewrite H. reflexivity.
Qed.

(** C8, as the code has it: for every array of any shape both functions
    return.  [safe_log] returns a new array holding [ln(max(x, threshold))]
    element-wise and leaves every array of the caller unchanged.  [reg_vals]
    returns the array it was given, overwritten in place with the
    element-wise [max(x, threshold)]; every other array is unchanged, and
    the argument itself is unchanged when none of its elements is below the
    threshold. *)
Theorem safe_log_reg_vals_effects (s : store) (arr : ref) (a : ndarray)
    (threshold : R) (Harr : nth_error s arr = Some a) :
  (exists s',
     safe_log arr threshold s = Return (length s, s') /\
     nth_error s' (length s)
       = Some (nd_map (fun x => ln (Rmax x threshold)) a) /\
     (forall r b, nth_error s r = Some b -> nth_error s' r = Some b)) /\
  (exists s',
     reg_vals arr threshold s = Return (arr, s') /\
     nth_error s' arr = Some (nd_map (fun x => Rmax x threshold) a) /\
     (forall r, r <> arr -> nth_error s' r = nth_error s r) /\
     ((forall x, In x (flatten (projT1 a) (projT2 a)) -> threshold <= x) ->
      s' = s)).
Proof.
  split.
  - eexists. split; [apply (safe_log_run s arr a threshold Harr)|]. split.
    + rewrite nth_error_alloc_new. f_equal. unfold nd_map. f_equal.
      apply tmap_ext. intros x _. now rewrite py_max_Rmax.
    + intros r b Hr. now apply nth_error_alloc_old.
  - eexists. split; [apply (reg_vals_run s arr a threshold Harr)|]. split; [|split].
    + rewrite (nth_error_update_same s arr _ a Harr). f_equal. unfold nd_map. f_equal.
      apply tmap_ext. intros x _. apply floor_at_Rmax.
    + intros r Hr. now apply nth_error_update_other.
    + intros Habove. apply update_same. rewrite Harr. f_equal.
      destruct a as [d t]. unfold nd_map, nd. simpl in *. f_equal.
      symmetry. now apply reg_vals_val_above.
Qed.

(** [reg_vals] at the array [[-2000.]] and the default threshold. *)
Lemma safe_log_reg_vals_effects_witness :
  exists s',
    reg_vals 0%nat log_epsilon Toy.low_store = Return (0%nat, s') /\
    nth_error s' 0%nat = Some (nd_map (fun x => Rmax x log_epsilon) Toy.low_array).
Proof.
  destruct (safe_log_reg_vals_effects Toy.low_store 0%nat Toy.low_array log_epsilon
              eq_refl) as [_ [s' [Hrun [Hval _]]]].
  exists s'. split; [exact Hrun | exact Hval].
Defined.

(** C8 fails for [reg_vals]: the caller's array [[-2000.]] holds [-1021.]
    after the call. *)
Lemma reg_vals_overwrites_input :
  reg_vals 0%nat log_epsilon Toy.low_store = Return (0%nat, [nd (d:=1) [-1021]]) /\
  nth_error [nd (d:=1) [-1021]] 0%nat <> nth_error Toy.low_store 0%nat.
Proof.
  split.
  - rewrite (reg_vals_run Toy.low_store 0%nat Toy.low_array log_epsilon eq_refl).
    unfold Toy.low_array, nd_map, nd, floor_at, log_epsilon; simpl.
    decide_reals. reflexivity.
  - unfold Toy.low_store, Toy.low_array. simpl. intros H.
    assert (E : nd (d:=1) [-1021] = nd (d:=1) [-2000]) by congruence.
    apply nd_inj in E. assert (-1021 = -2000) by congruence. lra.
Qed.

(** ** bisect *)

Lemma half_between (lo hi : nat) :
  (lo < hi)%nat -> (lo <= (lo + hi) / 2 < hi)%nat.
Proof.
  intros H.
  pose proof (Nat.div_mod_eq (lo + hi) 2).
  pose proof (Nat.mod_upper_bound (lo + hi) 2).
  lia.
Qed.

Ltac midpoint :=
  match goal with
  | Hlt : (?lo < ?hi)%nat |- _ => pose proof (half_between lo hi Hlt)
  end.

Lemma bisect_loop_bounds (a : list R) (x : R) (lo hi : nat) :
  (lo <= hi)%nat -> (lo <= bisect_loop a x lo hi <= hi)%nat.
Proof.
  funelim (bisect_loop a x lo hi); intros Hle.
  - lia.
  - midpoint. lia.
  - midpoint. lia.
Qed.

Lemma bisect_bounds (a : list R) (x : R) : (bisect a x <= length a)%nat.
Proof.
  unfold bisect. pose proof (bisect_loop_bounds a x 0 (length a) (Nat.le_0_l (length a))). lia.
Qed.

(** When [x] is below every probed element the search ends at [lo]. *)
Lemma bisect_loop_all_above (a : list R) (x : R) (lo hi : nat) :
  (forall i, (lo <= i < hi)%nat -> x < nth i a 0) ->
  bisect_loop a x lo hi = lo.
Proof.
  funelim (bisect_loop a x lo hi); intros Habove.
  - reflexivity.
  - midpoint. apply H. intros i Hi. apply Habove. lia.
  - midpoint. exfalso. apply n. apply Habove. lia.
Qed.

(** On a non-decreasing list the result splits the list: everything before
    it is at most [x], everything from it on is above [x]. *)
Lemma bisect_loop_split (a : list R) (x : R) (lo hi : nat) :
  (forall i j, (i <= j < length a)%nat -> nth i a 0 <= nth j a 0) ->
  (lo <= hi <= length a)%nat ->
  (forall i, (i < lo)%nat -> nth i a 0 <= x) ->
  (forall i, (hi <= i < length a)%nat -> x < nth i a 0) ->
  (forall i, (i < bisect_loop a x lo hi)%nat -> nth i a 0 <= x) /\
  (forall i, (bisect_loop a x lo hi <= i < length a)%nat -> x < nth i a 0).
Proof.
  funelim (bisect_loop a x lo hi); intros Hsorted Hrange Hlow Hhigh.
  - split; [assumption|]. intros i Hi. apply Hhigh. lia.
  - midpoint. apply H; auto; [lia|].
    intros i Hi. apply Rlt_le_trans with (1 := r). apply Hsorted. lia.
  - midpoint. apply H; auto; [lia|].
    intros i Hi. apply Rle_trans with (nth ((lo + hi) / 2) a 0).
    + apply Hsorted. lia.
    + lra.
Qed.

Lemma increasing_le (l : list R) :
  increasing l -> forall i j, (i <= j < length l)%nat -> nth i l 0 <= nth j l 0.
Proof.
  intros Hinc i j Hij. destruct (Nat.eq_dec i j) as [->|Hne]; [lra|].
  left. apply Hinc. lia.
Qed.

Lemma bisect_split (a : list R) (x : R) :
  increasing a ->
  (forall i, (i < bisect a x)%nat -> nth i a 0 <= x) /\
  (forall i, (bisect a x <= i < length a)%nat -> x < nth i a 0).
Proof.
  intros Hinc. unfold bisect. apply bisect_loop_split.
  - now apply increasing_le.
  - lia.
  - intros i Hi. lia.
  - intros i Hi. lia.
Qed.

Lemma length_removelast (l : list R) (n : nat) :
  length l = S n -> length (removelast l) = n.
Proof.
  revert n. induction l as [|x l IH]; intros n H; [discriminate|].
  destruct l as [|y l]; simpl in *; [congruence|].
  destruct n as [|n]; [discriminate|]. f_equal. apply IH. congruence.
Qed.

Lemma nth_removelast (l : list R) (i : nat) :
  (S i < length l)%nat -> nth i (removelast l) 0 = nth i l 0.
Proof.
  revert i. induction l as [|x l IH]; intros i H; [simpl in H; lia|].
  destruct l as [|y l]; [simpl in H; lia|].
  destruct i as [|i]; [reflexivity|].
  change (nth i (removelast (y :: l)) 0 = nth i (y :: l) 0).
  apply IH. simpl in *. lia.
Qed.

Lemma increasing_removelast (l : list R) :
  increasing l -> increasing (removelast l).
Proof.
  intros Hinc i j Hij.
  destruct l as [|x l]; [simpl in Hij; lia|].
  assert (Hlen : length (removelast (x :: l)) = length l)
    by (apply length_removelast; reflexivity).
  rewrite Hlen in Hij.
  rewrite !nth_removelast by (simpl; lia).
  apply Hinc. simpl. lia.
Qed.

(** ** mu_binner *)

Lemma index_marked_bin (n p : nat) :
  (1 <= n)%nat -> (p <= n)%nat ->
  Py.index n (Z.of_nat p - 1) = Return (marked_bin n p).
Proof.
  intros Hn Hp. unfold Py.index, marked_bin. destruct p as [|k].
  - replace (Z.of_nat 0 - 1)%Z with (-1)%Z by lia.
    destruct (0 <=? -1)%Z eqn:E; [apply Z.leb_le in E; lia|].
    destruct (0 <=? -1 + Z.of_nat n)%Z eqn:E'.
    + f_equal. lia.
    + apply Z.leb_gt in E'. lia.
  - destruct (0 <=? Z.of_nat (S k) - 1)%Z eqn:E; [|apply Z.leb_gt in E; lia].
    destruct (Z.of_nat (S k) - 1 <? Z.of_nat n)%Z eqn:E'.
    + f_equal. lia.
    + apply Z.ltb_ge in E'. lia.
Qed.

Lemma marked_bin_lt (n p : nat) :
  (1 <= n)%nat -> (p <= n)%nat -> (marked_bin n p < n)%nat.
Proof.
  intros Hn Hp. destruct p; simpl; lia.
Qed.

Lemma length_add_at (v : list R) (i : nat) (x : R) :
  length (add_at v i x) = length v.
Proof.
  revert i. induction v as [|y v IH]; intros [|i]; simpl; auto.
Qed.

Lemma nth_add_at_same (v : list R) (i : nat) (x : R) :
  (i < length v)%nat -> nth i (add_at v i x) 0 = nth i v 0 + x.
Proof.
  revert i. induction v as [|y v IH]; intros [|i] H; simpl in *; try lia; auto.
  apply IH. lia.
Qed.

Lemma nth_add_at_other (v : list R) (i j : nat) (x : R) :
  j <> i -> nth j (add_at v i x) 0 = nth j v 0.
Proof.
  revert i j. induction v as [|y v IH]; intros [|i] [|j] H; simpl; auto; try congruence.
Qed.

Lemma nth_repeat_0 (n j : nat) : nth j (repeat 0 n) 0 = 0.
Proof.
  revert j. induction n as [|n IH]; intros [|j]; simpl; auto.
Qed.

Lemma one_hot_add_at (n k : nat) :
  (k < n)%nat -> one_hot n k (add_at (repeat 0 n) k 1).
Proof.
  intros Hk. unfold one_hot. rewrite length_add_at, repeat_length.
  repeat split; auto.
  - rewrite nth_add_at_same by (rewrite repeat_length; lia).
    rewrite nth_repeat_0. lra.
  - intros j Hj. rewrite nth_add_at_other by auto. apply nth_repeat_0.
Qed.

Lemma for_each_total {A B : Type} (f : A -> result B) (h : A -> B) (l : list A) :
  (forall x, In x l -> f x = Return (h x)) -> for_each f l = Return (map h l).
Proof.
  induction l as [|x l IH]; intros H; simpl; [reflexivity|].
  rewrite H by (left; reflexivity). simpl.
  rewrite IH by (intros y Hy; apply H; right; exact Hy). reflexivity.
Qed.

Section MuBinner.

Variable sim : SimInfo.
Hypothesis Hbins : (1 <= n_mus sim)%nat.
Hypothesis Hedges : length (mu_bins sim) = S (n_mus sim).

(** The row that the loop of [mu_binner] builds for [mu]. *)
Lemma mu_row_marked (mu : R) :
  mu_row sim mu
  = Return (add_at (repeat 0 (n_mus sim))
                   (marked_bin (n_mus sim) (bisect (removelast (mu_bins sim)) mu)) 1).
Proof.
  unfold mu_row. rewrite index_marked_bin; auto.
  pose proof (bisect_bounds (removelast (mu_bins sim)) mu) as Hb.
  now rewrite (length_removelast _ _ Hedges) in Hb.
Qed.

Lemma mu_binner_marked (mus : list R) :
  mu_binner sim mus
  = Return (repeat
      (map (fun mu => add_at (repeat 0 (n_mus sim))
              (marked_bin (n_mus sim) (bisect (removelast (mu_bins sim)) mu)) 1) mus)
      (n_types sim)).
Proof.
  unfold mu_binner.
  rewrite for_each_total with (h := fun mu => add_at (repeat 0 (n_mus sim))
              (marked_bin (n_mus sim) (bisect (removelast (mu_bins sim)) mu)) 1).
  - reflexivity.
  - intros mu _. apply mu_row_marked.
Qed.

Lemma marked_row_one_hot (mu : R) :
  one_hot (n_mus sim)
    (marked_bin (n_mus sim) (bisect (removelast (mu_bins sim)) mu))
    (add_at (repeat 0 (n_mus sim))
       (marked_bin (n_mus sim) (bisect (removelast (mu_bins sim)) mu)) 1).
Proof.
  apply one_hot_add_at, marked_bin_lt; auto.
  pose proof (bisect_bounds (removelast (mu_bins sim)) mu) as Hb.
  now rewrite (length_removelast _ _ Hedges) in Hb.
Qed.

End MuBinner.

Lemma increasing_first (l : list R) (i : nat) :
  increasing l -> (i < length l)%nat -> nth 0 l 0 <= nth i l 0.
Proof.
  intros Hinc Hi. apply increasing_le; auto. lia.
Qed.

(** C9: on a grid of at least one bin, [mu_binner] returns for every list of
    distance moduli, whatever their position relative to the grid, an array
    of shape [n_types, len(mus), n_mus] in which every row has one entry
    equal to 1 and all others 0; on increasing edges a value below the first
    edge gets its 1 in the last bin. *)
Theorem mu_binner_rows_one_hot (sim : SimInfo) (mus : list R)
    (Hbins : (1 <= n_mus sim)%nat)
    (Hedges : length (mu_bins sim) = S (n_mus sim)) :
  exists t,
    mu_binner sim mus = Return t /\
    has_shape3 (n_types sim) (length mus) (n_mus sim) t /\
    (forall plane row, In plane t -> In row plane ->
       exists k, one_hot (n_mus sim) k row) /\
    (increasing (mu_bins sim) ->
     forall plane i mu, In plane t -> nth_error mus i = Some mu ->
       mu < nth 0 (mu_bins sim) 0 ->
       one_hot (n_mus sim) (n_mus sim - 1) (nth i plane [])).
Proof.
  eexists. split; [apply mu_binner_marked; assumption|].
  split; [|split].
  - split; [apply repeat_length|].
    apply Forall_forall. intros plane Hplane. apply repeat_spec in Hplane. subst plane.
    split; [apply length_map|].
    apply Forall_forall. intros row Hrow. apply in_map_iff in Hrow.
    destruct Hrow as [mu [<- _]]. now rewrite length_add_at, repeat_length.
  - intros plane row Hplane Hrow. apply repeat_spec in Hplane. subst plane.
    apply in_map_iff in Hrow. destruct Hrow as [mu [<- _]].
    eexists. apply marked_row_one_hot; assumption.
  - intros Hinc plane i mu Hplane Hi Hbelow.
    apply repeat_spec in Hplane. subst plane.
    apply (map_nth_error (fun mu => add_at (repeat 0 (n_mus sim))
             (marked_bin (n_mus sim) (bisect (removelast (mu_bins sim)) mu)) 1)) in Hi.
    rewrite (nth_error_nth _ _ _ Hi).
    assert (Hzero : bisect (removelast (mu_bins sim)) mu = 0%nat).
    { unfold bisect. apply bisect_loop_all_above. intros j Hj.
      rewrite (length_removelast _ _ Hedges) in Hj.
      rewrite nth_removelast by lia.
      apply Rlt_le_trans with (1 := Hbelow). apply increasing_first; auto. lia. }
    pose proof (marked_row_one_hot sim Hbins Hedges mu) as Hhot.
    rewrite Hzero in Hhot |- *. exact Hhot.
Qed.

Lemma mu_binner_rows_one_hot_witness :
  exists t, mu_binner Toy.sim [44; 91 / 2; 50] = Return t /\ has_shape3 1 3 2 t.
Proof.
  destruct (mu_binner_rows_one_hot Toy.sim [44; 91 / 2; 50]) as [t [Hrun [Hshape _]]].
  - simpl. lia.
  - reflexivity.
  - exists t. split; [exact Hrun | exact Hshape].
Defined.

(** ** Hyperlikelihood *)

Lemma lnhyperlikelihood_inside (sim : SimInfo) (distmod : R -> R -> R -> R)
    (g : Globals) (h : Hyper) (matrix : tensor 3) :
  param_check h = true ->
  mu_binner sim (map (distmod (H0 h) (Om0 h)) (z_mids sim)) = Return matrix ->
  forall s, lnhyperlikelihood sim distmod g h s = normalised_log sim matrix s.
Proof.
  intros Hin Hbin s. unfold lnhyperlikelihood. rewrite Hin.
  unfold Store.bind at 1. unfold lift. rewrite Hbin. reflexivity.
Qed.

(** C5, as the code has it: for in-bounds hyperparameters the array that
    [lnhyperlikelihood] normalises is [n_types] copies of one [n_z] by
    [n_mu] matrix of one-hot rows; for every redshift midpoint whose distance
    modulus is at or above the first bin edge, the row marks the bin whose
    lower edge is the nearest lower edge at or below that distance modulus. *)
Theorem lnhyperlikelihood_indicator (sim : SimInfo) (distmod : R -> R -> R -> R)
    (g : Globals) (h : Hyper)
    (Hbins : (1 <= n_mus sim)%nat)
    (Hedges : length (mu_bins sim) = S (n_mus sim))
    (Hinc : increasing (mu_bins sim))
    (Hin : param_check h = true) :
  exists matrix,
    mu_binner sim (map (distmod (H0 h) (Om0 h)) (z_mids sim))
      = Return (repeat matrix (n_types sim)) /\
    (forall s, lnhyperlikelihood sim distmod g h s
               = normalised_log sim (repeat matrix (n_types sim)) s) /\
    length matrix = length (z_mids sim) /\
    forall i, (i < length (z_mids sim))%nat ->
      let mu := distmod (H0 h) (Om0 h) (nth i (z_mids sim) 0) in
      nth 0 (mu_bins sim) 0 <= mu ->
      exists k,
        one_hot (n_mus sim) k (nth i matrix []) /\
        nth k (mu_bins sim) 0 <= mu /\
        (forall j, (j < n_mus sim)%nat -> nth j (mu_bins sim) 0 <= mu -> (j <= k)%nat).
Proof.
  pose proof (mu_binner_marked sim Hbins Hedges
                (map (distmod (H0 h) (Om0 h)) (z_mids sim))) as Hrun.
  eexists. split; [exact Hrun|]. split; [|split].
  - intros s. now apply lnhyperlikelihood_inside.
  - now rewrite !length_map.
  - intros i Hi mu Hfirst.
    set (a := removelast (mu_bins sim)) in *.
    assert (Hlen : length a = n_mus sim) by (apply length_removelast; exact Hedges).
    assert (Hnth : forall j, (j < n_mus sim)%nat -> nth j a 0 = nth j (mu_bins sim) 0)
      by (intros j Hj; apply nth_removelast; lia).
    destruct (bisect_split a mu (increasing_removelast _ Hinc)) as [Hlow Hhigh].
    pose proof (bisect_bounds a mu) as Hb. rewrite Hlen in Hb, Hhigh.
    rewrite map_map.
    assert (Erow : nth i (map (fun z => add_at (repeat 0 (n_mus sim))
                     (marked_bin (n_mus sim)
                        (bisect a (distmod (H0 h) (Om0 h) z))) 1) (z_mids sim)) []
                   = add_at (repeat 0 (n_mus sim))
                       (marked_bin (n_mus sim) (bisect a mu)) 1).
    { apply nth_error_nth.
      apply (map_nth_error (fun z => add_at (repeat 0 (n_mus sim))
               (marked_bin (n_mus sim) (bisect a (distmod (H0 h) (Om0 h) z))) 1)).
      apply nth_error_nth'. exact Hi. }
    rewrite Erow.
    destruct (bisect a mu) as [|k] eqn:Ep.
    + exfalso. specialize (Hhigh 0%nat). rewrite Hnth in Hhigh by lia.
      assert (mu < nth 0 (mu_bins sim) 0) by (apply Hhigh; lia). lra.
    + exists k. split; [|split].
      * pose proof (marked_row_one_hot sim Hbins Hedges mu) as Hhot.
        fold a in Hhot. rewrite Ep in Hhot. exact Hhot.
      * rewrite <- Hnth by lia. apply Hlow. lia.
      * intros j Hj Hle. destruct (le_lt_dec j k) as [|Hgt]; [assumption|].
        exfalso. assert (mu < nth j a 0) by (apply Hhigh; lia).
        rewrite Hnth in H by lia. lra.
Qed.

Lemma toy_param_check : param_check Toy.inside = true.
Proof.
  unfold param_check, Rgtb, Rltb, Toy.inside, min_H0, max_H0, min_Om0, max_Om0.
  simpl. decide_reals. reflexivity.
Qed.

Lemma toy_increasing : increasing (mu_bins Toy.sim).
Proof.
  intros i j [Hij Hj]. simpl in Hj.
  destruct i as [|[|[|i]]], j as [|[|[|j]]]; simpl; try lia; lra.
Qed.

Lemma toy12_increasing : increasing (mu_bins Toy.sim12).
Proof.
  intros i j [Hij Hj]. simpl in Hj.
  destruct i as [|[|[|i]]], j as [|[|[|j]]]; simpl; try lia; lra.
Qed.

(** On the edges [43, 44, 45] the distance modulus 44.1 of the only
    redshift midpoint is inside the grid, and its row marks bin 1, whose
    lower edge 44 is the nearest one at or below it. *)
Lemma lnhyperlikelihood_indicator_witness :
  nth 0 (mu_bins Toy.sim12) 0
    <= Toy.distmod_44 (H0 Toy.inside) (Om0 Toy.inside) (nth 0 (z_mids Toy.sim12) 0) /\
  exists matrix,
    mu_binner Toy.sim12
      (map (Toy.distmod_44 (H0 Toy.inside) (Om0 Toy.inside)) (z_mids Toy.sim12))
      = Return (repeat matrix 1) /\
    length matrix = 1%nat /\
    one_hot 2 1 (nth 0 matrix []).
Proof.
  assert (Hguard : nth 0 (mu_bins Toy.sim12) 0
                   <= Toy.distmod_44 (H0 Toy.inside) (Om0 Toy.inside)
                        (nth 0 (z_mids Toy.sim12) 0))
    by (unfold Toy.distmod_44; simpl; lra).
  split; [exact Hguard|].
  destruct (lnhyperlikelihood_indicator Toy.sim12 Toy.distmod_44
              (Build_Globals 0 0 0 0 0 0) Toy.inside)
    as [matrix [Hrun [_ [Hlen Hrows]]]].
  - simpl. lia.
  - reflexivity.
  - exact toy12_increasing.
  - exact toy_param_check.
  - exists matrix. split; [exact Hrun|]. split; [exact Hlen|].
    destruct (Hrows 0%nat) as [k [Hhot [_ Hmax]]].
    + simpl. lia.
    + exact Hguard.
    + assert (Hk : (k < 2)%nat) by (destruct Hhot as [_ [Hk _]]; exact Hk).
      assert (H1 : (1 <= k)%nat).
      { apply Hmax; [simpl; lia|]. unfold Toy.distmod_44. simpl. lra. }
      replace k with 1%nat in Hhot by lia. exact Hhot.
Defined.

(** C5 fails below the grid: with the distance modulus 44.1 and edges
    [45, 46, 47], the row marks the last bin, whose lower edge 46 is above
    44.1. *)
Lemma indicator_wraps_below_grid :
  param_check Toy.inside = true /\
  mu_binner Toy.sim
    (map (Toy.distmod_44 (H0 Toy.inside) (Om0 Toy.inside)) (z_mids Toy.sim))
  = Return [[[0; 0 + 1]]] /\
  ~ nth 1 (mu_bins Toy.sim) 0
    <= Toy.distmod_44 (H0 Toy.inside) (Om0 Toy.inside) (nth 0 (z_mids Toy.sim) 0).
Proof.
  split; [exact toy_param_check|]. split.
  - rewrite mu_binner_marked by (simpl; lia || reflexivity).
    unfold z_mids, mids, Toy.distmod_44. simpl.
    assert (Hzero : bisect [45; 46] (441 / 10) = 0%nat).
    { unfold bisect. apply bisect_loop_all_above. intros i Hi. simpl in Hi.
      destruct i as [|[|i]]; simpl; try lia; lra. }
    rewrite Hzero. reflexivity.
  - unfold Toy.distmod_44. simpl. lra.
Qed.

(** ** Gelman-Rubin statistic *)

Import GRSpec.

Lemma xsum_map_Fin (l : list R) : xsum (map Fin l) = Fin (np_sum l).
Proof.
  induction l as [|x l IH]; [reflexivity|].
  change (xsum (map Fin (x :: l))) with (xadd (Fin x) (xsum (map Fin l))).
  now rewrite IH.
Qed.

Lemma xdiv_Fin (x y : R) : y <> 0 -> xdiv (Fin x) (Fin y) = Fin (x / y).
Proof.
  intros Hy. unfold xdiv. destruct (Req_dec_T y 0); [contradiction|reflexivity].
Qed.

Lemma scale_inf_not_Fin (pos : bool) (x r : R) : scale_inf pos x <> Fin r.
Proof.
  unfold scale_inf.
  destruct (Rlt_dec 0 x); [destruct pos; discriminate|].
  destruct (Rlt_dec x 0); [destruct pos; discriminate|discriminate].
Qed.

Lemma xdiv_zero_not_Fin (a : xreal) (r : R) : xdiv a (Fin 0) <> Fin r.
Proof.
  destruct a as [x| | |]; simpl.
  - destruct (Req_dec_T 0 0); [apply scale_inf_not_Fin|congruence].
  - destruct (Rlt_dec 0 0); discriminate.
  - destruct (Rlt_dec 0 0); discriminate.
  - discriminate.
Qed.

Lemma xdiv_Fin_inv (a : xreal) (y r : R) :
  xdiv a (Fin y) = Fin r -> y <> 0 /\ exists x, a = Fin x.
Proof.
  intros H. split.
  - intros ->. now apply xdiv_zero_not_Fin in H.
  - destruct a as [x| | |]; simpl in H.
    + now exists x.
    + destruct (Rlt_dec y 0); discriminate.
    + destruct (Rlt_dec y 0); discriminate.
    + discriminate.
Qed.

Lemma xadd_Fin_inv (a b : xreal) (r : R) :
  xadd a b = Fin r -> (exists x, a = Fin x) /\ (exists y, b = Fin y).
Proof.
  destruct a, b; simpl; intros H; try discriminate. split; eexists; reflexivity.
Qed.

Lemma xsum_Fin_inv (l : list xreal) (r : R) :
  xsum l = Fin r -> Forall (fun v => exists x, v = Fin x) l.
Proof.
  revert r. induction l as [|v l IH]; intros r H; [constructor|].
  simpl in H. apply xadd_Fin_inv in H. destruct H as [Hv [s Hs]].
  constructor; [exact Hv|]. apply (IH s). exact Hs.
Qed.

Lemma row_mean_Fin (row : list R) :
  row <> [] -> row_mean row = Fin (sample_mean row).
Proof.
  intros Hne. unfold row_mean, xmean, sample_mean.
  rewrite xsum_map_Fin, length_map. apply xdiv_Fin.
  apply not_0_INR. destruct row; [contradiction|discriminate].
Qed.

Lemma row_var_Fin (row : list R) :
  (2 <= length row)%nat -> row_var row = Fin (sample_variance row).
Proof.
  intros Hlen. unfold row_var, sample_variance.
  rewrite row_mean_Fin by (destruct row; [simpl in Hlen; lia|discriminate]).
  rewrite map_map.
  rewrite (map_ext _ (fun a => Fin ((a - sample_mean row) * (a - sample_mean row))))
    by reflexivity.
  rewrite <- (map_map (fun a => (a - sample_mean row) * (a - sample_mean row)) Fin).
  rewrite xsum_map_Fin. apply xdiv_Fin. apply not_0_INR. lia.
Qed.

Lemma row_var_Fin_inv (row : list R) (v : R) :
  row_var row = Fin v -> (2 <= length row)%nat.
Proof.
  intros H. unfold row_var in H. apply xdiv_Fin_inv in H. destruct H as [Hne _].
  destruct (le_lt_dec 2 (length row)) as [|Hlt]; [assumption|].
  exfalso. apply Hne. replace (length row - 1)%nat with 0%nat by lia. reflexivity.
Qed.

Lemma map_Forall_eq {A B : Type} (f h : A -> B) {P : A -> Prop} {l : list A} :
  Forall P l -> (forall x, P x -> f x = h x) -> map f l = map h l.
Proof.
  intros HP Hfh. induction HP as [|x l Hx _ IH]; simpl; [reflexivity|].
  now rewrite IH, (Hfh x Hx).
Qed.

Lemma np_sum_nonneg (l : list R) : Forall (fun x => 0 <= x) l -> 0 <= np_sum l.
Proof.
  induction 1 as [|x l Hx _ IH]; simpl; lra.
Qed.

Lemma np_sum_squares_nonneg {A : Type} (f : A -> R) (l : list A) :
  0 <= np_sum (map (fun x => f x * f x) l).
Proof.
  apply np_sum_nonneg. apply Forall_forall. intros y Hy.
  apply in_map_iff in Hy. destruct Hy as [x [<- _]]. nra.
Qed.

Lemma n_columns_ge (chain : list (list R)) :
  chain <> [] -> Forall (fun row => (2 <= length row)%nat) chain ->
  (2 <= n_columns chain)%nat.
Proof.
  intros Hne Hrows. destruct chain as [|row chain]; [contradiction|].
  now inversion Hrows.
Qed.

Lemma xsum_squared_deviations (c : R) (l : list R) :
  xsum (map (fun x => xmul (xsub (Fin c) x) (xsub (Fin c) x)) (map Fin l))
  = Fin (np_sum (map (fun xb => (c - xb) * (c - xb)) l)).
Proof.
  induction l as [|x l IH]; [reflexivity|].
  cbn [map]. unfold xsum in *. cbn [fold_right]. rewrite IH. reflexivity.
Qed.

(** With at least two chains of at least two samples each, every
    intermediate value is finite up to the last division, and the code
    computes the quantities of the specification. *)
Lemma gr_stat_finite (chain : list (list R)) :
  (2 <= length chain)%nat ->
  Forall (fun row => (2 <= length row)%nat) chain ->
  single_parameter_gr_stat chain
  = Return (xsqrt (xdiv (Fin (pooled_variance chain))
                        (Fin (within_chain_variance chain)))).
Proof.
  intros Hm Hrows.
  assert (Hne : chain <> []) by (destruct chain; [simpl in Hm; lia|discriminate]).
  pose proof (n_columns_ge chain Hne Hrows) as Hn.
  assert (Hm0 : INR (length chain) <> 0) by (apply not_0_INR; lia).
  assert (Hm1 : INR (length chain) - 1 <> 0).
  { apply le_INR in Hm. simpl in Hm. lra. }
  assert (Hn0 : INR (n_columns chain) <> 0) by (apply not_0_INR; lia).
  unfold single_parameter_gr_stat.
  rewrite (map_Forall_eq row_var (fun row => Fin (sample_variance row)) Hrows)
    by (intros row Hrow; now apply row_var_Fin).
  rewrite (map_Forall_eq row_mean (fun row => Fin (sample_mean row)) Hrows)
    by (intros row Hrow; apply row_mean_Fin; destruct row;
        [simpl in Hrow; lia|discriminate]).
  rewrite <- (map_map sample_variance Fin), <- (map_map sample_mean Fin).
  unfold xmean. rewrite !xsum_map_Fin, !length_map, !xdiv_Fin by assumption.
  unfold py_div.
  destruct (Req_dec_T (INR (length chain) - 1) 0); [contradiction|].
  destruct (Req_dec_T (INR (n_columns chain)) 0); [contradiction|].
  cbn [Py.bind].
  fold (grand_mean chain). rewrite xsum_squared_deviations.
  reflexivity.
Qed.

Lemma pooled_variance_nonneg (chain : list (list R)) :
  (2 <= length chain)%nat -> (1 <= n_columns chain)%nat ->
  0 <= within_chain_variance chain -> 0 <= pooled_variance chain.
Proof.
  intros Hm Hn HW. unfold pooled_variance, between_chain_variance.
  apply le_INR in Hm. apply le_INR in Hn. simpl in Hm, Hn.
  set (n := INR (n_columns chain)) in *. set (m := INR (length chain)) in *.
  pose proof (np_sum_squares_nonneg (fun xb => grand_mean chain - xb)
                (map sample_mean chain)) as Hsq.
  set (q := np_sum _) in *.
  assert (0 <= (n - 1) / n) by (apply Rle_mult_inv_pos; lra).
  assert (0 <= 1 / n) by (apply Rle_mult_inv_pos; lra).
  assert (0 <= n / (m - 1)) by (apply Rle_mult_inv_pos; lra).
  assert (0 <= n / (m - 1) * q) by (apply Rmult_le_pos; assumption).
  assert (0 <= (n - 1) / n * within_chain_variance chain)
    by (apply Rmult_le_pos; assumption).
  assert (0 <= 1 / n * (n / (m - 1) * q)) by (apply Rmult_le_pos; assumption).
  lra.
Qed.

Lemma np_sum_map_repeat {A : Type} (f : A -> R) (c : A) (m : nat) :
  np_sum (map f (repeat c m)) = INR m * f c.
Proof.
  induction m as [|m IH]; [simpl; lra|].
  rewrite S_INR. cbn [repeat map np_sum fold_right].
  unfold np_sum in IH. rewrite IH. lra.
Qed.

Lemma within_identical (c : list R) (m : nat) :
  (1 <= m)%nat -> within_chain_variance (repeat c m) = sample_variance c.
Proof.
  intros Hm. unfold within_chain_variance.
  rewrite np_sum_map_repeat, repeat_length.
  assert (INR m <> 0) by (apply not_0_INR; lia). now field.
Qed.

Lemma grand_mean_identical (c : list R) (m : nat) :
  (1 <= m)%nat -> grand_mean (repeat c m) = sample_mean c.
Proof.
  intros Hm. unfold grand_mean.
  rewrite np_sum_map_repeat, repeat_length.
  assert (INR m <> 0) by (apply not_0_INR; lia). now field.
Qed.

Lemma between_identical (c : list R) (m : nat) :
  (1 <= m)%nat -> between_chain_variance (repeat c m) = 0.
Proof.
  intros Hm. unfold between_chain_variance.
  rewrite grand_mean_identical by assumption.
  rewrite map_map, np_sum_map_repeat. ring.
Qed.

Lemma n_columns_repeat {A : Type} (c : list A) (m : nat) :
  (1 <= m)%nat -> n_columns (repeat c m) = length c.
Proof.
  destruct m; [lia|reflexivity].
Qed.

Lemma Forall_repeat {A : Type} (P : A -> Prop) (c : A) (m : nat) :
  P c -> Forall P (repeat c m).
Proof.
  intros Hc. apply Forall_forall. intros x Hx.
  apply repeat_spec in Hx. now subst.
Qed.

Lemma ratio_below_one (n : nat) :
  (2 <= n)%nat -> 0 <= (INR n - 1) / INR n < 1.
Proof.
  intros Hn. apply le_INR in Hn. simpl in Hn.
  split.
  - apply Rle_mult_inv_pos; lra.
  - apply Rmult_lt_reg_r with (INR n); [lra|]. field_simplify; lra.
Qed.

(** The value returned for identical chains. *)
Lemma gr_identical_value (c : list R) (m : nat) :
  (2 <= m)%nat -> (2 <= length c)%nat -> 0 < sample_variance c ->
  single_parameter_gr_stat (repeat c m)
  = Return (Fin (sqrt ((INR (length c) - 1) / INR (length c)))).
Proof.
  intros Hm Hn HW.
  rewrite gr_stat_finite
    by (rewrite ?repeat_length; auto using Forall_repeat).
  unfold pooled_variance.
  rewrite between_identical, within_identical, n_columns_repeat by lia.
  rewrite xdiv_Fin by lra.
  pose proof (ratio_below_one _ Hn) as [Hge _].
  assert (Hq : ((INR (length c) - 1) / INR (length c) * sample_variance c
                + 1 / INR (length c) * 0) / sample_variance c
               = (INR (length c) - 1) / INR (length c)).
  { assert (INR (length c) <> 0) by (apply not_0_INR; lia). field. split; lra. }
  rewrite Hq. unfold xsqrt.
  destruct (Rlt_dec ((INR (length c) - 1) / INR (length c)) 0); [lra|reflexivity].
Qed.

(** C6: [m >= 2] identical chains of length [n >= 2] with positive
    within-chain variance have between-chain variance 0, and the statistic is
    [sqrt((n-1)/n)], which is below 1. *)
Theorem gr_identical_chains (c : list R) (m : nat)
    (Hm : (2 <= m)%nat) (Hn : (2 <= length c)%nat)
    (HW : 0 < within_chain_variance (repeat c m)) :
  between_chain_variance (repeat c m) = 0 /\
  single_parameter_gr_stat (repeat c m)
  = Return (Fin (sqrt ((INR (length c) - 1) / INR (length c)))) /\
  sqrt ((INR (length c) - 1) / INR (length c)) < 1.
Proof.
  rewrite within_identical in HW by lia.
  split; [apply between_identical; lia|].
  split; [now apply gr_identical_value|].
  pose proof (ratio_below_one _ Hn) as [Hge Hlt].
  rewrite <- sqrt_1 at 2. apply sqrt_lt_1; lra.
Qed.

Lemma toy_sample_variance : sample_variance Toy.two_samples = 1 / 2.
Proof.
  unfold sample_variance, sample_mean, Toy.two_samples. simpl. field.
Qed.

Lemma gr_identical_chains_witness :
  single_parameter_gr_stat (repeat Toy.two_samples 2)
  = Return (Fin (sqrt ((INR 2 - 1) / INR 2))).
Proof.
  apply (gr_identical_chains Toy.two_samples 2).
  - lia.
  - simpl. lia.
  - rewrite within_identical by lia. rewrite toy_sample_variance. lra.
Defined.

(** The statistic returned for every parameter of an ensemble of identical
    walkers, through [multi_parameter_gr_stat]: [n] is the number of
    iterations kept after the first half is dropped. *)
Lemma multi_gr_identical_walkers (walker : list (list R)) (m : nat) :
  let n_burn_ins := (length walker / 2)%nat in
  let n := (length walker - n_burn_ins)%nat in
  (2 <= m)%nat -> (2 <= n)%nat ->
  (forall i, (i < n_columns walker)%nat ->
     0 < sample_variance (map (fun it => nth i it 0) (skipn n_burn_ins walker))) ->
  multi_parameter_gr_stat (repeat walker m)
  = Return (map (fun _ => Fin (sqrt ((INR n - 1) / INR n)))
                (seq 0 (n_columns walker))).
Proof.
  intros n_burn_ins n Hm Hn Hvar. unfold multi_parameter_gr_stat.
  rewrite n_columns_repeat by lia.
  replace (hd [] (repeat walker m)) with walker by (destruct m; [lia|reflexivity]).
  apply for_each_total. intros i Hi. apply in_seq in Hi.
  unfold kept_chains. rewrite map_repeat. fold n_burn_ins.
  assert (Hlen : length (map (fun it => nth i it 0) (skipn n_burn_ins walker)) = n)
    by (rewrite length_map, length_skipn; reflexivity).
  rewrite gr_identical_value; rewrite ?Hlen; auto.
  apply Hvar. simpl in Hi. lia.
Qed.

(** C10, as the code has it: for at least two chains whose mean within-chain
    variance [W] is a number, the statistic is a finite nonnegative real when
    [W > 0], and is infinite or NaN when [W = 0]. *)
Theorem gr_stat_well_defined (chain : list (list R)) (w : R)
    (Hm : (2 <= length chain)%nat)
    (HW : xmean (map row_var chain) = Fin w) :
  w = within_chain_variance chain /\
  (0 < w ->
   exists r, single_parameter_gr_stat chain = Return (Fin r) /\ 0 <= r) /\
  (w = 0 ->
   exists v, single_parameter_gr_stat chain = Return v /\ forall r, v <> Fin r).
Proof.
  assert (Hrows : Forall (fun row => (2 <= length row)%nat) chain).
  { unfold xmean in HW. apply xdiv_Fin_inv in HW. destruct HW as [_ [s Hs]].
    apply xsum_Fin_inv in Hs. rewrite Forall_map in Hs.
    eapply Forall_impl; [|exact Hs]. intros row [v Hv].
    now apply row_var_Fin_inv in Hv. }
  assert (Hne : chain <> []) by (destruct chain; [simpl in Hm; lia|discriminate]).
  pose proof (n_columns_ge chain Hne Hrows) as Hn.
  assert (Ew : w = within_chain_variance chain).
  { rewrite (map_Forall_eq row_var (fun row => Fin (sample_variance row)) Hrows) in HW
      by (intros row Hrow; now apply row_var_Fin).
    rewrite <- (map_map sample_variance Fin) in HW.
    unfold xmean in HW. rewrite xsum_map_Fin, !length_map in HW.
    rewrite xdiv_Fin in HW by (apply not_0_INR; lia).
    unfold within_chain_variance. congruence. }
  split; [exact Ew|].
  rewrite (gr_stat_finite chain Hm Hrows). rewrite <- Ew.
  split.
  - intros Hpos.
    assert (Hp : 0 <= pooled_variance chain)
      by (apply pooled_variance_nonneg; try lia; rewrite <- Ew; lra).
    rewrite xdiv_Fin by lra. unfold xsqrt.
    assert (0 <= pooled_variance chain / w) by (apply Rle_mult_inv_pos; lra).
    destruct (Rlt_dec (pooled_variance chain / w) 0); [lra|].
    eexists. split; [reflexivity|]. apply sqrt_pos.
  - intros ->.
    assert (Hp : 0 <= pooled_variance chain)
      by (apply pooled_variance_nonneg; try lia; rewrite <- Ew; lra).
    unfold xdiv. destruct (Req_dec_T 0 0); [|congruence].
    unfold scale_inf.
    destruct (Rlt_dec 0 (pooled_variance chain)).
    + exists PInf. split; [reflexivity|discriminate].
    + destruct (Rlt_dec (pooled_variance chain) 0); [lra|].
      exists NaN. split; [reflexivity|discriminate].
Qed.

Lemma toy_within_two_chains :
  xmean (map row_var (repeat Toy.two_samples 2)) = Fin (1 / 2).
Proof.
  unfold xmean. cbn [repeat map length].
  rewrite row_var_Fin by (simpl; lia). rewrite toy_sample_variance.
  cbn [xsum fold_right xadd]. rewrite xdiv_Fin by (simpl; lra).
  f_equal. simpl. field.
Qed.

Lemma toy_within_one_chain :
  xmean (map row_var [Toy.two_samples]) = Fin (1 / 2).
Proof.
  unfold xmean. cbn [map length].
  rewrite row_var_Fin by (simpl; lia). rewrite toy_sample_variance.
  cbn [xsum fold_right xadd]. rewrite xdiv_Fin by (simpl; lra).
  f_equal. simpl. field.
Qed.

Lemma gr_stat_well_defined_witness :
  exists r,
    single_parameter_gr_stat (repeat Toy.two_samples 2) = Return (Fin r) /\ 0 <= r.
Proof.
  destruct (gr_stat_well_defined (repeat Toy.two_samples 2) (1 / 2))
    as [_ [Hpos _]].
  - simpl. lia.
  - exact toy_within_two_chains.
  - apply Hpos. lra.
Defined.

(** C10 fails for a single chain: its within-chain variance is 1/2, and the
    factor [n / (m - 1.)] divides by zero. *)
Lemma gr_single_chain_raises :
  xmean (map row_var [Toy.two_samples]) = Fin (1 / 2) /\
  0 < 1 / 2 /\
  single_parameter_gr_stat [Toy.two_samples] = Raise ZeroDivisionError.
Proof.
  split; [exact toy_within_one_chain|]. split; [lra|].
  unfold single_parameter_gr_stat, py_div. cbn [length INR].
  destruct (Req_dec_T (1 - 1) 0) as [_|Hne]; [reflexivity|lra].
Qed.

(** ** MCMC driver *)

Lemma xgt_false_iff (a : xreal) (t : R) :
  xgt a (Fin t) = false <-> xle a (Fin t) = true \/ a = NaN.
Proof.
  destruct a as [x| | |]; simpl.
  - destruct (Rlt_dec t x), (Rle_dec x t); try lra;
      split; intros H; auto; try discriminate;
      destruct H; discriminate.
  - split; [discriminate|]. intros [H|H]; discriminate.
  - split; auto.
  - split; auto.
Qed.

Section Driver.

Variable sampler : Type.
Variable sampler_reset : sampler -> sampler.
Variable sampler_run_mcmc : sampler -> tensor 2 -> nat -> sampler.
Variable sampler_chain : sampler -> tensor 3.
Variable sampler_lnprobability : sampler -> tensor 2.
Variable sampler_acceptance_fraction : sampler -> tensor 1.
Variables ninit nsteps : nat.

Local Abbreviation run_sample :=
  (sample sampler_reset sampler_run_mcmc sampler_chain sampler_lnprobability
          sampler_acceptance_fraction).
Local Abbreviation epoch :=
  (burn_in_epoch sampler_reset sampler_run_mcmc sampler_chain
                 sampler_lnprobability sampler_acceptance_fraction ninit).
Local Abbreviation loop :=
  (burn_in_loop sampler_reset sampler_run_mcmc sampler_chain
                sampler_lnprobability sampler_acceptance_fraction ninit).

Lemma burn_in_loop_step (fuel : nat) (st : driver sampler) :
  burning_in st = true ->
  loop (S fuel) st
  = match epoch st with
    | Return st' => loop fuel st'
    | Raise e => Some (Raise e)
    end.
Proof.
  intros H. simpl. now rewrite H.
Qed.

Lemma burn_in_loop_exit (fuel : nat) (st : driver sampler) :
  burning_in st = false -> loop fuel st = Some (Return st).
Proof.
  intros H. destruct fuel; simpl; now rewrite H.
Qed.

(** What a completed epoch computed. *)
Lemma burn_in_epoch_inv (st st' : driver sampler) :
  epoch st = Return st' ->
  let segment := chain (snd (run_sample (the_sampler st) (vals st) ninit)) in
  exists gr top,
    concatenate_axis1 (full_chain st) segment = Return (full_chain st') /\
    multi_parameter_gr_stat (full_chain st') = Return gr /\
    np_max gr = Return top /\
    for_each last_item segment = Return (vals st') /\
    burning_in st' = xgt top (Fin gr_limit).
Proof.
  unfold burn_in_epoch.
  destruct (run_sample (the_sampler st) (vals st) ninit) as [smp out].
  cbn [snd].
  destruct (concatenate_axis1 (full_chain st) (chain out)) as [fc|e];
    cbn [Py.bind]; [|discriminate].
  unfold gr_test.
  destruct (multi_parameter_gr_stat fc) as [gr|e] eqn:Hgr;
    cbn [Py.bind]; [|discriminate].
  destruct (np_max gr) as [top|e] eqn:Htop; cbn [Py.bind]; [|discriminate].
  destruct (for_each last_item (chain out)) as [v|e];
    cbn [Py.bind]; [|discriminate].
  intros H. injection H as <-. cbn.
  exists gr, top. repeat split; assumption || reflexivity.
Qed.

(** C7, as the code has it: an epoch that completes appends the sampled
    segment to the cumulative chain and computes the largest R-hat [top]
    over its second half.  The loop goes on to another epoch, started from
    every walker's last sample, exactly when [top] exceeds the threshold;
    it leaves burn-in exactly when [top] does not exceed it, that is when
    [top <= threshold] or [top] is NaN. *)
Theorem burn_in_decision (st : driver sampler) :
  match epoch st with
  | Return st' =>
      let segment := chain (snd (run_sample (the_sampler st) (vals st) ninit)) in
      exists gr top,
        concatenate_axis1 (full_chain st) segment = Return (full_chain st') /\
        multi_parameter_gr_stat (full_chain st') = Return gr /\
        np_max gr = Return top /\
        for_each last_item segment = Return (vals st') /\
        (burning_in st' = true <-> xgt top (Fin gr_limit) = true) /\
        (burning_in st' = false <-> xle top (Fin gr_limit) = true \/ top = NaN) /\
        (burning_in st = true -> forall fuel,
           loop (S (S fuel)) st
           = if burning_in st'
             then match epoch st' with
                  | Return st'' => loop fuel st''
                  | Raise e => Some (Raise e)
                  end
             else Some (Return st'))
  | Raise e =>
      burning_in st = true -> forall fuel, loop (S fuel) st = Some (Raise e)
  end.
Proof.
  destruct (epoch st) as [st'|e] eqn:Hepoch.
  - destruct (burn_in_epoch_inv st st' Hepoch) as [gr [top [Hc [Hgr [Htop [Hv Hb]]]]]].
    exists gr, top. repeat split; try assumption.
    + now rewrite Hb.
    + now rewrite Hb.
    + rewrite Hb. apply xgt_false_iff.
    + rewrite Hb. apply xgt_false_iff.
    + intros Hst fuel. rewrite burn_in_loop_step, Hepoch by assumption.
      destruct (burning_in st') eqn:Hst'.
      * now apply burn_in_loop_step.
      * now apply burn_in_loop_exit.
  - intros Hb fuel. rewrite burn_in_loop_step by assumption. now rewrite Hepoch.
Qed.

(** After burn-in the driver goes to the production run. *)
Lemma run_MCMC_production (sim : SimInfo) (distmod norm_logpdf : R -> R -> R -> R)
    (g : Globals) (EnsembleSampler : nat -> nat -> (Hyper -> M R) -> nat -> sampler)
    (nthreads nwalkers fuel : nat) (ivals : tensor 2) (st st' : driver sampler) :
  run_MCMC_init sim distmod norm_logpdf g EnsembleSampler nthreads nwalkers ivals
    = Return st ->
  loop fuel st = Some (Return st') ->
  run_MCMC sim distmod norm_logpdf g EnsembleSampler sampler_reset sampler_run_mcmc
           sampler_chain sampler_lnprobability sampler_acceptance_fraction
           nthreads nwalkers nsteps ninit fuel ivals
  = Some (production sampler_reset sampler_run_mcmc sampler_chain
                     sampler_lnprobability sampler_acceptance_fraction nsteps st').
Proof.
  intros Hinit Hloop. unfold run_MCMC. now rewrite Hinit, Hloop.
Qed.

End Driver.

(** Two identical chains of two equal samples: [W = 0] and [B = 0], and the
    statistic is NaN. *)
Lemma gr_constant_chains (v : R) :
  single_parameter_gr_stat [[v; v]; [v; v]] = Return NaN.
Proof.
  change [[v; v]; [v; v]] with (repeat [v; v] 2).
  rewrite gr_stat_finite
    by (rewrite ?repeat_length; auto using Forall_repeat).
  unfold pooled_variance.
  rewrite between_identical, within_identical, n_columns_repeat by lia.
  assert (Hvar : sample_variance [v; v] = 0).
  { unfold sample_variance, sample_mean. simpl. field. }
  rewrite Hvar. cbn [length INR].
  replace ((1 + 1 - 1) / (1 + 1) * 0 + 1 / (1 + 1) * 0) with 0 by field.
  unfold xdiv. destruct (Req_dec_T 0 0); [|congruence].
  unfold scale_inf. destruct (Rlt_dec 0 0); [lra|]. reflexivity.
Qed.

Lemma stuck_gr :
  multi_parameter_gr_stat (full_chain Toy.stuck_after) = Return [NaN; NaN].
Proof.
  unfold multi_parameter_gr_stat, Toy.stuck_after, Toy.stuck_at.
  cbn [full_chain n_columns hd length Nat.div Nat.divmod fst seq for_each
       kept_chains map skipn nth].
  rewrite !gr_constant_chains. reflexivity.
Qed.

(** C7 fails when the statistic is NaN: with walkers that never move, the
    first epoch ends burn-in although the largest R-hat is NaN, which is not
    at or below the threshold. *)
Lemma stuck_walkers_leave_burn_in :
  burn_in_epoch Toy.stuck_reset Toy.stuck_run_mcmc Toy.stuck_chain_of
                Toy.stuck_lnprobability Toy.stuck_acceptance 3 Toy.stuck_before
  = Return Toy.stuck_after /\
  multi_parameter_gr_stat (full_chain Toy.stuck_after) = Return [NaN; NaN] /\
  np_max [NaN; NaN] = Return NaN /\
  xle NaN (Fin gr_limit) = false /\
  burn_in_loop Toy.stuck_reset Toy.stuck_run_mcmc Toy.stuck_chain_of
               Toy.stuck_lnprobability Toy.stuck_acceptance 3 1 Toy.stuck_before
  = Some (Return Toy.stuck_after).
Proof.
  assert (Hepoch :
    burn_in_epoch Toy.stuck_reset Toy.stuck_run_mcmc Toy.stuck_chain_of
                  Toy.stuck_lnprobability Toy.stuck_acceptance 3 Toy.stuck_before
    = Return Toy.stuck_after).
  { unfold burn_in_epoch, sample, gr_test.
    change (concatenate_axis1 (full_chain Toy.stuck_before)
              (chain {| chain := Toy.stuck_chain_of
                                   (Toy.stuck_run_mcmc
                                      (Toy.stuck_reset (the_sampler Toy.stuck_before))
                                      (vals Toy.stuck_before) 3);
                        lnprobability := _; acceptance_fraction := _ |}))
      with (Return (A:=tensor 3) (full_chain Toy.stuck_after)).
    cbn [Py.bind]. rewrite stuck_gr. reflexivity. }
  split; [exact Hepoch|]. split; [exact stuck_gr|].
  split; [reflexivity|]. split; [reflexivity|].
  cbn [burn_in_loop]. cbn [Toy.stuck_before burning_in]. rewrite Hepoch.
  reflexivity.
Qed.

(** ** Running store computations *)

Lemma bind_run {A B : Type} {m : M A} (k : A -> M B) {s s' : store} {a : A} :
  m s = Return (a, s') -> Store.bind m k s = k a s'.
Proof.
  intros H. unfold Store.bind. now rewrite H.
Qed.

Lemma bind_inv {A B : Type} (m : M A) (k : A -> M B) (s s2 : store) (b : B) :
  Store.bind m k s = Return (b, s2) ->
  exists a s1, m s = Return (a, s1) /\ k a s1 = Return (b, s2).
Proof.
  unfold Store.bind. destruct (m s) as [[a s1]|e]; [|discriminate].
  intros H. now exists a, s1.
Qed.

Lemma lift_inv {A : Type} (r : result A) (s s' : store) (a : A) :
  lift r s = Return (a, s') -> r = Return a /\ s' = s.
Proof.
  unfold lift, Py.fmap, Py.bind. destruct r; [|discriminate].
  intros H. injection H as <- <-. auto.
Qed.

Lemma alloc_inv (a : ndarray) (s s' : store) (r : ref) :
  alloc a s = Return (r, s') -> r = length s /\ s' = s ++ [a].
Proof.
  unfold alloc. intros H. injection H as <- <-. auto.
Qed.

Lemma extends_refl (s : store) : extends s s.
Proof.
  intros r a H. exact H.
Qed.

Lemma extends_trans (s s' s'' : store) :
  extends s s' -> extends s' s'' -> extends s s''.
Proof.
  intros H H' r a Hr. apply H', H, Hr.
Qed.

Lemma extends_alloc (s : store) (a : ndarray) : extends s (s ++ [a]).
Proof.
  intros r b H. now apply nth_error_alloc_old.
Qed.

Lemma extends_update_new (s : store) (a b : ndarray) :
  extends s (update (s ++ [a]) (length s) b).
Proof.
  intros r c H. rewrite nth_error_update_other.
  - now apply nth_error_alloc_old.
  - assert (r < length s)%nat by (apply nth_error_Some; congruence). lia.
Qed.

Lemma loaded_extends (sim : SimInfo) (g : Globals) (s s' : store) :
  loaded sim g s -> extends s s' -> loaded sim g s'.
Proof.
  intros [Hc Hf] He. split; apply He; assumption.
Qed.

Lemma update_alloc (s : store) (a b : ndarray) :
  update (s ++ [a]) (length s) b = s ++ [b].
Proof.
  induction s as [|c s IH]; simpl; [reflexivity|]. now rewrite IH.
Qed.

(** What a call of the in-bounds branch that returns has done: it has
    allocated [delta], divided it by a nonzero normaliser, passed the
    assertion, and allocated the result. *)
Lemma normalised_log_inv (sim : SimInfo) (matrix : tensor 3) (s s' : store) (r : ref) :
  normalised_log sim matrix s = Return (r, s') ->
  exists norm,
    normaliser sim matrix = Return norm /\ norm <> 0 /\
    (exists total,
       asserted_sum sim (tmap (fun x => x / norm) 3 matrix) = Return total /\
       isclose total 1 = true) /\
    r = S (length s) /\
    s' = (s ++ [nd (d:=3) (tmap (fun x => x / norm) 3 matrix)])
           ++ [nd (d:=3) (safe_log_val epsilon 3 (tmap (fun x => x / norm) 3 matrix))].
Proof.
  unfold normalised_log.
  unfold Store.bind at 1. unfold alloc at 1.
  unfold Store.bind at 1. rewrite (read_as_nd 3 matrix) by apply nth_error_alloc_new.
  unfold Store.bind at 1. unfold lift at 1.
  destruct (normaliser sim matrix) as [norm|e] eqn:Hnorm; cbn [Py.fmap Py.bind];
    [|discriminate].
  unfold Store.bind at 1. unfold idiv at 1. unfold Store.bind at 1, read at 1.
  rewrite nth_error_alloc_new. unfold write at 1. rewrite nth_error_alloc_new.
  rewrite update_alloc.
  change (nd_map (fun x => x / norm) (nd (d:=3) matrix))
    with (nd (d:=3) (tmap (fun x => x / norm) 3 matrix)).
  set (d' := tmap (fun x => x / norm) 3 matrix).
  unfold Store.bind at 1. rewrite (read_as_nd 3 d') by apply nth_error_alloc_new.
  unfold Store.bind at 1. unfold lift at 1.
  destruct (asserted_sum sim d') as [total|e] eqn:Hsum; cbn [Py.fmap Py.bind];
    [|discriminate].
  unfold Store.bind at 1.
  destruct (Req_dec_T norm 0) as [Hz|Hnz]; [discriminate|].
  destruct (isclose total 1) eqn:Hclose; [|discriminate].
  unfold Store.ret at 1.
  rewrite (safe_log_run _ _ (nd (d:=3) d')) by apply nth_error_alloc_new.
  intros H. injection H as <- <-.
  exists norm. split; [reflexivity|]. split; [assumption|].
  split; [exists total; auto|].
  split.
  - rewrite length_app. simpl. lia.
  - unfold nd_map. cbn [projT1 projT2]. now rewrite <- safe_log_val_tmap.
Qed.

Lemma tmap_shape3 (f : R -> R) (T Z M : nat) (a : tensor 3) :
  has_shape3 T Z M a -> has_shape3 T Z M (tmap f 3 a).
Proof.
  intros [HT Hplanes]. split; [cbn; now rewrite length_map|].
  cbn. apply Forall_map. eapply Forall_impl; [|exact Hplanes].
  intros plane [HZ Hrows]. split; [now rewrite length_map|].
  apply Forall_map. eapply Forall_impl; [|exact Hrows].
  intros row HM. cbn. now rewrite length_map.
Qed.

Lemma safe_log_val_shape3 (threshold : R) (T Z M : nat) (a : tensor 3) :
  has_shape3 T Z M a -> has_shape3 T Z M (safe_log_val threshold 3 a).
Proof.
  rewrite safe_log_val_tmap. apply tmap_shape3.
Qed.

Lemma for_each_inv {A B : Type} (f : A -> result B) (l : list A) (out : list B) :
  for_each f l = Return out ->
  length out = length l /\
  forall y, In y out -> exists x, In x l /\ f x = Return y.
Proof.
  revert out. induction l as [|x l IH]; intros out H; simpl in H.
  - injection H as <-. split; [reflexivity|]. intros y [].
  - destruct (f x) as [y|e] eqn:Hx; [|discriminate]. cbn [Py.bind] in H.
    destruct (for_each f l) as [ys|e]; [|discriminate]. cbn [Py.bind] in H.
    injection H as <-. destruct (IH ys eq_refl) as [Hlen Hin].
    split; [simpl; now rewrite Hlen|].
    intros y' [<-|Hy'].
    + exists x. split; [now left|assumption].
    + destruct (Hin y' Hy') as [x' [Hx' Hfx']]. exists x'. split; [now right|assumption].
Qed.

Lemma length_zip_with {A B C : Type} (f : A -> B -> C) (l : list A) (w : list B) :
  length (zip_with f l w) = Nat.min (length l) (length w).
Proof.
  revert w. induction l as [|x l IH]; intros [|y w]; simpl; auto.
Qed.

Lemma length_difs (bins : list R) (n : nat) :
  length bins = S n -> length (difs bins) = n.
Proof.
  intros H. unfold difs. rewrite length_zip_with, (length_removelast bins n H).
  destruct bins; [discriminate|]. simpl in *. lia.
Qed.

Lemma length_mids (bins : list R) (n : nat) :
  length bins = S n -> length (mids bins) = n.
Proof.
  intros H. unfold mids. rewrite length_map, length_zip_with, (length_removelast bins n H).
  destruct bins; [discriminate|]. simpl in *. lia.
Qed.

(** The shape of what [mu_binner] returns, whenever it returns. *)
Lemma mu_binner_shape (sim : SimInfo) (mus : list R) (t : tensor 3) :
  mu_binner sim mus = Return t ->
  has_shape3 (n_types sim) (length mus) (n_mus sim) t.
Proof.
  unfold mu_binner. destruct (for_each (mu_row sim) mus) as [matrix|e] eqn:Hrows;
    cbn [Py.bind]; [|discriminate].
  intros H. injection H as <-. apply for_each_inv in Hrows. destruct Hrows as [Hlen Hin].
  split; [apply repeat_length|].
  apply Forall_forall. intros plane Hplane. apply repeat_spec in Hplane. subst plane.
  split; [assumption|].
  apply Forall_forall. intros row Hrow. destruct (Hin row Hrow) as [mu [_ Hmu]].
  unfold mu_row in Hmu.
  destruct (Py.index (n_mus sim) _) as [i|e]; cbn [Py.bind] in Hmu; [|discriminate].
  injection Hmu as <-. now rewrite length_add_at, repeat_length.
Qed.

(** ** Sums over nested lists and sums over indices *)

Lemma big_sum_ext (n : nat) (f h : nat -> R) :
  (forall i, (i < n)%nat -> f i = h i) -> big_sum n f = big_sum n h.
Proof.
  intros H. unfold big_sum. f_equal. apply map_ext_in.
  intros i Hi. apply in_seq in Hi. apply H. lia.
Qed.

Lemma np_sum_cons (x : R) (l : list R) : np_sum (x :: l) = x + np_sum l.
Proof.
  reflexivity.
Qed.

Lemma np_sum_scale {A : Type} (f : A -> R) (c : R) (l : list A) :
  np_sum (map (fun x => f x * c) l) = np_sum (map f l) * c.
Proof.
  induction l as [|x l IH]; [simpl; lra|].
  cbn [map]. rewrite !np_sum_cons, IH. lra.
Qed.

Lemma big_sum_scale (n : nat) (f : nat -> R) (c : R) :
  big_sum n (fun i => f i * c) = big_sum n f * c.
Proof.
  unfold big_sum. apply np_sum_scale.
Qed.

Lemma np_sum_map_nth {A : Type} (f : A -> R) (d : A) (l : list A) :
  np_sum (map f l) = big_sum (length l) (fun i => f (nth i l d)).
Proof.
  unfold big_sum. f_equal.
  induction l as [|x l IH]; [reflexivity|].
  cbn [length seq map nth]. f_equal.
  rewrite <- seq_shift, map_map. exact IH.
Qed.

Lemma zip_with_nth {A B C : Type} (f : A -> B -> C) (da : A) (db : B)
    (l : list A) (w : list B) :
  length l = length w ->
  zip_with f l w = map (fun i => f (nth i l da) (nth i w db)) (seq 0 (length l)).
Proof.
  revert w. induction l as [|x l IH]; intros [|y w] H; try discriminate;
    [reflexivity|].
  cbn [length seq map nth zip_with]. f_equal.
  rewrite <- seq_shift, map_map. apply IH. simpl in H. congruence.
Qed.

Lemma np_sum_zip_nth {A B : Type} (f : A -> B -> R) (da : A) (db : B)
    (l : list A) (w : list B) :
  length l = length w ->
  np_sum (zip_with f l w) = big_sum (length l) (fun i => f (nth i l da) (nth i w db)).
Proof.
  intros H. unfold big_sum. now rewrite (zip_with_nth f da db l w H).
Qed.

Lemma map_zip_with {A B C D : Type} (h : C -> D) (f : A -> B -> C)
    (l : list A) (w : list B) :
  map h (zip_with f l w) = zip_with (fun a b => h (f a b)) l w.
Proof.
  revert w. induction l as [|x l IH]; intros [|y w]; simpl; auto.
  now rewrite IH.
Qed.

Lemma zip_with_ext {A B C : Type} (f h : A -> B -> C) (l : list A) (w : list B) :
  (forall a b, f a b = h a b) -> zip_with f l w = zip_with h l w.
Proof.
  intros H. revert w. induction l as [|x l IH]; intros [|y w]; simpl; auto.
  now rewrite IH, H.
Qed.

(** Clamping the element-wise sum of two arrays is the [combined] array of
    the specification. *)
Lemma reg_vals_zip3 (obj nt : tensor 3) :
  reg_vals_val log_epsilon 3 (zip3 Rplus obj nt) = combined obj nt.
Proof.
  unfold reg_vals_val, combined, zip3. cbn [tmap].
  rewrite map_zip_with. apply zip_with_ext. intros plane plane'.
  rewrite map_zip_with. apply zip_with_ext. intros row row'.
  rewrite map_zip_with. apply zip_with_ext. intros c x.
  apply floor_at_Rmax.
Qed.

Lemma Forall_zip_with {A B C : Type} (P : A -> Prop) (Q : B -> Prop) (S : C -> Prop)
    (f : A -> B -> C) (l : list A) (w : list B) :
  Forall P l -> Forall Q w -> (forall a b, P a -> Q b -> S (f a b)) ->
  Forall S (zip_with f l w).
Proof.
  intros Hl Hw Hf. revert w Hw.
  induction Hl as [|x l Hx _ IH]; intros [|y w] Hw; cbn [zip_with]; try constructor.
  - inversion Hw; subst. now apply Hf.
  - inversion Hw; subst. now apply IH.
Qed.

Lemma zip3_shape (f : R -> R -> R) (T Z M : nat) (a b : tensor 3) :
  has_shape3 T Z M a -> has_shape3 T Z M b -> has_shape3 T Z M (zip3 f a b).
Proof.
  intros [Ha Hpa] [Hb Hpb]. unfold zip3. split.
  - rewrite length_zip_with. lia.
  - eapply Forall_zip_with; [exact Hpa|exact Hpb|].
    intros p q [Hp Hrows] [Hq Hrows']. split.
    + rewrite length_zip_with. lia.
    + eapply Forall_zip_with; [exact Hrows|exact Hrows'|].
      intros r r' Hr Hr'. cbv beta in *. rewrite length_zip_with. lia.
Qed.

Lemma shape3_plane (T Z M : nat) (a : tensor 3) (t : nat) :
  has_shape3 T Z M a -> (t < T)%nat ->
  length (nth t a []) = Z /\
  forall z, (z < Z)%nat -> length (nth z (nth t a []) []) = M.
Proof.
  intros [HT Hplanes] Ht.
  assert (Hin : In (nth t a []) a) by (apply nth_In; lia).
  rewrite Forall_forall in Hplanes. destruct (Hplanes _ Hin) as [HZ Hrows].
  split; [assumption|]. intros z Hz.
  rewrite Forall_forall in Hrows. apply Hrows. apply nth_In. lia.
Qed.

(** The nested sums of [lnposterior] are the grid integral of the
    specification. *)
Lemma in_log_object_grid_integral (sim : SimInfo) (a : tensor 3) :
  has_shape3 (n_types sim) (n_zs sim) (n_mus sim) a ->
  length (z_difs sim) = n_zs sim ->
  length (mu_difs sim) = n_mus sim ->
  in_log_object sim a = grid_integral sim a.
Proof.
  intros Hshape Hz Hmu. unfold in_log_object, grid_integral.
  fold (z_difs sim) (mu_difs sim).
  rewrite (np_sum_map_nth _ [] a). rewrite (proj1 Hshape).
  apply big_sum_ext. intros t Ht.
  destruct (shape3_plane _ _ _ a t Hshape Ht) as [HZ HM].
  rewrite (np_sum_zip_nth _ [] 0 (nth t a []) (z_difs sim)) by congruence.
  rewrite HZ. unfold Rdiv. rewrite <- big_sum_scale.
  apply big_sum_ext. intros z Hzlt.
  rewrite (np_sum_zip_nth _ 0 0 (nth z (nth t a []) []) (mu_difs sim))
    by (rewrite HM by assumption; congruence).
  rewrite HM by assumption. rewrite <- !big_sum_scale.
  apply big_sum_ext. intros k Hk. reflexivity.
Qed.

Lemma per_object_shape (f : R -> R -> R) (T Z M : nat) (a : tensor 4) (b : tensor 3) :
  Forall (has_shape3 T Z M) a -> has_shape3 T Z M b ->
  Forall (has_shape3 T Z M) (per_object f a b).
Proof.
  intros Ha Hb. unfold per_object. apply Forall_map.
  eapply Forall_impl; [|exact Ha]. intros obj Hobj. now apply zip3_shape.
Qed.

Lemma const_term_value_shape (sim : SimInfo) :
  well_shaped sim ->
  Forall (has_shape3 (n_types sim) (n_zs sim) (n_mus sim)) (const_term_value sim).
Proof.
  intros Hws. unfold const_term_value, reg_vals_val. cbn [tmap].
  apply Forall_map.
  eapply Forall_impl; [intros obj Hobj; apply tmap_shape3; exact Hobj|].
  destruct (ws_posteriors Hws) as [_ Hposts].
  apply per_object_shape; [|apply (ws_selection Hws)].
  apply per_object_shape; [exact Hposts|apply (ws_prior Hws)].
Qed.

(** [const_term] is the element-wise [max(catalog - prior - selection,
    log_epsilon)]. *)
Lemma const_term_value_spec (sim : SimInfo) :
  const_term_value sim
  = tmap (fun x => Rmax x log_epsilon) 4
      (per_object Rminus
         (per_object Rminus (interim_ln_posteriors sim) (interim_ln_prior_ sim))
         (ln_selection_function_ sim)).
Proof.
  unfold const_term_value, reg_vals_val. apply tmap_ext.
  intros x _. apply floor_at_Rmax.
Qed.

Lemma epsilon_pos : 0 < epsilon.
Proof.
  unfold epsilon. apply Rinv_0_lt_compat, pow_lt. lra.
Qed.

(** The flat array holds [ln(epsilon)] everywhere, in the shape of the
    interim prior. *)
Lemma flat_value_spec (sim : SimInfo) :
  flat_value sim = tmap (fun _ => ln epsilon) 3 (interim_ln_prior_ sim).
Proof.
  unfold flat_value. rewrite safe_log_val_tmap.
  cbn [tmap]. rewrite !map_map. apply map_ext. intros plane.
  rewrite !map_map. apply map_ext. intros row.
  rewrite !map_map. apply map_ext. intros x.
  unfold Py.max. destruct (Rlt_dec (1 * epsilon) epsilon); [lra|].
  f_equal. lra.
Qed.

Lemma flat_value_shape (sim : SimInfo) :
  well_shaped sim ->
  has_shape3 (n_types sim) (n_zs sim) (n_mus sim) (flat_value sim).
Proof.
  intros Hws. rewrite flat_value_spec. apply tmap_shape3, (ws_prior Hws).
Qed.

(** ** Hyperlikelihood and posterior in the store *)

Lemma lnhyperlikelihood_outside_run (sim : SimInfo) (distmod : R -> R -> R -> R)
    (g : Globals) (h : Hyper) (s : store) :
  param_check h = false ->
  lnhyperlikelihood sim distmod g h s = Return (flat_lnhyperlikelihood g, s).
Proof.
  intros H. unfold lnhyperlikelihood. now rewrite H.
Qed.

(** A call of [lnhyperlikelihood] that returns hands back a
    three-dimensional array of the shape of the grid and has changed no
    array that existed before. *)
Lemma lnhyperlikelihood_returns (sim : SimInfo) (distmod : R -> R -> R -> R)
    (g : Globals) (h : Hyper) (s s' : store) (r : ref) :
  well_shaped sim -> loaded sim g s ->
  lnhyperlikelihood sim distmod g h s = Return (r, s') ->
  exists nt,
    nth_error s' r = Some (nd (d:=3) nt) /\
    has_shape3 (n_types sim) (n_zs sim) (n_mus sim) nt /\
    extends s s'.
Proof.
  intros Hws [Hct Hflat] Hrun. destruct (param_check h) eqn:Hin.
  - unfold lnhyperlikelihood in Hrun. rewrite Hin in Hrun.
    apply bind_inv in Hrun. destruct Hrun as [matrix [s1 [Hlift Hnorm]]].
    apply lift_inv in Hlift. destruct Hlift as [Hbin ->].
    apply normalised_log_inv in Hnorm.
    destruct Hnorm as [norm [_ [_ [_ [-> ->]]]]].
    eexists. split; [|split].
    + replace (S (length s)) with (length (s ++ [nd (d:=3) (tmap (fun x => x / norm) 3 matrix)]))
        by (rewrite length_app; simpl; lia).
      apply nth_error_alloc_new.
    + apply safe_log_val_shape3, tmap_shape3.
      apply mu_binner_shape in Hbin.
      rewrite length_map in Hbin.
      unfold z_mids in Hbin. now rewrite (length_mids _ _ (ws_z_bins Hws)) in Hbin.
    + eapply extends_trans; apply extends_alloc.
  - rewrite lnhyperlikelihood_outside_run in Hrun by assumption.
    injection Hrun as <- <-. exists (flat_value sim).
    split; [assumption|]. split; [now apply flat_value_shape|apply extends_refl].
Qed.

(** [lnposterior] once [lnhyperlikelihood] has returned the array [nt]. *)
Lemma lnposterior_run (sim : SimInfo) (distmod : R -> R -> R -> R)
    (g : Globals) (h : Hyper) (s s1 : store) (r : ref) (nt : tensor 3) :
  lnhyperlikelihood sim distmod g h s = Return (r, s1) ->
  nth_error s1 r = Some (nd (d:=3) nt) ->
  loaded sim g s1 ->
  exists s2,
    lnposterior sim distmod g h s
    = Return (np_sum (map (fun obj =>
                ln (Rmax (in_log_object sim
                            (reg_vals_val log_epsilon 3 (zip3 Rplus obj nt)))
                         epsilon))
                (const_term_value sim)), s2) /\
    extends s1 s2.
Proof.
  intros Hhl Hnt [Hct Hflat]. unfold lnposterior.
  rewrite (bind_run _ Hhl).
  rewrite (bind_run _ (read_as_nd 3 nt s1 r Hnt)).
  rewrite (bind_run _ (read_as_nd 4 (const_term_value sim) s1 _ Hct)).
  set (tmp := nd (d:=4) (per_object Rplus (const_term_value sim) nt)).
  rewrite (bind_run (s':=s1 ++ [tmp]) (a:=length s1) _ eq_refl).
  rewrite (bind_run _ (reg_vals_run (s1 ++ [tmp]) (length s1) tmp log_epsilon
                         (nth_error_alloc_new s1 tmp))).
  rewrite update_alloc.
  set (e := reg_vals_val log_epsilon 4 (per_object Rplus (const_term_value sim) nt)).
  change (nd_map (floor_at log_epsilon) tmp) with (nd (d:=4) e).
  rewrite (bind_run _ (read_as_nd 4 e (s1 ++ [nd e]) (length s1)
                         (nth_error_alloc_new s1 (nd e)))).
  set (s' := s1 ++ [nd (d:=4) e]).
  set (in_log := nd (d:=1) (map (in_log_object sim) e)).
  rewrite (bind_run (s':=s' ++ [in_log]) (a:=length s') _ eq_refl).
  rewrite (bind_run _ (safe_log_run (s' ++ [in_log]) (length s') in_log epsilon
                         (nth_error_alloc_new s' in_log))).
  set (s'' := s' ++ [in_log]).
  set (v := tmap (fun x => ln (Py.max x epsilon)) 1 (map (in_log_object sim) e)).
  change (nd_map (fun x => ln (Py.max x epsilon)) in_log) with (nd (d:=1) v).
  rewrite (bind_run _ (read_as_nd 1 v (s'' ++ [nd v]) (length s'')
                         (nth_error_alloc_new s'' (nd v)))).
  unfold Store.ret. eexists. split.
  - f_equal. f_equal. unfold v, e, reg_vals_val, per_object. cbn [tmap].
    rewrite !map_map. f_equal. apply map_ext. intros obj.
    now rewrite py_max_Rmax.
  - unfold s'', s'. eapply extends_trans; [|apply extends_alloc].
    eapply extends_trans; apply extends_alloc.
Qed.

Lemma log_posterior_refines (sim : SimInfo) (nt : tensor 3) :
  well_shaped sim ->
  has_shape3 (n_types sim) (n_zs sim) (n_mus sim) nt ->
  np_sum (map (fun obj =>
            ln (Rmax (in_log_object sim
                        (reg_vals_val log_epsilon 3 (zip3 Rplus obj nt)))
                     epsilon))
            (const_term_value sim))
  = log_posterior_spec sim nt.
Proof.
  intros Hws Hnt. unfold log_posterior_spec. f_equal. apply map_ext_in.
  intros obj Hobj.
  pose proof (const_term_value_shape sim Hws) as Hshapes.
  rewrite Forall_forall in Hshapes. specialize (Hshapes obj Hobj).
  rewrite reg_vals_zip3, in_log_object_grid_integral; [reflexivity| | |].
  - apply zip3_shape; assumption.
  - apply length_difs, (ws_z_bins Hws).
  - apply length_difs, (ws_mu_bins Hws).
Qed.

(** C1: in a store where [const_term] holds the array computed at set-up,
    [lnposterior] returns, for the array [nt] that [lnhyperlikelihood]
    returns, the sum over the objects of
    [ln(max(grid integral of exp(max(const_term + nt, log_epsilon)), epsilon))];
    [const_term] holds the same array afterwards.  When [lnhyperlikelihood]
    raises, so does [lnposterior]. *)
Theorem lnposterior_grid_integral (sim : SimInfo) (distmod : R -> R -> R -> R)
    (g : Globals) (h : Hyper) (s : store)
    (Hws : well_shaped sim) (Hload : loaded sim g s) :
  match lnhyperlikelihood sim distmod g h s with
  | Return (r, s1) =>
      exists nt s2,
        nth_error s1 r = Some (nd (d:=3) nt) /\
        lnposterior sim distmod g h s = Return (log_posterior_spec sim nt, s2) /\
        nth_error s2 (const_term g) = nth_error s (const_term g) /\
        loaded sim g s2 /\ extends s s2
  | Raise e => lnposterior sim distmod g h s = Raise e
  end.
Proof.
  destruct (lnhyperlikelihood sim distmod g h s) as [[r s1]|e] eqn:Hhl.
  - destruct (lnhyperlikelihood_returns sim distmod g h s s1 r Hws Hload Hhl)
      as [nt [Hnt [Hshape Hext]]].
    pose proof (loaded_extends sim g s s1 Hload Hext) as Hload1.
    destruct (lnposterior_run sim distmod g h s s1 r nt Hhl Hnt Hload1)
      as [s2 [Hrun Hext2]].
    pose proof (loaded_extends sim g s1 s2 Hload1 Hext2) as Hload2.
    exists nt, s2. split; [exact Hnt|]. split; [|split; [|split]].
    + rewrite Hrun. now rewrite log_posterior_refines.
    + destruct Hload as [Hc _]. destruct Hload2 as [Hc2 _]. congruence.
    + exact Hload2.
    + eapply extends_trans; eassumption.
  - unfold lnposterior, Store.bind. now rewrite Hhl.
Qed.

(** The statements that create the module-level arrays: [const_term] is
    computed once, here. *)
Lemma notebook_setup_run (sim : SimInfo) :
  notebook_setup sim [] = Return (setup_globals, setup_store sim).
Proof.
  reflexivity.
Qed.

Lemma setup_loaded (sim : SimInfo) : loaded sim setup_globals (setup_store sim).
Proof.
  split; reflexivity.
Qed.

Lemma toy_well_shaped : well_shaped Toy.sim.
Proof.
  constructor; try reflexivity;
    repeat (split || constructor || reflexivity).
Qed.

Lemma param_check_false_iff (h : Hyper) :
  param_check h = false <->
  H0 h <= min_H0 \/ max_H0 <= H0 h \/ Om0 h <= min_Om0 \/ max_Om0 <= Om0 h.
Proof.
  unfold param_check, Rgtb, Rltb.
  destruct (Rlt_dec min_H0 (H0 h)), (Rlt_dec (H0 h) max_H0),
    (Rlt_dec min_Om0 (Om0 h)), (Rlt_dec (Om0 h) max_Om0); cbn;
    split; intros H; try discriminate; try reflexivity; lra.
Qed.

Lemma toy_outside : param_check Toy.outside = false.
Proof.
  apply param_check_false_iff. unfold Toy.outside, min_H0. simpl. lra.
Qed.

Lemma lnposterior_grid_integral_witness :
  exists s2,
    lnposterior Toy.sim Toy.distmod_44 setup_globals Toy.outside
                (setup_store Toy.sim)
    = Return (log_posterior_spec Toy.sim (flat_value Toy.sim), s2).
Proof.
  pose proof (lnposterior_grid_integral Toy.sim Toy.distmod_44 setup_globals
                Toy.outside (setup_store Toy.sim) toy_well_shaped
                (setup_loaded Toy.sim)) as H.
  rewrite lnhyperlikelihood_outside_run in H by exact toy_outside.
  destruct H as [nt [s2 [Hnt [Hrun _]]]].
  assert (E : Some (nd (d:=3) (flat_value Toy.sim)) = Some (nd (d:=3) nt))
    by exact Hnt.
  assert (E' : nd (d:=3) (flat_value Toy.sim) = nd (d:=3) nt) by congruence.
  apply nd_inj in E'. subst nt. exists s2. exact Hrun.
Defined.

(** C3: for hyperparameters with a coordinate at or beyond a bound,
    [lnhyperlikelihood] returns the module-level array
    [flat_lnhyperlikelihood] itself and touches nothing; the array holds
    [ln(epsilon)] in every cell, and any two such hyperparameter vectors get
    the same result. *)
Theorem lnhyperlikelihood_out_of_bounds (sim : SimInfo)
    (distmod : R -> R -> R -> R) (g : Globals) (h h' : Hyper) (s : store)
    (Hload : loaded sim g s)
    (Hout : H0 h <= min_H0 \/ max_H0 <= H0 h \/ Om0 h <= min_Om0 \/ max_Om0 <= Om0 h)
    (Hout' : H0 h' <= min_H0 \/ max_H0 <= H0 h' \/
             Om0 h' <= min_Om0 \/ max_Om0 <= Om0 h') :
  lnhyperlikelihood sim distmod g h s = Return (flat_lnhyperlikelihood g, s) /\
  nth_error s (flat_lnhyperlikelihood g)
    = Some (nd (d:=3) (tmap (fun _ => ln epsilon) 3 (interim_ln_prior_ sim))) /\
  lnhyperlikelihood sim distmod g h' s = lnhyperlikelihood sim distmod g h s.
Proof.
  apply param_check_false_iff in Hout, Hout'.
  rewrite !lnhyperlikelihood_outside_run by assumption.
  split; [reflexivity|]. split; [|reflexivity].
  destruct Hload as [_ Hflat]. now rewrite <- flat_value_spec.
Qed.

Lemma lnhyperlikelihood_out_of_bounds_witness :
  lnhyperlikelihood Toy.sim Toy.distmod_44 setup_globals Toy.outside'
                    (setup_store Toy.sim)
  = lnhyperlikelihood Toy.sim Toy.distmod_44 setup_globals Toy.outside
                      (setup_store Toy.sim).
Proof.
  apply (lnhyperlikelihood_out_of_bounds Toy.sim Toy.distmod_44 setup_globals
           Toy.outside Toy.outside' (setup_store Toy.sim)).
  - exact (setup_loaded Toy.sim).
  - left. unfold Toy.outside, min_H0. simpl. lra.
  - right. right. right. unfold Toy.outside', max_Om0. simpl. lra.
Defined.

(** ** Hyperposterior *)

Lemma lnprior_value (norm_logpdf : R -> R -> R -> R) (h : Hyper) :
  lnprior norm_logpdf h
  = Return (0 + norm_logpdf H0_mean H0_std (H0 h)
            + norm_logpdf Om0_mean Om0_std (Om0 h)).
Proof.
  reflexivity.
Qed.

(** C4: [lnhyperposterior] returns
    [max(lnprior + lnposterior, log_epsilon)], which is at least
    [log_epsilon]; it raises exactly when [lnposterior] does. *)
Theorem lnhyperposterior_floor (sim : SimInfo) (distmod norm_logpdf : R -> R -> R -> R)
    (g : Globals) (h : Hyper) (s : store) :
  exists p,
    lnprior norm_logpdf h = Return p /\
    match lnposterior sim distmod g h s with
    | Return (l, s') =>
        lnhyperposterior sim distmod norm_logpdf g h s
        = Return (Rmax (p + l) log_epsilon, s') /\
        log_epsilon <= Rmax (p + l) log_epsilon
    | Raise e => lnhyperposterior sim distmod norm_logpdf g h s = Raise e
    end.
Proof.
  eexists. split; [apply lnprior_value|].
  unfold lnhyperposterior. unfold Store.bind at 1. unfold lift.
  rewrite lnprior_value. cbn [Py.fmap Py.bind]. unfold Store.bind.
  destruct (lnposterior sim distmod g h s) as [[l s']|e]; [|reflexivity].
  unfold Store.ret. rewrite py_max_Rmax. split; [reflexivity|apply Rmax_r].
Qed.

(** ** The normaliser and the assertion of [lnhyperlikelihood] *)

Lemma broadcast_same {A B C : Type} (f : A -> B -> C) (l : list A) (w : list B) :
  length l = length w -> broadcast f l w = Return (zip_with f l w).
Proof.
  intros H. unfold broadcast. now rewrite H, Nat.eqb_refl.
Qed.

Lemma broadcast_mismatch {A B C : Type} (f : A -> B -> C) (l : list A) (w : list B) :
  length l <> length w -> (2 <= length l)%nat -> (2 <= length w)%nat ->
  broadcast f l w = Raise ValueError.
Proof.
  intros Hne Hl Hw. unfold broadcast.
  destruct (Nat.eqb_spec (length l) (length w)) as [|_]; [contradiction|].
  destruct l as [|x [|x' l]], w as [|y [|y' w]]; simpl in *; try lia; reflexivity.
Qed.

Lemma times_axis1_same (w : list R) (T Z M : nat) (d : tensor 3) :
  has_shape3 T Z M d -> length w = Z ->
  times_axis1 w d
  = Return (map (fun plane => zip_with (fun row c => map (fun x => x * c) row) plane w) d).
Proof.
  intros [_ Hplanes] Hw. unfold times_axis1. apply for_each_total.
  intros plane Hplane. rewrite Forall_forall in Hplanes.
  destruct (Hplanes plane Hplane) as [HZ _]. apply broadcast_same. congruence.
Qed.

Lemma times_axis1_shape (w : list R) (T Z M : nat) (d : tensor 3) :
  has_shape3 T Z M d -> length w = Z ->
  has_shape3 T Z M
    (map (fun plane => zip_with (fun row c => map (fun x => x * c) row) plane w) d).
Proof.
  intros [HT Hplanes] Hw. split; [now rewrite length_map|].
  apply Forall_map. eapply Forall_impl; [|exact Hplanes].
  intros plane [HZ Hrows]. split; [rewrite length_zip_with; lia|].
  eapply Forall_zip_with with (Q := fun _ => True);
    [exact Hrows|apply Forall_forall; auto|].
  intros row c Hrow _. cbv beta in *. now rewrite length_map.
Qed.

Lemma times_axis2_same (w : list R) (T Z M : nat) (d : tensor 3) :
  has_shape3 T Z M d -> length w = M ->
  times_axis2 w d = Return (map (map (fun row => zip_with Rmult row w)) d).
Proof.
  intros [_ Hplanes] Hw. unfold times_axis2. apply for_each_total.
  intros plane Hplane. rewrite Forall_forall in Hplanes.
  destruct (Hplanes plane Hplane) as [_ Hrows]. apply for_each_total.
  intros row Hrow. rewrite Forall_forall in Hrows. apply broadcast_same.
  rewrite (Hrows row Hrow). congruence.
Qed.

Lemma times_axis2_shape (w : list R) (T Z M : nat) (d : tensor 3) :
  has_shape3 T Z M d -> length w = M ->
  has_shape3 T Z M (map (map (fun row => zip_with Rmult row w)) d).
Proof.
  intros [HT Hplanes] Hw. split; [now rewrite length_map|].
  apply Forall_map. eapply Forall_impl; [|exact Hplanes].
  intros plane [HZ Hrows]. split; [now rewrite length_map|].
  apply Forall_map. eapply Forall_impl; [|exact Hrows].
  intros row Hrow. cbv beta in *. rewrite length_zip_with. lia.
Qed.

Lemma times_axis0_same (w : list R) (d : tensor 3) :
  length d = length w ->
  times_axis0 w d
  = Return (zip_with (fun plane c => map (map (fun x => x * c)) plane) d w).
Proof.
  intros H. unfold times_axis0. now apply broadcast_same.
Qed.

(** On a well-shaped array the normaliser of line 438 is computed. *)
Lemma normaliser_same (sim : SimInfo) (d : tensor 3) :
  has_shape3 (n_types sim) (n_zs sim) (n_mus sim) d ->
  length (z_difs sim) = n_zs sim ->
  length (mu_difs sim) = n_mus sim ->
  normaliser sim d
  = Return (np_sum3 (over_n_types sim
      (zip_with (fun plane c => map (map (fun x => x * c)) plane)
         (map (map (fun row => zip_with Rmult row (mu_difs sim)))
            (map (fun plane =>
                    zip_with (fun row c => map (fun x => x * c) row) plane (z_difs sim))
                 d))
         (repeat 1 (n_types sim))))).
Proof.
  intros Hd Hz Hmu. unfold normaliser.
  rewrite (times_axis1_same _ _ _ _ d Hd Hz). cbn [Py.bind].
  pose proof (times_axis1_shape _ _ _ _ d Hd Hz) as Hd1.
  rewrite (times_axis2_same _ _ _ _ _ Hd1 Hmu). cbn [Py.bind].
  rewrite times_axis0_same
    by (rewrite !length_map, repeat_length; apply (proj1 Hd)).
  reflexivity.
Qed.

(** On a grid with different numbers (both above one) of redshift and
    distance-modulus bins, the product inside the assertion of line 439
    cannot be broadcast. *)
Lemma asserted_sum_mismatch (sim : SimInfo) (d : tensor 3) :
  has_shape3 (n_types sim) (n_zs sim) (n_mus sim) d ->
  length (z_difs sim) = n_zs sim ->
  length (mu_difs sim) = n_mus sim ->
  (1 <= n_types sim)%nat -> (2 <= n_zs sim)%nat -> (2 <= n_mus sim)%nat ->
  n_zs sim <> n_mus sim ->
  asserted_sum sim d = Raise ValueError.
Proof.
  intros Hd Hz Hmu HT HZ HM Hne. unfold asserted_sum.
  rewrite (times_axis1_same _ _ _ _ d Hd Hz). cbn [Py.bind].
  pose proof (times_axis1_shape _ _ _ _ d Hd Hz) as [Hlen Hplanes].
  destruct (map _ d) as [|plane d1]; [simpl in Hlen; lia|].
  inversion Hplanes as [|? ? [Hplane _] _]; subst.
  unfold times_axis1. cbn [for_each].
  rewrite broadcast_mismatch by lia. reflexivity.
Qed.

(** C2 fails on such a grid: for every in-bounds hyperparameter vector the
    assertion of [lnhyperlikelihood] raises [ValueError]. *)
Theorem lnhyperlikelihood_assertion_raises (sim : SimInfo)
    (distmod : R -> R -> R -> R) (g : Globals) (h : Hyper) (s : store)
    (Hws : well_shaped sim)
    (HT : (1 <= n_types sim)%nat) (HZ : (2 <= n_zs sim)%nat)
    (HM : (2 <= n_mus sim)%nat) (Hne : n_zs sim <> n_mus sim)
    (Hin : param_check h = true) :
  lnhyperlikelihood sim distmod g h s = Raise ValueError.
Proof.
  pose proof (length_difs _ _ (ws_z_bins Hws)) as Hz.
  pose proof (length_difs _ _ (ws_mu_bins Hws)) as Hmu.
  assert (Hbins : (1 <= n_mus sim)%nat) by lia.
  pose proof (mu_binner_marked sim Hbins (ws_mu_bins Hws)
                (map (distmod (H0 h) (Om0 h)) (z_mids sim))) as Hbin.
  match type of Hbin with _ = Return ?t => set (matrix := t) in * end.
  pose proof (mu_binner_shape sim _ matrix Hbin) as Hshape.
  rewrite length_map in Hshape.
  unfold z_mids in Hshape. rewrite (length_mids _ _ (ws_z_bins Hws)) in Hshape.
  rewrite (lnhyperlikelihood_inside sim distmod g h matrix Hin Hbin).
  unfold normalised_log.
  unfold Store.bind at 1. unfold alloc at 1.
  unfold Store.bind at 1. rewrite (read_as_nd 3 matrix) by apply nth_error_alloc_new.
  unfold Store.bind at 1. unfold lift at 1.
  rewrite (normaliser_same sim matrix Hshape Hz Hmu). cbn [Py.fmap Py.bind].
  unfold Store.bind at 1. unfold idiv at 1. unfold Store.bind at 1, read at 1.
  rewrite nth_error_alloc_new. unfold write at 1. rewrite nth_error_alloc_new.
  rewrite update_alloc.
  match goal with
  | |- context [nd_map ?f (nd (d:=3) matrix)] =>
      change (nd_map f (nd (d:=3) matrix)) with (nd (d:=3) (tmap f 3 matrix));
      set (d' := tmap f 3 matrix)
  end.
  unfold Store.bind at 1. rewrite (read_as_nd 3 d') by apply nth_error_alloc_new.
  unfold Store.bind at 1. unfold lift at 1.
  rewrite (asserted_sum_mismatch sim d'); auto.
  apply tmap_shape3. exact Hshape.
Qed.

Lemma toy23_well_shaped : well_shaped Toy.sim23.
Proof.
  constructor; try reflexivity;
    repeat (split || constructor || reflexivity).
Qed.

Lemma lnhyperlikelihood_assertion_raises_witness :
  lnhyperlikelihood Toy.sim23 Toy.distmod_44 setup_globals Toy.inside
                    (setup_store Toy.sim23)
  = Raise ValueError.
Proof.
  apply (lnhyperlikelihood_assertion_raises Toy.sim23 Toy.distmod_44
           setup_globals Toy.inside (setup_store Toy.sim23)).
  - exact toy23_well_shaped.
  - simpl. lia.
  - simpl. lia.
  - simpl. lia.
  - simpl. lia.
  - exact toy_param_check.
Defined.

(** ** Normalisation of the in-bounds hyperlikelihood *)

Lemma nth_zip_with {A B C : Type} (f : A -> B -> C) (da : A) (db : B) (dc : C)
    (l : list A) (w : list B) (i : nat) :
  (i < length l)%nat -> (i < length w)%nat ->
  nth i (zip_with f l w) dc = f (nth i l da) (nth i w db).
Proof.
  revert w i. induction l as [|x l IH]; intros [|y w] [|i] Hl Hw;
    simpl in *; try lia; auto.
  apply IH; lia.
Qed.

Lemma nth_map_lt {A B : Type} (f : A -> B) (da : A) (db : B) (l : list A) (i : nat) :
  (i < length l)%nat -> nth i (map f l) db = f (nth i l da).
Proof.
  revert i. induction l as [|x l IH]; intros [|i] H; simpl in *; try lia; auto.
  apply IH. lia.
Qed.

Lemma np_sum_nth (l : list R) :
  np_sum l = big_sum (length l) (fun i => nth i l 0).
Proof.
  rewrite <- (map_id l) at 1. apply (np_sum_map_nth (fun x => x) 0 l).
Qed.

Lemma np_sum3_at3 (T Z M : nat) (a : tensor 3) :
  has_shape3 T Z M a ->
  np_sum3 a
  = big_sum T (fun t => big_sum Z (fun z => big_sum M (fun k => at3 a t z k))).
Proof.
  intros Hshape. unfold np_sum3.
  rewrite (np_sum_map_nth _ [] a), (proj1 Hshape).
  apply big_sum_ext. intros t Ht.
  destruct (shape3_plane _ _ _ a t Hshape Ht) as [HZ HM].
  rewrite (np_sum_map_nth _ [] (nth t a [])), HZ.
  apply big_sum_ext. intros z Hz.
  rewrite np_sum_nth, HM by assumption. reflexivity.
Qed.

Lemma at3_tmap (f : R -> R) (T Z M : nat) (a : tensor 3) (t z k : nat) :
  has_shape3 T Z M a -> (t < T)%nat -> (z < Z)%nat -> (k < M)%nat ->
  at3 (tmap f 3 a) t z k = f (at3 a t z k).
Proof.
  intros Hshape Ht Hz Hk. unfold at3. cbn [tmap].
  destruct (shape3_plane _ _ _ a t Hshape Ht) as [HZ HM].
  rewrite (nth_map_lt (A:=list (list R)) (B:=list (list R)) _ [] [] a)
    by (rewrite (proj1 Hshape); exact Ht).
  rewrite (nth_map_lt (A:=list R) (B:=list R) _ [] [] (nth t a []))
    by (rewrite HZ; exact Hz).
  apply nth_map_lt. rewrite HM by assumption. exact Hk.
Qed.

(** The element at [[t][z][k]] of the array summed on line 438. *)
Lemma at3_normaliser_array (sim : SimInfo) (d : tensor 3) (t z k : nat) :
  has_shape3 (n_types sim) (n_zs sim) (n_mus sim) d ->
  length (z_difs sim) = n_zs sim ->
  length (mu_difs sim) = n_mus sim ->
  (t < n_types sim)%nat -> (z < n_zs sim)%nat -> (k < n_mus sim)%nat ->
  at3 (zip_with (fun plane c => map (map (fun x => x * c)) plane)
         (map (map (fun row => zip_with Rmult row (mu_difs sim)))
            (map (fun plane =>
                    zip_with (fun row c => map (fun x => x * c) row) plane (z_difs sim))
                 d))
         (repeat 1 (n_types sim))) t z k
  = at3 d t z k * nth z (z_difs sim) 0 * nth k (mu_difs sim) 0 * 1.
Proof.
  intros Hshape Hzd Hmd Ht Hz Hk.
  destruct (shape3_plane _ _ _ d t Hshape Ht) as [HZ HM].
  specialize (HM z Hz). pose proof (proj1 Hshape) as HT.
  assert (Hlen : forall (f : list (list R) -> list (list R)),
            length (map f d) = n_types sim) by (intros; now rewrite length_map).
  unfold at3.
  rewrite (nth_zip_with _ [] 0 [])
    by (rewrite ?length_map, ?repeat_length; lia).
  rewrite nth_repeat_lt by exact Ht.
  rewrite (nth_map_lt (A:=list (list R)) (B:=list (list R)) _ [] [])
    by (rewrite length_map; lia).
  rewrite (nth_map_lt (A:=list (list R)) (B:=list (list R)) _ [] [] d) by lia.
  rewrite (nth_map_lt (map (fun x => x * 1)) [] [])
    by (rewrite length_map, length_zip_with; lia).
  rewrite (nth_map_lt (A:=list R) (B:=list R) _ [] [])
    by (rewrite length_zip_with; lia).
  rewrite (nth_zip_with _ [] 0 []) by lia.
  rewrite (nth_map_lt (fun x => x * 1) 0 0)
    by (rewrite length_zip_with, length_map; lia).
  rewrite (nth_zip_with Rmult 0 0 0) by (rewrite ?length_map; lia).
  rewrite (nth_map_lt _ 0 0) by lia.
  reflexivity.
Qed.

Lemma times_axis0_shape (T Z M : nat) (d : tensor 3) (c : R) :
  has_shape3 T Z M d ->
  has_shape3 T Z M
    (zip_with (fun plane c => map (map (fun x => x * c)) plane) d (repeat c T)).
Proof.
  intros [HT Hplanes]. split; [rewrite length_zip_with, repeat_length; lia|].
  eapply Forall_zip_with with (Q := fun _ => True);
    [exact Hplanes|apply Forall_forall; auto|].
  intros plane c' [HZ Hrows] _. split; [now rewrite length_map|].
  apply Forall_map. eapply Forall_impl; [|exact Hrows].
  intros row Hrow. cbv beta in *. now rewrite length_map.
Qed.

(** Line 438 computes the weighted sum of [delta] over the grid. *)
Lemma normaliser_weighted (sim : SimInfo) (d : tensor 3) :
  has_shape3 (n_types sim) (n_zs sim) (n_mus sim) d ->
  length (z_difs sim) = n_zs sim ->
  length (mu_difs sim) = n_mus sim ->
  normaliser sim d = Return (weighted_sum sim d).
Proof.
  intros Hshape Hzd Hmd. rewrite normaliser_same by assumption. f_equal.
  match goal with |- np_sum3 (over_n_types sim ?X) = _ => set (x := X) end.
  assert (Hx : has_shape3 (n_types sim) (n_zs sim) (n_mus sim) x).
  { apply times_axis0_shape, times_axis2_shape; [|assumption].
    now apply times_axis1_shape. }
  unfold over_n_types.
  rewrite (np_sum3_at3 (n_types sim) (n_zs sim) (n_mus sim))
    by (apply tmap_shape3; exact Hx).
  unfold weighted_sum. fold (z_difs sim) (mu_difs sim).
  apply big_sum_ext. intros t Ht. apply big_sum_ext. intros z Hz.
  apply big_sum_ext. intros k Hk.
  rewrite (at3_tmap _ _ _ _ x t z k Hx Ht Hz Hk). unfold x.
  rewrite at3_normaliser_array by assumption. unfold Rdiv. ring.
Qed.

Lemma weighted_sum_scale (sim : SimInfo) (d : tensor 3) (c : R) :
  has_shape3 (n_types sim) (n_zs sim) (n_mus sim) d ->
  weighted_sum sim (tmap (fun x => x / c) 3 d) = weighted_sum sim d / c.
Proof.
  intros Hshape. unfold weighted_sum. unfold Rdiv at 3.
  rewrite <- big_sum_scale. apply big_sum_ext. intros t Ht.
  rewrite <- big_sum_scale. apply big_sum_ext. intros z Hz.
  rewrite <- big_sum_scale. apply big_sum_ext. intros k Hk.
  rewrite (at3_tmap _ _ _ _ d t z k Hshape Ht Hz Hk). unfold Rdiv. ring.
Qed.

Lemma np_sum_map_le {A : Type} (f h : A -> R) (l : list A) :
  (forall x, In x l -> f x <= h x) -> np_sum (map f l) <= np_sum (map h l).
Proof.
  induction l as [|x l IH]; intros H; cbn [map]; [simpl; lra|].
  rewrite !np_sum_cons.
  assert (f x <= h x) by (apply H; now left).
  assert (np_sum (map f l) <= np_sum (map h l)) by (apply IH; intros y Hy; apply H; now right).
  lra.
Qed.

Lemma big_sum_le (n : nat) (f h : nat -> R) :
  (forall i, (i < n)%nat -> f i <= h i) -> big_sum n f <= big_sum n h.
Proof.
  intros H. unfold big_sum. apply np_sum_map_le.
  intros i Hi. apply in_seq in Hi. apply H. lia.
Qed.

Lemma nth_tl (l : list R) (k : nat) : nth k (tl l) 0 = nth (S k) l 0.
Proof.
  destruct l as [|x l]; [destruct k; reflexivity|reflexivity].
Qed.

(** A width of a grid: the difference of two neighbouring edges. *)
Lemma nth_difs (bins : list R) (n k : nat) :
  length bins = S n -> (k < n)%nat ->
  nth k (difs bins) 0 = nth (S k) bins 0 - nth k bins 0.
Proof.
  intros Hlen Hk. unfold difs.
  rewrite (nth_zip_with Rminus 0 0 0).
  - rewrite nth_tl, nth_removelast by lia. reflexivity.
  - destruct bins; simpl in *; lia.
  - rewrite (length_removelast bins n Hlen). exact Hk.
Qed.

Lemma difs_pos (bins : list R) (n k : nat) :
  length bins = S n -> increasing bins -> (k < n)%nat -> 0 < nth k (difs bins) 0.
Proof.
  intros Hlen Hinc Hk. rewrite (nth_difs bins n k Hlen Hk).
  assert (nth k bins 0 < nth (S k) bins 0) by (apply Hinc; lia). lra.
Qed.

Lemma big_sum_plus (n : nat) (f h : nat -> R) :
  big_sum n (fun i => f i + h i) = big_sum n f + big_sum n h.
Proof.
  unfold big_sum. induction (seq 0 n) as [|i l IH]; cbn [map]; [simpl; lra|].
  rewrite !np_sum_cons, IH. lra.
Qed.

Lemma big_sum_const (n : nat) (c : R) : big_sum n (fun _ => c) = INR n * c.
Proof.
  unfold big_sum. rewrite <- (length_seq n 0) at 2.
  induction (seq 0 n) as [|i l IH]; [simpl; lra|].
  cbn [map]. rewrite np_sum_cons, IH.
  change (length (i :: l)) with (S (length l)). rewrite S_INR. lra.
Qed.

(** The total weight of the grid: the product of the summed widths. *)
Lemma grid_weight (sim : SimInfo) (c : R) :
  (1 <= n_types sim)%nat ->
  length (z_difs sim) = n_zs sim ->
  length (mu_difs sim) = n_mus sim ->
  big_sum (n_types sim) (fun t =>
  big_sum (n_zs sim) (fun z =>
  big_sum (n_mus sim) (fun k =>
    c * nth k (mu_difs sim) 0 * nth z (z_difs sim) 0 / INR (n_types sim))))
  = c * (np_sum (z_difs sim) * np_sum (mu_difs sim)).
Proof.
  intros HT Hzd Hmd.
  assert (HT0 : INR (n_types sim) <> 0) by (apply not_0_INR; lia).
  rewrite (big_sum_ext _ _
             (fun _ => c * (np_sum (z_difs sim) * np_sum (mu_difs sim))
                       / INR (n_types sim))).
  - rewrite big_sum_const. now field.
  - intros t _.
    rewrite (big_sum_ext _ _
               (fun z => nth z (z_difs sim) 0
                         * (c * np_sum (mu_difs sim) / INR (n_types sim)))).
    + rewrite big_sum_scale, (np_sum_nth (z_difs sim)), Hzd. now field.
    + intros z _.
      rewrite (big_sum_ext _ _
                 (fun k => nth k (mu_difs sim) 0
                           * (c * nth z (z_difs sim) 0 / INR (n_types sim)))).
      * rewrite big_sum_scale, (np_sum_nth (mu_difs sim)), Hmd. now field.
      * intros k _. now field.
Qed.

(** The entries that [mu_binner] writes are 0 or 1. *)
Lemma marked_entries_nonneg (sim : SimInfo) (mus : list R) (t z k : nat) :
  0 <= at3 (repeat
              (map (fun mu => add_at (repeat 0 (n_mus sim))
                      (marked_bin (n_mus sim) (bisect (removelast (mu_bins sim)) mu)) 1)
                   mus)
              (n_types sim)) t z k.
Proof.
  unfold at3.
  set (row := fun mu => add_at (repeat 0 (n_mus sim))
                (marked_bin (n_mus sim) (bisect (removelast (mu_bins sim)) mu)) 1).
  set (rows := map row mus).
  destruct (le_lt_dec (n_types sim) t) as [Ht|Ht].
  - rewrite (nth_overflow (repeat rows (n_types sim)) [])
      by (rewrite repeat_length; lia).
    destruct z, k; simpl; lra.
  - rewrite (nth_repeat_lt rows) by exact Ht.
    destruct (le_lt_dec (length mus) z) as [Hz|Hz].
    + rewrite (nth_overflow rows []) by (unfold rows; rewrite length_map; lia).
      destruct k; simpl; lra.
    + unfold rows. rewrite (nth_map_lt row 0 [] mus z Hz). unfold row.
      set (j := marked_bin _ _).
      destruct (Nat.eq_dec k j) as [->|Hne].
      * destruct (le_lt_dec (n_mus sim) j) as [Hj|Hj].
        -- rewrite nth_overflow by (rewrite length_add_at, repeat_length; lia). lra.
        -- rewrite nth_add_at_same by (rewrite repeat_length; lia).
           rewrite nth_repeat_0. lra.
      * rewrite nth_add_at_other by exact Hne. rewrite nth_repeat_0. lra.
Qed.

Lemma big_sum_nonneg (n : nat) (f : nat -> R) :
  (forall i, (i < n)%nat -> 0 <= f i) -> 0 <= big_sum n f.
Proof.
  intros H. replace 0 with (big_sum n (fun _ => 0)) at 1
    by (rewrite big_sum_const; ring).
  now apply big_sum_le.
Qed.

Lemma weight_monotone (x y a b t : R) :
  0 <= a -> 0 <= b -> 0 < t -> x <= y -> x * a * b / t <= y * a * b / t.
Proof.
  intros Ha Hb Ht Hxy. unfold Rdiv.
  assert (0 < / t) by now apply Rinv_0_lt_compat.
  assert (0 <= a * b * / t) by (apply Rmult_le_pos; [apply Rmult_le_pos|]; lra).
  replace (x * a * b * / t) with (x * (a * b * / t)) by ring.
  replace (y * a * b * / t) with (y * (a * b * / t)) by ring.
  now apply Rmult_le_compat_r.
Qed.

Section Normalised.

Variable sim : SimInfo.
Hypothesis Hws : well_shaped sim.
Hypothesis Hz_inc : increasing (z_bins sim).
Hypothesis Hmu_inc : increasing (mu_bins sim).
Hypothesis HT : (1 <= n_types sim)%nat.

Lemma weighted_sum_mono (f h : R -> R) (a : tensor 3) :
  has_shape3 (n_types sim) (n_zs sim) (n_mus sim) a ->
  (forall t z k, f (at3 a t z k) <= h (at3 a t z k)) ->
  weighted_sum sim (tmap f 3 a) <= weighted_sum sim (tmap h 3 a).
Proof.
  intros Hshape Hfh. unfold weighted_sum.
  assert (0 < INR (n_types sim)) by (apply lt_0_INR; lia).
  apply big_sum_le. intros t Ht. apply big_sum_le. intros z Hz.
  apply big_sum_le. intros k Hk.
  rewrite !(at3_tmap _ _ _ _ a t z k Hshape Ht Hz Hk).
  apply weight_monotone; auto.
  - left. apply (difs_pos _ _ _ (ws_mu_bins Hws) Hmu_inc Hk).
  - left. apply (difs_pos _ _ _ (ws_z_bins Hws) Hz_inc Hz).
Qed.

Lemma weighted_sum_nonneg (a : tensor 3) :
  (forall t z k, 0 <= at3 a t z k) -> 0 <= weighted_sum sim a.
Proof.
  intros Ha. unfold weighted_sum.
  assert (0 < INR (n_types sim)) by (apply lt_0_INR; lia).
  apply big_sum_nonneg. intros t Ht. apply big_sum_nonneg. intros z Hz.
  apply big_sum_nonneg. intros k Hk.
  pose proof (difs_pos _ _ _ (ws_mu_bins Hws) Hmu_inc Hk).
  pose proof (difs_pos _ _ _ (ws_z_bins Hws) Hz_inc Hz).
  apply Rle_mult_inv_pos; [|assumption].
  apply Rmult_le_pos; [apply Rmult_le_pos|]; auto; lra.
Qed.

(** The grid integral of [exp] of an array is the weighted sum of its
    element-wise [exp]. *)
Lemma grid_integral_weighted (a : tensor 3) :
  has_shape3 (n_types sim) (n_zs sim) (n_mus sim) a ->
  grid_integral sim a = weighted_sum sim (tmap exp 3 a).
Proof.
  intros Hshape. unfold grid_integral, weighted_sum.
  apply big_sum_ext. intros t Ht. apply big_sum_ext. intros z Hz.
  apply big_sum_ext. intros k Hk.
  now rewrite (at3_tmap _ _ _ _ a t z k Hshape Ht Hz Hk).
Qed.

Lemma weighted_sum_shift (f : R -> R) (c : R) (a : tensor 3) :
  has_shape3 (n_types sim) (n_zs sim) (n_mus sim) a ->
  weighted_sum sim (tmap (fun x => f x + c) 3 a)
  = weighted_sum sim (tmap f 3 a)
    + c * (np_sum (z_difs sim) * np_sum (mu_difs sim)).
Proof.
  intros Hshape.
  rewrite <- (grid_weight sim c HT (length_difs _ _ (ws_z_bins Hws))
                (length_difs _ _ (ws_mu_bins Hws))).
  unfold weighted_sum. fold (z_difs sim) (mu_difs sim).
  rewrite <- big_sum_plus. apply big_sum_ext. intros t Ht.
  rewrite <- big_sum_plus. apply big_sum_ext. intros z Hz.
  rewrite <- big_sum_plus. apply big_sum_ext. intros k Hk.
  rewrite !(at3_tmap _ _ _ _ a t z k Hshape Ht Hz Hk). unfold Rdiv. ring.
Qed.

Lemma tmap_tmap (f h : R -> R) (d : nat) (a : tensor d) :
  tmap f d (tmap h d a) = tmap (fun x => f (h x)) d a.
Proof.
  induction d as [|d IH]; [reflexivity|].
  cbn [tmap]. rewrite map_map. apply map_ext. intros x. apply IH.
Qed.

(** What C2 asks of a result, for every in-bounds call that returns: the
    exponential of the returned log-density integrates over the grid to 1,
    up to the floor [epsilon] that [safe_log] puts under the empty cells. *)
Lemma lnhyperlikelihood_normalised (distmod : R -> R -> R -> R) (g : Globals)
    (h : Hyper) (s s' : store) (r : ref) :
  (1 <= n_mus sim)%nat ->
  param_check h = true ->
  lnhyperlikelihood sim distmod g h s = Return (r, s') ->
  exists nt,
    nth_error s' r = Some (nd (d:=3) nt) /\
    1 <= grid_integral sim nt
      <= 1 + epsilon * (np_sum (z_difs sim) * np_sum (mu_difs sim)).
Proof.
  intros HM Hin Hrun.
  pose proof (length_difs _ _ (ws_z_bins Hws)) as Hzd.
  pose proof (length_difs _ _ (ws_mu_bins Hws)) as Hmd.
  pose proof (mu_binner_marked sim HM (ws_mu_bins Hws)
                (map (distmod (H0 h) (Om0 h)) (z_mids sim))) as Hbin.
  pose proof (marked_entries_nonneg sim
                (map (distmod (H0 h) (Om0 h)) (z_mids sim))) as Hentries.
  match type of Hbin with _ = Return ?t => set (matrix := t) in * end.
  pose proof (mu_binner_shape sim _ matrix Hbin) as Hshape.
  rewrite length_map in Hshape.
  unfold z_mids in Hshape. rewrite (length_mids _ _ (ws_z_bins Hws)) in Hshape.
  rewrite (lnhyperlikelihood_inside sim distmod g h matrix Hin Hbin) in Hrun.
  apply normalised_log_inv in Hrun.
  destruct Hrun as [norm [Hnorm [Hnz [_ [-> ->]]]]].
  rewrite (normaliser_weighted sim matrix Hshape Hzd Hmd) in Hnorm.
  injection Hnorm as Hnorm.
  assert (Hpos : 0 < norm).
  { pose proof (weighted_sum_nonneg matrix Hentries). lra. }
  set (d' := tmap (fun x => x / norm) 3 matrix).
  assert (Hd' : has_shape3 (n_types sim) (n_zs sim) (n_mus sim) d')
    by (apply tmap_shape3; exact Hshape).
  assert (Hone : weighted_sum sim d' = 1).
  { unfold d'. rewrite weighted_sum_scale by exact Hshape. rewrite Hnorm.
    now field. }
  exists (safe_log_val epsilon 3 d'). split.
  - replace (S (length s)) with (length (s ++ [nd (d:=3) d']))
      by (rewrite length_app; simpl; lia).
    apply nth_error_alloc_new.
  - rewrite grid_integral_weighted by (apply safe_log_val_shape3; exact Hd').
    rewrite safe_log_val_tmap, tmap_tmap.
    pose proof epsilon_pos as Heps.
    assert (Hexp : forall x, exp (ln (Py.max x epsilon)) = Rmax x epsilon).
    { intros x. rewrite py_max_Rmax. apply exp_ln.
      apply Rlt_le_trans with (1 := Heps). apply Rmax_r. }
    rewrite (tmap_ext _ (fun x => Rmax x epsilon)) by (intros x _; apply Hexp).
    split.
    + rewrite <- Hone. rewrite <- (tmap_id 3 d') at 1.
      apply weighted_sum_mono; [exact Hd'|]. intros t z k. apply Rmax_l.
    + unfold d'. rewrite tmap_tmap.
      apply Rle_trans with
        (weighted_sum sim (tmap (fun x => x / norm + epsilon) 3 matrix)).
      * apply weighted_sum_mono; [exact Hshape|]. intros t z k.
        assert (0 <= at3 matrix t z k / norm)
          by (apply Rle_mult_inv_pos; [apply Hentries|exact Hpos]).
        apply Rmax_lub; lra.
      * rewrite weighted_sum_shift by exact Hshape.
        fold d'. rewrite Hone. lra.
Qed.

End Normalised.

Lemma pow_2_1022_large : 10 ^ 306 <= 2 ^ 1022.
Proof.
  change (10 ^ (3 * 102) <= 2 ^ (10 * 102 + 2)).
  rewrite pow_add, !pow_mult.
  assert (H3 : 10 ^ 3 = 1000) by (simpl; lra).
  assert (H10 : 2 ^ 10 = 1024) by (simpl; lra).
  assert (H2 : 2 ^ 2 = 4) by (simpl; lra).
  rewrite H3, H10, H2.
  assert (Hle : 1000 ^ 102 <= 1024 ^ 102) by (apply pow_incr; lra).
  assert (Hpos : 0 < 1024 ^ 102) by (apply pow_lt; lra).
  lra.
Qed.

(** [epsilon] times any grid area up to [1e300] stays below [1e-6]. *)
Lemma epsilon_negligible (area : R) :
  0 <= area <= 10 ^ 300 -> epsilon * area <= / 10 ^ 6.
Proof.
  intros [Hlo Hhi]. unfold epsilon.
  assert (H2 : 0 < 2 ^ 1022) by (apply pow_lt; lra).
  assert (H6 : 0 < 10 ^ 6) by (apply pow_lt; lra).
  pose proof pow_2_1022_large as Hbig.
  change (10 ^ (300 + 6) <= 2 ^ 1022) in Hbig.
  rewrite pow_add in Hbig.
  apply Rmult_le_reg_l with (2 ^ 1022); [exact H2|].
  rewrite <- Rmult_assoc, Rinv_r, Rmult_1_l by lra.
  apply Rmult_le_reg_r with (10 ^ 6); [exact H6|].
  rewrite Rmult_assoc, Rinv_l, Rmult_1_r by lra.
  apply Rle_trans with (10 ^ 300 * 10 ^ 6); [|exact Hbig].
  apply Rmult_le_compat_r; lra.
Qed.

(** The same within the tolerance [1e-6], for every grid whose area is at
    most [1e300]. *)
Lemma lnhyperlikelihood_normalised_tolerance (sim : SimInfo)
    (distmod : R -> R -> R -> R) (g : Globals) (h : Hyper) (s s' : store) (r : ref) :
  well_shaped sim -> increasing (z_bins sim) -> increasing (mu_bins sim) ->
  (1 <= n_types sim)%nat -> (1 <= n_mus sim)%nat ->
  0 <= np_sum (z_difs sim) * np_sum (mu_difs sim) <= 10 ^ 300 ->
  param_check h = true ->
  lnhyperlikelihood sim distmod g h s = Return (r, s') ->
  exists nt,
    nth_error s' r = Some (nd (d:=3) nt) /\
    Rabs (grid_integral sim nt - 1) <= / 10 ^ 6.
Proof.
  intros Hws Hz Hmu HT HM Harea Hin Hrun.
  destruct (lnhyperlikelihood_normalised sim Hws Hz Hmu HT distmod g h s s' r
              HM Hin Hrun) as [nt [Hnt [Hlo Hhi]]].
  exists nt. split; [exact Hnt|].
  pose proof (epsilon_negligible _ Harea).
  rewrite Rabs_right by lra. lra.
Qed.

(** ** A call of the in-bounds branch that returns *)

Lemma bisect_all_below (a : list R) (x : R) :
  increasing a -> (forall i, (i < length a)%nat -> nth i a 0 <= x) ->
  bisect a x = length a.
Proof.
  intros Hinc Hbelow. destruct (bisect_split a x Hinc) as [_ Hhigh].
  pose proof (bisect_bounds a x) as Hb.
  destruct (Nat.eq_dec (bisect a x) (length a)) as [|Hne]; [assumption|].
  exfalso. specialize (Hhigh (bisect a x)). specialize (Hbelow (bisect a x)).
  assert (x < nth (bisect a x) a 0) by (apply Hhigh; lia).
  assert (nth (bisect a x) a 0 <= x) by (apply Hbelow; lia).
  lra.
Qed.

(** The converse of [normalised_log_inv]. *)
Lemma normalised_log_run (sim : SimInfo) (matrix : tensor 3) (s : store)
    (norm total : R) :
  normaliser sim matrix = Return norm -> norm <> 0 ->
  asserted_sum sim (tmap (fun x => x / norm) 3 matrix) = Return total ->
  isclose total 1 = true ->
  normalised_log sim matrix s
  = Return (S (length s),
            (s ++ [nd (d:=3) (tmap (fun x => x / norm) 3 matrix)])
              ++ [nd (d:=3) (safe_log_val epsilon 3 (tmap (fun x => x / norm) 3 matrix))]).
Proof.
  intros Hnorm Hnz Hsum Hclose. unfold normalised_log.
  unfold Store.bind at 1. unfold alloc at 1.
  unfold Store.bind at 1. rewrite (read_as_nd 3 matrix) by apply nth_error_alloc_new.
  unfold Store.bind at 1. unfold lift at 1. rewrite Hnorm. cbn [Py.fmap Py.bind].
  unfold Store.bind at 1. unfold idiv at 1. unfold Store.bind at 1, read at 1.
  rewrite nth_error_alloc_new. unfold write at 1. rewrite nth_error_alloc_new.
  rewrite update_alloc.
  change (nd_map (fun x => x / norm) (nd (d:=3) matrix))
    with (nd (d:=3) (tmap (fun x => x / norm) 3 matrix)).
  set (d' := tmap (fun x => x / norm) 3 matrix) in *.
  unfold Store.bind at 1. rewrite (read_as_nd 3 d') by apply nth_error_alloc_new.
  unfold Store.bind at 1. unfold lift at 1. rewrite Hsum. cbn [Py.fmap Py.bind].
  unfold Store.bind at 1.
  destruct (Req_dec_T norm 0) as [Hz|_]; [contradiction|].
  rewrite Hclose. unfold Store.ret at 1.
  rewrite (safe_log_run _ _ (nd (d:=3) d')) by apply nth_error_alloc_new.
  f_equal. f_equal.
  - rewrite length_app. simpl. lia.
  - unfold nd_map. cbn [projT1 projT2]. now rewrite <- safe_log_val_tmap.
Qed.

Lemma toy11_well_shaped : well_shaped Toy.sim11.
Proof.
  constructor; try reflexivity;
    repeat (split || constructor || reflexivity).
Qed.

(** On the grid of a single cell the in-bounds branch returns: the
    assertion holds there, and the hypotheses of
    [lnhyperlikelihood_normalised] can be met. *)
Lemma lnhyperlikelihood_returns_single_cell :
  exists r s',
    lnhyperlikelihood Toy.sim11 Toy.distmod_44 setup_globals Toy.inside
                      (setup_store Toy.sim11) = Return (r, s').
Proof.
  assert (Hbin : mu_binner Toy.sim11
                   (map (Toy.distmod_44 (H0 Toy.inside) (Om0 Toy.inside))
                        (z_mids Toy.sim11)) = Return [[[0 + 1]]]).
  { rewrite mu_binner_marked by (simpl; lia || reflexivity).
    unfold z_mids, mids, Toy.distmod_44.
    cbn [Toy.sim11 n_mus n_types mu_bins z_bins removelast tl zip_with map repeat].
    assert (Hone : bisect [44] (441 / 10) = 1%nat).
    { apply (bisect_all_below [44]).
      - intros i j Hij. simpl in Hij. lia.
      - intros i Hi. simpl in Hi. destruct i; [simpl; lra|lia]. }
    rewrite Hone. reflexivity. }
  rewrite (lnhyperlikelihood_inside _ _ _ _ _ toy_param_check Hbin).
  eexists. eexists.
  apply (normalised_log_run Toy.sim11 [[[0 + 1]]] _ 2 1).
  - unfold normaliser, times_axis1, times_axis2, times_axis0, broadcast, np_sum3,
      over_n_types, np_sum, z_difs, mu_difs, difs.
    cbn. f_equal. field.
  - lra.
  - unfold asserted_sum, times_axis1, times_axis0, broadcast, np_sum3,
      over_n_types, np_sum, z_difs, mu_difs, difs.
    cbn. f_equal. field.
  - unfold isclose. rewrite Rminus_diag, Rabs_R0, Rabs_R1.
    match goal with |- context [Rle_dec ?a ?b] => destruct (Rle_dec a b) as [|Hn] end;
      [reflexivity|].
    exfalso. apply Hn. simpl. lra.
Qed.

Lemma normalised_log_assertion_fails (sim : SimInfo) (matrix : tensor 3) (s : store)
    (norm total : R) :
  normaliser sim matrix = Return norm ->
  asserted_sum sim (tmap (fun x => x / norm) 3 matrix) = Return total ->
  isclose total 1 = false ->
  normalised_log sim matrix s = Raise AssertionError.
Proof.
  intros Hnorm Hsum Hclose. unfold normalised_log.
  unfold Store.bind at 1. unfold alloc at 1.
  unfold Store.bind at 1. rewrite (read_as_nd 3 matrix) by apply nth_error_alloc_new.
  unfold Store.bind at 1. unfold lift at 1. rewrite Hnorm. cbn [Py.fmap Py.bind].
  unfold Store.bind at 1. unfold idiv at 1. unfold Store.bind at 1, read at 1.
  rewrite nth_error_alloc_new. unfold write at 1. rewrite nth_error_alloc_new.
  rewrite update_alloc.
  change (nd_map (fun x => x / norm) (nd (d:=3) matrix))
    with (nd (d:=3) (tmap (fun x => x / norm) 3 matrix)).
  set (d' := tmap (fun x => x / norm) 3 matrix) in *.
  unfold Store.bind at 1. rewrite (read_as_nd 3 d') by apply nth_error_alloc_new.
  unfold Store.bind at 1. unfold lift at 1. rewrite Hsum. cbn [Py.fmap Py.bind].
  unfold Store.bind at 1.
  destruct (Req_dec_T norm 0); [reflexivity|]. now rewrite Hclose.
Qed.

(** On the grid of one redshift bin and two distance-modulus bins of equal
    width, the product inside the assertion broadcasts to two rows and sums
    to 2: the assertion fails although [delta] is normalised. *)
Lemma lnhyperlikelihood_assertion_fails_two_bins (s : store) :
  lnhyperlikelihood Toy.sim Toy.distmod_44 setup_globals Toy.inside s
  = Raise AssertionError.
Proof.
  assert (Hbin : mu_binner Toy.sim
                   (map (Toy.distmod_44 (H0 Toy.inside) (Om0 Toy.inside))
                        (z_mids Toy.sim)) = Return [[[0; 0 + 1]]]).
  { rewrite mu_binner_marked by (simpl; lia || reflexivity).
    unfold z_mids, mids, Toy.distmod_44.
    cbn [Toy.sim n_mus n_types mu_bins z_bins removelast tl zip_with map repeat].
    assert (Hzero : bisect [45; 46] (441 / 10) = 0%nat).
    { unfold bisect. apply bisect_loop_all_above. intros i Hi. simpl in Hi.
      destruct i as [|[|i]]; simpl; try lia; lra. }
    rewrite Hzero. reflexivity. }
  rewrite (lnhyperlikelihood_inside _ _ _ _ _ toy_param_check Hbin).
  apply (normalised_log_assertion_fails Toy.sim [[[0; 0 + 1]]] s 2 2).
  - unfold normaliser, times_axis1, times_axis2, times_axis0, broadcast, np_sum3,
      over_n_types, np_sum, z_difs, mu_difs, difs.
    cbn. f_equal. field.
  - unfold asserted_sum, times_axis1, times_axis0, broadcast, np_sum3,
      over_n_types, np_sum, z_difs, mu_difs, difs.
    cbn. f_equal. field.
  - unfold isclose. replace (2 - 1) with 1 by ring. rewrite Rabs_R1.
    match goal with |- context [Rle_dec ?a ?b] => destruct (Rle_dec a b) as [Hle|] end;
      [|reflexivity].
    exfalso. simpl in Hle. lra.
Qed.

(** ** The diagnostic on small chains *)

(** Two chains [0, 1] and [1, 2]: [W = 1/2], [B = 1], [var = 3/4] and
    [R_hat = sqrt(3/2)]. *)
Example gr_two_short_chains :
  single_parameter_gr_stat [[0; 1]; [1; 2]] = Return (Fin (sqrt (3 / 2))).
Proof.
  rewrite gr_stat_finite by (simpl; repeat constructor).
  assert (HW : within_chain_variance [[0; 1]; [1; 2]] = 1 / 2).
  { unfold within_chain_variance, sample_variance, sample_mean. simpl. field. }
  assert (HB : between_chain_variance [[0; 1]; [1; 2]] = 1).
  { unfold between_chain_variance, grand_mean, sample_mean. simpl. field. }
  unfold pooled_variance. rewrite HW, HB. cbn [n_columns length INR].
  rewrite xdiv_Fin by lra.
  replace (((1 + 1 - 1) / (1 + 1) * (1 / 2) + 1 / (1 + 1) * 1) / (1 / 2))
    with (3 / 2) by field.
  unfold xsqrt. destruct (Rlt_dec (3 / 2) 0); [lra|reflexivity].
Qed.

(** Chains far apart: both parameters have [R_hat = sqrt(201/2)], above the
    threshold, and the test asks for another epoch. *)
Example gr_test_far_apart : gr_test Toy.far_apart gr_limit = Return true.
Proof.
  assert (Hstat : single_parameter_gr_stat [[0; 1]; [10; 11]]
                  = Return (Fin (sqrt (201 / 2)))).
  { rewrite gr_stat_finite by (simpl; repeat constructor).
    assert (HW : within_chain_variance [[0; 1]; [10; 11]] = 1 / 2).
    { unfold within_chain_variance, sample_variance, sample_mean. simpl. field. }
    assert (HB : between_chain_variance [[0; 1]; [10; 11]] = 100).
    { unfold between_chain_variance, grand_mean, sample_mean. simpl. field. }
    unfold pooled_variance. rewrite HW, HB. cbn [n_columns length INR].
    rewrite xdiv_Fin by lra.
    replace (((1 + 1 - 1) / (1 + 1) * (1 / 2) + 1 / (1 + 1) * 100) / (1 / 2))
      with (201 / 2) by field.
    unfold xsqrt. destruct (Rlt_dec (201 / 2) 0); [lra|reflexivity]. }
  unfold gr_test, multi_parameter_gr_stat, Toy.far_apart.
  cbn [n_columns hd length Nat.div Nat.divmod fst seq for_each kept_chains map
       skipn nth].
  rewrite !Hstat. cbn [Py.bind np_max fold_left].
  assert (Hbig : 12 / 10 < sqrt (201 / 2)).
  { rewrite <- (sqrt_square (12 / 10)) by lra. apply sqrt_lt_1; lra. }
  unfold xmax, xgt, gr_limit.
  repeat match goal with
  | |- context [Rlt_dec ?a ?b] => destruct (Rlt_dec a b); try lra
  end; reflexivity.
Qed.

(** * Further properties of the notebook's functions *)

(** ** The hyperprior distribution *)

Lemma skipn_nth_error {A : Type} (l : list A) (d : nat) (x : A) :
  nth_error l d = Some x -> skipn d l = x :: skipn (S d) l.
Proof.
  revert d. induction l as [|y l IH]; intros [|d] H; simpl in *; try discriminate.
  - congruence.
  - now apply IH.
Qed.

Lemma logpdf_loop_run (dists : list (R -> R)) (locs : list R) :
  forall (d : nat) (lnprob : R),
    (d + length dists <= length locs)%nat ->
    logpdf_loop dists locs d lnprob
    = Return (lnprob + np_sum (zip_with (fun dist x => dist x) dists (skipn d locs))).
Proof.
  induction dists as [|dist rest IH]; intros d lnprob Hlen; simpl in *.
  - f_equal. unfold np_sum. simpl. lra.
  - destruct (nth_error locs d) as [x|] eqn:E.
    + rewrite IH by lia. rewrite (skipn_nth_error _ _ _ E). f_equal.
      rewrite np_sum_cons. lra.
    + apply nth_error_None in E. lia.
Qed.

Lemma logpdf_loop_short (dists : list (R -> R)) (locs : list R) :
  forall (d : nat) (lnprob : R),
    (d <= length locs < d + length dists)%nat ->
    logpdf_loop dists locs d lnprob = Raise IndexError.
Proof.
  induction dists as [|dist rest IH]; intros d lnprob Hlen; simpl in *.
  - lia.
  - destruct (nth_error locs d) as [x|] eqn:E; [|reflexivity].
    assert (d < length locs)%nat by (apply nth_error_Some; congruence).
    apply IH. lia.
Qed.

(** X1: [indie_dist.logpdf] returns exactly when [locs] has an entry for every
    component distribution; it then returns the sum of the components'
    log-densities at the leading entries of [locs], and entries beyond the
    number of components are ignored.  With fewer entries than components
    it raises [IndexError]. *)
Theorem indie_dist_logpdf_sum (dists : list (R -> R)) (locs : list R) :
  indie_dist_logpdf dists locs
  = if (length dists <=? length locs)%nat
    then Return (np_sum (zip_with (fun dist x => dist x) dists locs))
    else Raise IndexError.
Proof.
  unfold indie_dist_logpdf.
  destruct (length dists <=? length locs)%nat eqn:E.
  - apply Nat.leb_le in E. rewrite logpdf_loop_run by (simpl; lia).
    simpl. f_equal. lra.
  - apply Nat.leb_gt in E. apply logpdf_loop_short. simpl. lia.
Qed.

(** ** Starting positions of the walkers *)

Lemma init_positions_loop_run (nwalkers : nat) (draws : list Hyper) :
  forall init_positions : list Hyper,
    (length init_positions <= nwalkers)%nat ->
    init_positions_loop nwalkers draws init_positions
    = if (nwalkers - length init_positions <=? length (filter param_check draws))%nat
      then Some (init_positions
                 ++ firstn (nwalkers - length init_positions) (filter param_check draws))
      else None.
Proof.
  induction draws as [|p draws IH]; intros acc Hacc; simpl.
  - destruct (length acc <? nwalkers)%nat eqn:E.
    + apply Nat.ltb_lt in E.
      destruct (nwalkers - length acc <=? 0)%nat eqn:E'; [|reflexivity].
      apply Nat.leb_le in E'. lia.
    + apply Nat.ltb_ge in E. replace (nwalkers - length acc)%nat with 0%nat by lia.
      simpl. now rewrite app_nil_r.
  - destruct (length acc <? nwalkers)%nat eqn:E.
    + apply Nat.ltb_lt in E. destruct (param_check p) eqn:Ep.
      * rewrite IH by (rewrite length_app; simpl; lia).
        rewrite length_app. simpl length.
        replace (nwalkers - length acc)%nat
          with (S (nwalkers - (length acc + 1)))%nat by lia.
        simpl. rewrite <- app_assoc. reflexivity.
      * now apply IH.
    + apply Nat.ltb_ge in E. replace (nwalkers - length acc)%nat with 0%nat by lia.
      simpl. now rewrite app_nil_r.
Qed.

(** X2: The loop that draws the walkers' starting positions keeps the first
    [nwalkers] draws of the hyperprior that pass [param_check], in the order
    drawn, and nothing else; it ends as soon as it has them, and cannot end
    while fewer draws have passed. *)
Theorem init_positions_accepted (nwalkers : nat) (draws : list Hyper) :
  init_positions_loop nwalkers draws []
  = if (nwalkers <=? length (filter param_check draws))%nat
    then Some (firstn nwalkers (filter param_check draws))
    else None.
Proof.
  rewrite init_positions_loop_run by (simpl; lia).
  simpl. now rewrite Nat.sub_0_r.
Qed.

(** ** SafeLog utilities, composed *)

Lemma update_update (s : store) (r : ref) (a b : ndarray) :
  update (update s r a) r b = update s r b.
Proof.
  revert r. induction s as [|c s IH]; intros [|r]; simpl; auto.
  now rewrite IH.
Qed.

Lemma floor_at_floor_at (t t' x : R) :
  floor_at t' (floor_at t x) = floor_at (Rmax t t') x.
Proof.
  rewrite !floor_at_Rmax. symmetry. apply Rmax_assoc.
Qed.

(** X3: Two calls of [reg_vals] on one array, the second through the reference
    the first returned, do what one call at the larger threshold does: same
    outcome, same store.  In particular a second call at the same threshold
    changes nothing. *)
Theorem reg_vals_twice (arr : ref) (threshold threshold' : R) (s : store) :
  (r <- reg_vals arr threshold ;; reg_vals r threshold') s
  = reg_vals arr (Rmax threshold threshold') s /\
  (r <- reg_vals arr threshold ;; reg_vals r threshold) s
  = reg_vals arr threshold s.
Proof.
  assert (H : forall t t',
    (r <- reg_vals arr t ;; reg_vals r t') s = reg_vals arr (Rmax t t') s).
  { intros t t'. destruct (nth_error s arr) as [a|] eqn:E.
    - rewrite (bind_run _ (reg_vals_run s arr a t E)).
      rewrite (reg_vals_run _ arr _ t' (nth_error_update_same s arr _ a E)).
      rewrite (reg_vals_run s arr a _ E), update_update.
      do 3 f_equal. unfold nd_map. simpl. f_equal.
      rewrite tmap_tmap. apply tmap_ext. intros x _. apply floor_at_floor_at.
    - unfold reg_vals, Store.bind, read. now rewrite E. }
  split; [apply H|].
  rewrite H. f_equal. unfold Rmax. destruct (Rle_dec threshold threshold); lra.
Qed.

Lemma flatten_tmap (f : R -> R) (d : nat) (t : tensor d) :
  flatten d (tmap f d t) = map f (flatten d t).
Proof.
  induction d as [|d IHd]; simpl in *; [reflexivity|].
  induction t as [|p t IHt]; simpl; [reflexivity|].
  now rewrite map_app, IHd, IHt.
Qed.

(** X4: [safe_log] is the logarithm of what [reg_vals] leaves: for every array
    and a positive threshold, the array that [safe_log] computes is the
    element-wise [ln] of the array that [reg_vals] computes, its
    exponential gives that array back, and none of its elements is below
    [ln(threshold)]. *)
Theorem safe_log_exp (threshold : R) (d : nat) (arr : tensor d)
    (Hpos : 0 < threshold) :
  safe_log_val threshold d arr = tmap ln d (reg_vals_val threshold d arr) /\
  tmap exp d (safe_log_val threshold d arr) = reg_vals_val threshold d arr /\
  forall x, In x (flatten d (safe_log_val threshold d arr)) -> ln threshold <= x.
Proof.
  assert (E : safe_log_val threshold d arr = tmap ln d (reg_vals_val threshold d arr)).
  { rewrite safe_log_val_tmap. unfold reg_vals_val. rewrite tmap_tmap.
    apply tmap_ext. intros x _. now rewrite py_max_Rmax, floor_at_Rmax. }
  split; [exact E|]. split.
  - rewrite E, tmap_tmap. rewrite <- (tmap_id d (reg_vals_val threshold d arr)) at 2.
    apply tmap_ext. intros x Hx. unfold reg_vals_val in Hx.
    rewrite flatten_tmap in Hx. apply in_map_iff in Hx. destruct Hx as [y [<- _]].
    apply exp_ln. rewrite floor_at_Rmax.
    apply Rlt_le_trans with (1 := Hpos). apply Rmax_r.
  - intros x Hx. rewrite safe_log_val_tmap, flatten_tmap in Hx.
    apply in_map_iff in Hx. destruct Hx as [y [<- _]].
    rewrite py_max_Rmax.
    destruct (Rle_lt_or_eq_dec _ _ (Rmax_r y threshold)) as [Hlt|Heq].
    + left. now apply ln_increasing.
    + rewrite <- Heq. lra.
Qed.

Lemma safe_log_exp_witness :
  tmap exp 1 (safe_log_val epsilon 1 [-2000]) = reg_vals_val epsilon 1 [-2000].
Proof.
  exact (proj1 (proj2 (safe_log_exp epsilon 1 [-2000] epsilon_pos))).
Defined.

(** ** mu_binner at the ends of the grid *)

(** X7: A distance modulus below the first edge and one at or above the lower
    edge of the last bin (in particular one above the top edge) are marked
    in the same place, the last bin: [mu_binner] gives both the same array. *)
Theorem mu_binner_ends_collide (sim : SimInfo) (mu mu' : R)
    (Hbins : (1 <= n_mus sim)%nat)
    (Hedges : length (mu_bins sim) = S (n_mus sim))
    (Hinc : increasing (mu_bins sim))
    (Hlow : mu < nth 0 (mu_bins sim) 0)
    (Hhigh : nth (n_mus sim - 1) (mu_bins sim) 0 <= mu') :
  mu_binner sim [mu] = mu_binner sim [mu'] /\
  mu_binner sim [mu']
  = Return (repeat [add_at (repeat 0 (n_mus sim)) (n_mus sim - 1) 1] (n_types sim)).
Proof.
  set (a := removelast (mu_bins sim)).
  assert (Hlen : length a = n_mus sim) by (apply length_removelast; exact Hedges).
  assert (Hzero : bisect a mu = 0%nat).
  { unfold bisect. apply bisect_loop_all_above. intros j Hj. rewrite Hlen in Hj.
    unfold a. rewrite nth_removelast by lia.
    apply Rlt_le_trans with (1 := Hlow). apply increasing_first; auto. lia. }
  assert (Hall : bisect a mu' = n_mus sim).
  { rewrite <- Hlen. apply bisect_all_below.
    - apply increasing_removelast. exact Hinc.
    - intros i Hi. rewrite Hlen in Hi. unfold a. rewrite nth_removelast by lia.
      apply Rle_trans with (2 := Hhigh). apply increasing_le; auto. lia. }
  rewrite !(mu_binner_marked sim Hbins Hedges). fold a. simpl map.
  rewrite Hzero, Hall.
  assert (E : marked_bin (n_mus sim) (n_mus sim) = (n_mus sim - 1)%nat)
    by (destruct (n_mus sim); simpl; lia).
  rewrite E. simpl. split; reflexivity.
Qed.

Lemma mu_binner_ends_collide_witness :
  mu_binner Toy.sim [44] = mu_binner Toy.sim [50].
Proof.
  refine (proj1 (mu_binner_ends_collide Toy.sim 44 50 _ eq_refl toy_increasing _ _)).
  - simpl. lia.
  - simpl. lra.
  - simpl. lra.
Defined.

Lemma index_empty (i : Z) : Py.index 0 i = Raise IndexError.
Proof.
  unfold Py.index.
  destruct (0 <=? i)%Z eqn:E.
  - destruct (i <? Z.of_nat 0)%Z eqn:E'; [|reflexivity].
    apply Z.leb_le in E. apply Z.ltb_lt in E'. simpl in E'. lia.
  - destruct (0 <=? i + Z.of_nat 0)%Z eqn:E'; [|reflexivity].
    apply Z.leb_gt in E. apply Z.leb_le in E'. simpl in E'. lia.
Qed.

(** X8: On a grid without distance-modulus bins [mu_binner] raises
    [IndexError] at the first distance modulus; without any distance
    modulus to bin it returns [n_types] empty matrices. *)
Theorem mu_binner_no_bins (sim : SimInfo) (mus : list R)
    (Hbins : n_mus sim = 0%nat) :
  mu_binner sim mus
  = match mus with
    | [] => Return (repeat [] (n_types sim))
    | _ :: _ => Raise IndexError
    end.
Proof.
  unfold mu_binner. destruct mus as [|mu mus]; simpl; [reflexivity|].
  unfold mu_row at 1. rewrite Hbins, index_empty. reflexivity.
Qed.

Lemma mu_binner_no_bins_witness :
  mu_binner Toy.sim_no_mu [441 / 10] = Raise IndexError.
Proof.
  exact (mu_binner_no_bins Toy.sim_no_mu [441 / 10] eq_refl).
Defined.

(** ** The chains that enter the statistic *)

Lemma map_nth_seq {A B : Type} (F : A -> B) (l : list A) (d : A) :
  map (fun c => F (nth c l d)) (seq 0 (length l)) = map F l.
Proof.
  induction l as [|x l IH]; simpl; [reflexivity|].
  f_equal. rewrite <- seq_shift, map_map. exact IH.
Qed.

Lemma skipn_seq_nth {A : Type} (l : list A) (d : A) :
  forall b, skipn b l = map (fun k => nth k l d) (seq b (length l - b)).
Proof.
  induction l as [|x l IH]; intros b.
  - now rewrite skipn_nil.
  - destruct b as [|b].
    + rewrite Nat.sub_0_r. rewrite (map_nth_seq (fun y => y)), map_id. reflexivity.
    + simpl skipn. simpl length. rewrite Nat.sub_succ, (IH b).
      rewrite <- seq_shift, map_map. reflexivity.
Qed.

(** X17: The slicing of [multi_parameter_gr_stat], operation by operation:
    swapping the walker and iteration axes, dropping the first [n_burn_ins]
    iterations, selecting parameter [i] and transposing gives, for every
    walker, the values of parameter [i] at that walker's iterations from
    [n_burn_ins] on: one chain per walker, each of
    [n_iterations - n_burn_ins] samples. *)
Theorem chains_of_parameter_kept (sample : tensor 3) (n_burn_ins i : nat)
    (Hrect : Forall (fun walker => length walker = n_columns sample) sample) :
  chains_of_parameter sample n_burn_ins i = kept_chains sample n_burn_ins i /\
  length (kept_chains sample n_burn_ins i) = length sample /\
  Forall (fun c => length c = (n_columns sample - n_burn_ins)%nat)
         (kept_chains sample n_burn_ins i).
Proof.
  split; [|split].
  - unfold chains_of_parameter, transpose, take_param, swapaxes_0_1, kept_chains.
    rewrite <- (map_nth_seq
                  (fun walker => map (fun it => nth i it 0) (skipn n_burn_ins walker))
                  sample []).
    apply map_ext_in. intros c Hc. apply in_seq in Hc.
    assert (Hlen : length (nth c sample []) = n_columns sample).
    { rewrite Forall_forall in Hrect. apply Hrect, nth_In. lia. }
    rewrite skipn_map, skipn_seq, !map_map.
    rewrite (skipn_seq_nth (nth c sample []) []), Hlen, map_map.
    apply map_ext. intros it.
    rewrite map_map.
    apply (nth_map_lt (fun w : list (list R) => nth i (nth it w []) 0) [] 0). lia.
  - unfold kept_chains. apply length_map.
  - unfold kept_chains. apply Forall_forall. intros c Hc.
    apply in_map_iff in Hc. destruct Hc as [walker [<- Hw]].
    rewrite length_map, length_skipn.
    rewrite Forall_forall in Hrect. now rewrite (Hrect _ Hw).
Qed.

Lemma chains_of_parameter_kept_witness :
  chains_of_parameter (full_chain Toy.stuck_after) 2 0
  = kept_chains (full_chain Toy.stuck_after) 2 0.
Proof.
  refine (proj1 (chains_of_parameter_kept (full_chain Toy.stuck_after) 2 0 _)).
  repeat constructor.
Defined.

(** ** The grid axes *)

Lemma nth_mids (bins : list R) (n k : nat) :
  length bins = S n -> (k < n)%nat ->
  nth k (mids bins) 0 = (nth (S k) bins 0 + nth k bins 0) / 2.
Proof.
  intros Hlen Hk. unfold mids.
  assert (Htl : length (tl bins) = n) by (destruct bins; simpl in *; lia).
  rewrite (nth_map_lt (fun s => s / 2) 0 0)
    by (rewrite length_zip_with, (length_removelast bins n Hlen); lia).
  rewrite (nth_zip_with Rplus 0 0 0)
    by (try rewrite (length_removelast bins n Hlen); lia).
  rewrite nth_tl, nth_removelast by lia. reflexivity.
Qed.

Lemma np_sum_app (l l' : list R) : np_sum (l ++ l') = np_sum l + np_sum l'.
Proof.
  induction l as [|x l IH]; cbn [app].
  - unfold np_sum at 2. simpl. lra.
  - rewrite !np_sum_cons, IH. lra.
Qed.

Lemma big_sum_S (n : nat) (f : nat -> R) : big_sum (S n) f = big_sum n f + f n.
Proof.
  unfold big_sum. rewrite seq_S, map_app, np_sum_app. cbn [map Nat.add].
  rewrite np_sum_cons. change (np_sum []) with 0. lra.
Qed.

Lemma big_sum_telescope (n : nat) (f : nat -> R) :
  big_sum n (fun k => f (S k) - f k) = f n - f 0%nat.
Proof.
  induction n as [|n IH].
  - unfold big_sum, np_sum. simpl. lra.
  - rewrite big_sum_S, IH. lra.
Qed.

Lemma grid_axis_inside (bins : list R) (n k : nat) :
  length bins = S n -> increasing bins -> (k < n)%nat ->
  nth k bins 0 < nth k (mids bins) 0 < nth (S k) bins 0.
Proof.
  intros Hlen Hinc Hk. rewrite (nth_mids bins n k Hlen Hk).
  assert (nth k bins 0 < nth (S k) bins 0) by (apply Hinc; lia).
  lra.
Qed.

(** X5: A grid axis with strictly increasing edges: every width is positive,
    every midpoint lies strictly inside its bin, and the widths add up to
    the distance between the first and the last edge. *)
Theorem grid_axis (bins : list R) (n : nat)
    (Hlen : length bins = S n) (Hinc : increasing bins) :
  length (difs bins) = n /\ length (mids bins) = n /\
  (forall k, (k < n)%nat ->
     0 < nth k (difs bins) 0 /\
     nth k bins 0 < nth k (mids bins) 0 < nth (S k) bins 0) /\
  np_sum (difs bins) = nth n bins 0 - nth 0 bins 0.
Proof.
  split; [now apply length_difs|]. split; [now apply length_mids|]. split.
  - intros k Hk. split; [now apply (difs_pos bins n)|].
    now apply (grid_axis_inside bins n).
  - rewrite np_sum_nth, (length_difs bins n Hlen).
    rewrite (big_sum_ext _ _ (fun k => nth (S k) bins 0 - nth k bins 0))
      by (intros k Hk; now apply (nth_difs bins n)).
    apply (big_sum_telescope n (fun k => nth k bins 0)).
Qed.

Lemma grid_axis_witness : np_sum (difs [45; 46; 47]) = 47 - 45.
Proof.
  exact (proj2 (proj2 (proj2 (grid_axis [45; 46; 47] 2 eq_refl toy_increasing)))).
Defined.

(** ** mu_binner at the midpoints of the bins *)

Lemma bisect_in_bin (a : list R) (x : R) (c : nat) :
  increasing a -> (c < length a)%nat -> nth c a 0 <= x ->
  (forall i, (c < i < length a)%nat -> x < nth i a 0) ->
  bisect a x = S c.
Proof.
  intros Hinc Hc Hlow Hhigh.
  destruct (bisect_split a x Hinc) as [Hbelow Habove].
  pose proof (bisect_bounds a x) as Hb.
  destruct (lt_eq_lt_dec (bisect a x) (S c)) as [[Hlt|Heq]|Hgt].
  - exfalso. assert (x < nth c a 0) by (apply Habove; lia). lra.
  - exact Heq.
  - exfalso. assert (nth (S c) a 0 <= x) by (apply Hbelow; lia).
    assert (x < nth (S c) a 0) by (apply Hhigh; lia). lra.
Qed.

(** X6: Binning the midpoints of the distance-modulus bins gives the identity:
    on a grid with increasing edges, [mu_binner(mu_mids)] returns, for
    every type, the matrix whose row [k] has its 1 at position [k]. *)
Theorem mu_binner_mids (sim : SimInfo)
    (Hbins : (1 <= n_mus sim)%nat)
    (Hedges : length (mu_bins sim) = S (n_mus sim))
    (Hinc : increasing (mu_bins sim)) :
  mu_binner sim (mu_mids sim)
  = Return (repeat (map (fun k => add_at (repeat 0 (n_mus sim)) k 1)
                        (seq 0 (n_mus sim)))
                   (n_types sim)).
Proof.
  rewrite (mu_binner_marked sim Hbins Hedges). do 2 f_equal.
  set (a := removelast (mu_bins sim)).
  assert (Hlen : length a = n_mus sim) by (apply length_removelast; exact Hedges).
  rewrite <- (map_nth_seq _ (mu_mids sim) 0).
  unfold mu_mids at 2. rewrite (length_mids _ _ Hedges).
  apply map_ext_in. intros k Hk. apply in_seq in Hk. f_equal.
  destruct (grid_axis_inside (mu_bins sim) (n_mus sim) k Hedges Hinc) as [Hlo Hhi];
    [lia|].
  unfold mu_mids. rewrite (bisect_in_bin a _ k).
  - reflexivity.
  - apply increasing_removelast. exact Hinc.
  - lia.
  - unfold a. rewrite nth_removelast by lia. lra.
  - intros i Hi. unfold a. rewrite nth_removelast by lia.
    apply Rlt_le_trans with (1 := Hhi). apply increasing_le; [exact Hinc | lia].
Qed.

Lemma mu_binner_mids_witness :
  mu_binner Toy.sim (mu_mids Toy.sim)
  = Return (repeat (map (fun k => add_at (repeat 0 2) k 1) (seq 0 2)) 1).
Proof.
  refine (mu_binner_mids Toy.sim _ eq_refl toy_increasing).
  simpl. lia.
Defined.

(** ** Grids on which the in-bounds branch returns *)

Lemma np_sum_ge_term (l : list R) (x : R) :
  Forall (fun y => 0 <= y) l -> In x l -> x <= np_sum l.
Proof.
  induction l as [|y l IH]; intros Hall Hin; [contradiction|].
  inversion Hall as [|? ? Hy Hl]; subst. rewrite np_sum_cons.
  pose proof (np_sum_nonneg l Hl).
  destruct Hin as [->|Hin]; [lra|].
  specialize (IH Hl Hin). lra.
Qed.

Lemma big_sum_ge_term (n : nat) (f : nat -> R) (j : nat) :
  (forall i, (i < n)%nat -> 0 <= f i) -> (j < n)%nat -> f j <= big_sum n f.
Proof.
  intros Hf Hj. unfold big_sum. apply np_sum_ge_term.
  - apply Forall_forall. intros y Hy. apply in_map_iff in Hy.
    destruct Hy as [i [<- Hi]]. apply in_seq in Hi. apply Hf. lia.
  - apply in_map, in_seq. lia.
Qed.

Lemma big_sum_pos (n : nat) (f : nat -> R) :
  (1 <= n)%nat -> (forall i, (i < n)%nat -> 0 < f i) -> 0 < big_sum n f.
Proof.
  intros Hn Hf. apply Rlt_le_trans with (f 0%nat); [apply Hf; lia|].
  apply big_sum_ge_term; [|lia]. intros i Hi. left. now apply Hf.
Qed.

(** The element at [[t][z][k]] of the array summed on line 439. *)
Lemma at3_asserted_array (sim : SimInfo) (d : tensor 3) (t z k : nat) :
  has_shape3 (n_types sim) (n_zs sim) (n_mus sim) d ->
  length (z_difs sim) = n_zs sim ->
  length (mu_difs sim) = n_zs sim ->
  (t < n_types sim)%nat -> (z < n_zs sim)%nat -> (k < n_mus sim)%nat ->
  at3 (zip_with (fun plane c => map (map (fun x => x * c)) plane)
         (map (fun plane =>
                 zip_with (fun row c => map (fun x => x * c) row) plane (mu_difs sim))
            (map (fun plane =>
                    zip_with (fun row c => map (fun x => x * c) row) plane (z_difs sim))
                 d))
         (repeat 1 (n_types sim))) t z k
  = at3 d t z k * nth z (z_difs sim) 0 * nth z (mu_difs sim) 0 * 1.
Proof.
  intros Hshape Hzd Hmd Ht Hz Hk.
  destruct (shape3_plane _ _ _ d t Hshape Ht) as [HZ HM].
  specialize (HM z Hz). pose proof (proj1 Hshape) as HT.
  unfold at3.
  rewrite (nth_zip_with _ [] 0 [])
    by (rewrite ?length_map, ?repeat_length; lia).
  rewrite nth_repeat_lt by exact Ht.
  rewrite (nth_map_lt (A:=list (list R)) (B:=list (list R)) _ [] [])
    by (rewrite length_map; lia).
  rewrite (nth_map_lt (A:=list (list R)) (B:=list (list R)) _ [] [] d) by lia.
  rewrite (nth_map_lt (map (fun x => x * 1)) [] [])
    by (rewrite !length_zip_with; lia).
  rewrite (nth_zip_with _ [] 0 []) by (rewrite ?length_zip_with; lia).
  rewrite (nth_zip_with _ [] 0 []) by lia.
  rewrite (nth_map_lt (fun x => x * 1) 0 0) by (rewrite !length_map; lia).
  rewrite (nth_map_lt _ 0 0) by (rewrite length_map; lia).
  rewrite (nth_map_lt _ 0 0) by lia.
  reflexivity.
Qed.

Lemma marked_entry_one (sim : SimInfo) (mus : list R) (t z : nat) :
  (1 <= n_mus sim)%nat -> length (mu_bins sim) = S (n_mus sim) ->
  (t < n_types sim)%nat -> (z < length mus)%nat ->
  exists k, (k < n_mus sim)%nat /\
    at3 (repeat
           (map (fun mu => add_at (repeat 0 (n_mus sim))
                   (marked_bin (n_mus sim) (bisect (removelast (mu_bins sim)) mu)) 1)
                mus)
           (n_types sim)) t z k = 1.
Proof.
  intros HM Hedges Ht Hz.
  set (row := fun mu => add_at (repeat 0 (n_mus sim))
                (marked_bin (n_mus sim) (bisect (removelast (mu_bins sim)) mu)) 1).
  exists (marked_bin (n_mus sim) (bisect (removelast (mu_bins sim)) (nth z mus 0))).
  assert (Hk : (marked_bin (n_mus sim)
                  (bisect (removelast (mu_bins sim)) (nth z mus 0%R)) < n_mus sim)%nat).
  { apply marked_bin_lt; [exact HM|].
    pose proof (bisect_bounds (removelast (mu_bins sim)) (nth z mus 0)) as Hb.
    now rewrite (length_removelast _ _ Hedges) in Hb. }
  split; [exact Hk|].
  unfold at3. rewrite (nth_repeat_lt (map row mus)) by exact Ht.
  rewrite (nth_map_lt row 0 [] mus z Hz). unfold row.
  rewrite nth_add_at_same by (rewrite repeat_length; exact Hk).
  rewrite nth_repeat_0. lra.
Qed.

Lemma isclose_same (x : R) : isclose x x = true.
Proof.
  unfold isclose. rewrite Rminus_diag, Rabs_R0.
  destruct (Rle_dec 0 _) as [|Hn]; [reflexivity|].
  exfalso. apply Hn. pose proof (Rabs_pos x).
  assert (0 < 1 / 10 ^ 8) by (apply Rdiv_lt_0_compat; [lra | apply pow_lt; lra]).
  assert (0 < 1 / 10 ^ 5) by (apply Rdiv_lt_0_compat; [lra | apply pow_lt; lra]).
  assert (0 <= 1 / 10 ^ 5 * Rabs x) by (apply Rmult_le_pos; lra).
  lra.
Qed.

(** X9: On a grid with as many redshift bins as distance-modulus bins (at
    least one) and distance-modulus bins of one width, with increasing
    edges, the assertion of line 439 holds: [lnhyperlikelihood] returns for
    every in-bounds hyperparameter vector, with a new array and without
    changing any array that existed before. *)
Theorem lnhyperlikelihood_returns_uniform (sim : SimInfo)
    (distmod : R -> R -> R -> R) (g : Globals) (h : Hyper) (s : store)
    (Hws : well_shaped sim)
    (Hz_inc : increasing (z_bins sim)) (Hmu_inc : increasing (mu_bins sim))
    (HT : (1 <= n_types sim)%nat) (HZ : (1 <= n_zs sim)%nat)
    (Hsquare : n_zs sim = n_mus sim)
    (Huniform : forall k, (k < n_mus sim)%nat ->
                  nth k (mu_difs sim) 0 = nth 0 (mu_difs sim) 0)
    (Hin : param_check h = true) :
  exists r s',
    lnhyperlikelihood sim distmod g h s = Return (r, s') /\
    (length s <= r)%nat /\ extends s s'.
Proof.
  assert (HM : (1 <= n_mus sim)%nat) by lia.
  pose proof (length_difs _ _ (ws_z_bins Hws)) as Hzd.
  pose proof (length_difs _ _ (ws_mu_bins Hws)) as Hmd.
  pose proof (mu_binner_marked sim HM (ws_mu_bins Hws)
                (map (distmod (H0 h) (Om0 h)) (z_mids sim))) as Hbin.
  pose proof (marked_entries_nonneg sim
                (map (distmod (H0 h) (Om0 h)) (z_mids sim))) as Hentries.
  pose proof (fun t z => marked_entry_one sim
                (map (distmod (H0 h) (Om0 h)) (z_mids sim)) t z HM (ws_mu_bins Hws))
    as Hone.
  match type of Hbin with _ = Return ?t => set (matrix := t) in * end.
  pose proof (mu_binner_shape sim _ matrix Hbin) as Hshape.
  rewrite length_map in Hshape, Hone.
  unfold z_mids in Hshape, Hone.
  rewrite (length_mids _ _ (ws_z_bins Hws)) in Hshape, Hone.
  fold (z_mids sim) in Hone.
  assert (Hwz : forall z, (z < n_zs sim)%nat -> 0 < nth z (difs (z_bins sim)) 0)
    by (intros z Hz; now apply (difs_pos _ _ _ (ws_z_bins Hws))).
  assert (Hwm : forall k, (k < n_mus sim)%nat -> 0 < nth k (difs (mu_bins sim)) 0)
    by (intros k Hk; now apply (difs_pos _ _ _ (ws_mu_bins Hws))).
  assert (HTpos : 0 < INR (n_types sim)) by (apply lt_0_INR; lia).
  assert (Hpos : 0 < weighted_sum sim matrix).
  { unfold weighted_sum. apply big_sum_pos; [exact HT|]. intros t Ht.
    apply big_sum_pos; [exact HZ|]. intros z Hz.
    destruct (Hone t z Ht Hz) as [k0 [Hk0 Hval]].
    apply Rlt_le_trans with
      (at3 matrix t z k0 * nth k0 (difs (mu_bins sim)) 0
       * nth z (difs (z_bins sim)) 0 / INR (n_types sim)).
    - rewrite Hval. apply Rdiv_lt_0_compat; [|exact HTpos].
      apply Rmult_lt_0_compat; [|now apply Hwz].
      rewrite Rmult_1_l. now apply Hwm.
    - apply (big_sum_ge_term (n_mus sim)
               (fun k => at3 matrix t z k * nth k (difs (mu_bins sim)) 0
                         * nth z (difs (z_bins sim)) 0 / INR (n_types sim)));
        [|exact Hk0].
      intros k Hk. apply Rle_mult_inv_pos; [|exact HTpos].
      apply Rmult_le_pos; [|left; now apply Hwz].
      apply Rmult_le_pos; [apply Hentries | left; now apply Hwm]. }
  set (norm := weighted_sum sim matrix) in *.
  set (d' := tmap (fun x => x / norm) 3 matrix).
  assert (Hd' : has_shape3 (n_types sim) (n_zs sim) (n_mus sim) d')
    by (apply tmap_shape3; exact Hshape).
  assert (Hmd' : length (mu_difs sim) = n_zs sim) by (unfold mu_difs; lia).
  change (length (z_difs sim) = n_zs sim) in Hzd.
  change (length (mu_difs sim) = n_mus sim) in Hmd.
  assert (Hsum : asserted_sum sim d' = Return 1).
  { unfold asserted_sum.
    rewrite (times_axis1_same _ _ _ _ d' Hd' Hzd). cbn [Py.bind].
    pose proof (times_axis1_shape _ _ _ _ d' Hd' Hzd) as Hd1.
    rewrite (times_axis1_same _ _ _ _ _ Hd1 Hmd'). cbn [Py.bind].
    pose proof (times_axis1_shape _ _ _ _ _ Hd1 Hmd') as Hd2.
    rewrite times_axis0_same
      by (rewrite !length_map, repeat_length; apply (proj1 Hd')).
    cbn [Py.bind]. f_equal.
    match goal with |- np_sum3 (over_n_types sim ?X) = _ => set (x := X) end.
    assert (Hx : has_shape3 (n_types sim) (n_zs sim) (n_mus sim) x)
      by (apply times_axis0_shape; exact Hd2).
    unfold over_n_types.
    rewrite (np_sum3_at3 (n_types sim) (n_zs sim) (n_mus sim))
      by (apply tmap_shape3; exact Hx).
    assert (E : weighted_sum sim d' = 1).
    { unfold d'. rewrite weighted_sum_scale by exact Hshape. fold norm.
      field. lra. }
    rewrite <- E. unfold weighted_sum. fold (z_difs sim) (mu_difs sim).
    apply big_sum_ext. intros t Ht. apply big_sum_ext. intros z Hz.
    apply big_sum_ext. intros k Hk.
    rewrite (at3_tmap _ _ _ _ x t z k Hx Ht Hz Hk). unfold x.
    rewrite at3_asserted_array by assumption.
    rewrite (Huniform z) by lia. rewrite (Huniform k) by lia.
    unfold Rdiv. ring. }
  assert (Hrun : lnhyperlikelihood sim distmod g h s
                 = Return (S (length s),
                           (s ++ [nd (d:=3) d'])
                             ++ [nd (d:=3) (safe_log_val epsilon 3 d')])).
  { rewrite (lnhyperlikelihood_inside sim distmod g h matrix Hin Hbin).
    apply (normalised_log_run sim matrix s norm 1).
    - now apply normaliser_weighted.
    - lra.
    - exact Hsum.
    - apply isclose_same. }
  eexists. eexists. split; [exact Hrun|]. split; [lia|].
  eapply extends_trans; apply extends_alloc.
Qed.

Lemma toy11_increasing_z : increasing (z_bins Toy.sim11).
Proof.
  intros i j [Hij Hj]. simpl in Hj.
  destruct i as [|[|i]], j as [|[|j]]; simpl; try lia; lra.
Qed.

Lemma toy11_increasing_mu : increasing (mu_bins Toy.sim11).
Proof.
  intros i j [Hij Hj]. simpl in Hj.
  destruct i as [|[|i]], j as [|[|j]]; simpl; try lia; lra.
Qed.

Lemma lnhyperlikelihood_returns_uniform_witness :
  exists r s',
    lnhyperlikelihood Toy.sim11 Toy.distmod_44 setup_globals Toy.inside
                      (setup_store Toy.sim11) = Return (r, s').
Proof.
  destruct (lnhyperlikelihood_returns_uniform Toy.sim11 Toy.distmod_44 setup_globals
              Toy.inside (setup_store Toy.sim11) toy11_well_shaped
              toy11_increasing_z toy11_increasing_mu)
    as [r [s' [Hrun _]]].
  - simpl. lia.
  - simpl. lia.
  - reflexivity.
  - intros k Hk. simpl in Hk. destruct k; [reflexivity | lia].
  - exact toy_param_check.
  - exists r, s'. exact Hrun.
Defined.

(** X10: whenever an in-bounds call of [lnhyperlikelihood] returns, on a
    grid with increasing edges, the exponential of the array it returns
    integrates over the grid to at least 1 and at most 1 plus [epsilon]
    times the area of the grid (the floor that [safe_log] puts under the
    empty cells); for an area up to [1e300] that is 1 within [1e-6]. *)
Theorem lnhyperlikelihood_integrates_to_one (sim : SimInfo)
    (distmod : R -> R -> R -> R) (g : Globals) (h : Hyper) (s s' : store) (r : ref)
    (Hws : well_shaped sim)
    (Hz_inc : increasing (z_bins sim)) (Hmu_inc : increasing (mu_bins sim))
    (HT : (1 <= n_types sim)%nat) (HM : (1 <= n_mus sim)%nat)
    (Hin : param_check h = true)
    (Hrun : lnhyperlikelihood sim distmod g h s = Return (r, s')) :
  exists nt,
    nth_error s' r = Some (nd (d:=3) nt) /\
    1 <= grid_integral sim nt
      <= 1 + epsilon * (np_sum (z_difs sim) * np_sum (mu_difs sim)) /\
    (0 <= np_sum (z_difs sim) * np_sum (mu_difs sim) <= 10 ^ 300 ->
     Rabs (grid_integral sim nt - 1) <= / 10 ^ 6).
Proof.
  destruct (lnhyperlikelihood_normalised sim Hws Hz_inc Hmu_inc HT distmod g h s s' r
              HM Hin Hrun) as [nt [Hnt [Hlo Hhi]]].
  exists nt. split; [exact Hnt|]. split; [split; assumption|].
  intros Harea. pose proof (epsilon_negligible _ Harea).
  rewrite Rabs_right by lra. lra.
Qed.

Lemma lnhyperlikelihood_integrates_to_one_witness :
  exists r s' nt,
    lnhyperlikelihood Toy.sim11 Toy.distmod_44 setup_globals Toy.inside
                      (setup_store Toy.sim11) = Return (r, s') /\
    nth_error s' r = Some (nd (d:=3) nt) /\
    1 <= grid_integral Toy.sim11 nt.
Proof.
  destruct lnhyperlikelihood_returns_single_cell as [r [s' Hrun]].
  destruct (lnhyperlikelihood_integrates_to_one Toy.sim11 Toy.distmod_44 setup_globals
              Toy.inside (setup_store Toy.sim11) s' r toy11_well_shaped
              toy11_increasing_z toy11_increasing_mu)
    as [nt [Hnt [[Hlo _] _]]].
  - simpl. lia.
  - simpl. lia.
  - exact toy_param_check.
  - exact Hrun.
  - exists r, s', nt. split; [exact Hrun|]. split; [exact Hnt | exact Hlo].
Defined.

(** ** The posterior as a function of the hyperparameters alone *)

Lemma normalised_log_steps (sim : SimInfo) (matrix : tensor 3) (s : store) :
  normalised_log sim matrix s
  = match normaliser sim matrix with
    | Return norm =>
        let d' := tmap (fun x => x / norm) 3 matrix in
        match asserted_sum sim d' with
        | Return total =>
            if Req_dec_T norm 0 then Raise AssertionError
            else if isclose total 1
            then Return (S (length s),
                         (s ++ [nd (d:=3) d'])
                           ++ [nd (d:=3) (safe_log_val epsilon 3 d')])
            else Raise AssertionError
        | Raise e => Raise e
        end
    | Raise e => Raise e
    end.
Proof.
  unfold normalised_log.
  unfold Store.bind at 1. unfold alloc at 1.
  unfold Store.bind at 1. rewrite (read_as_nd 3 matrix) by apply nth_error_alloc_new.
  unfold Store.bind at 1. unfold lift at 1.
  destruct (normaliser sim matrix) as [norm|e]; cbn [Py.fmap Py.bind];
    [|reflexivity].
  unfold Store.bind at 1. unfold idiv at 1. unfold Store.bind at 1, read at 1.
  rewrite nth_error_alloc_new. unfold write at 1. rewrite nth_error_alloc_new.
  rewrite update_alloc.
  change (nd_map (fun x => x / norm) (nd (d:=3) matrix))
    with (nd (d:=3) (tmap (fun x => x / norm) 3 matrix)).
  cbv zeta. set (d' := tmap (fun x => x / norm) 3 matrix).
  unfold Store.bind at 1. rewrite (read_as_nd 3 d') by apply nth_error_alloc_new.
  unfold Store.bind at 1. unfold lift at 1.
  destruct (asserted_sum sim d') as [total|e]; cbn [Py.fmap Py.bind];
    [|reflexivity].
  unfold Store.bind at 1.
  destruct (Req_dec_T norm 0) as [Hz|Hnz]; [reflexivity|].
  destruct (isclose total 1); [|reflexivity].
  unfold Store.ret at 1.
  rewrite (safe_log_run _ _ (nd (d:=3) d')) by apply nth_error_alloc_new.
  f_equal. f_equal.
  - rewrite length_app. simpl. lia.
  - unfold nd_map. cbn [projT1 projT2]. now rewrite <- safe_log_val_tmap.
Qed.

Lemma normalised_log_outcome (sim : SimInfo) (matrix : tensor 3) (s : store) :
  match normalised_value sim matrix with
  | Return nt =>
      exists d', normalised_log sim matrix s
                 = Return (S (length s), (s ++ [nd (d:=3) d']) ++ [nd (d:=3) nt])
  | Raise e => normalised_log sim matrix s = Raise e
  end.
Proof.
  rewrite normalised_log_steps. unfold normalised_value.
  destruct (normaliser sim matrix) as [norm|e]; cbn [Py.bind]; [|reflexivity].
  cbv zeta.
  destruct (asserted_sum sim _) as [total|e]; cbn [Py.bind]; [|reflexivity].
  destruct (Req_dec_T norm 0); [reflexivity|].
  destruct (isclose total 1); [|reflexivity].
  eexists. reflexivity.
Qed.

Lemma lnposterior_raises (sim : SimInfo) (distmod : R -> R -> R -> R)
    (g : Globals) (h : Hyper) (s : store) (e : exn) :
  lnhyperlikelihood sim distmod g h s = Raise e ->
  lnposterior sim distmod g h s = Raise e.
Proof.
  intros H. unfold lnposterior, Store.bind. now rewrite H.
Qed.

(** The outcome of [lnposterior] does not depend on the store it runs in,
    as long as the module-level arrays hold their set-up contents. *)
Lemma lnposterior_pure (sim : SimInfo) (distmod : R -> R -> R -> R)
    (g : Globals) (h : Hyper) (s : store) :
  well_shaped sim -> loaded sim g s ->
  Py.fmap fst (lnposterior sim distmod g h s) = lnposterior_value sim distmod h /\
  forall v s2, lnposterior sim distmod g h s = Return (v, s2) -> extends s s2.
Proof.
  intros Hws Hload. unfold lnposterior_value.
  assert (Hret : forall r s1,
    lnhyperlikelihood sim distmod g h s = Return (r, s1) ->
    exists nt s2,
      nth_error s1 r = Some (nd (d:=3) nt) /\
      lnposterior sim distmod g h s = Return (log_posterior_spec sim nt, s2) /\
      extends s s2).
  { intros r s1 Hhl.
    destruct (lnhyperlikelihood_returns sim distmod g h s s1 r Hws Hload Hhl)
      as [nt [Hnt [Hshape Hext]]].
    pose proof (loaded_extends sim g s s1 Hload Hext) as Hload1.
    destruct (lnposterior_run sim distmod g h s s1 r nt Hhl Hnt Hload1)
      as [s2 [Hrun Hext2]].
    exists nt, s2. split; [exact Hnt|]. split.
    - rewrite Hrun. now rewrite log_posterior_refines.
    - eapply extends_trans; eassumption. }
  destruct (param_check h) eqn:Hin.
  - destruct (mu_binner sim (map (distmod (H0 h) (Om0 h)) (z_mids sim)))
      as [matrix|e] eqn:Hbin.
    + pose proof (lnhyperlikelihood_inside sim distmod g h matrix Hin Hbin s) as Hhl.
      pose proof (normalised_log_outcome sim matrix s) as Hout.
      cbn [Py.bind].
      destruct (normalised_value sim matrix) as [nt|e].
      * destruct Hout as [d' Hout]. rewrite Hout in Hhl.
        destruct (Hret _ _ Hhl) as [nt' [s2 [Hnt [Hrun Hext]]]].
        assert (Hnew : nth_error ((s ++ [nd (d:=3) d']) ++ [nd (d:=3) nt]) (S (length s))
                       = Some (nd (d:=3) nt)).
        { replace (S (length s)) with (length (s ++ [nd (d:=3) d']))
            by (rewrite length_app; simpl; lia).
          apply nth_error_alloc_new. }
        rewrite Hnew in Hnt. injection Hnt as Hnt. apply nd_inj in Hnt. subst nt'.
        rewrite Hrun. split; [reflexivity|].
        intros v s3 H. injection H as _ <-. exact Hext.
      * rewrite Hout in Hhl. rewrite (lnposterior_raises _ _ _ _ _ _ Hhl).
        split; [reflexivity | discriminate].
    + assert (Hhl : lnhyperlikelihood sim distmod g h s = Raise e).
      { unfold lnhyperlikelihood. rewrite Hin. unfold Store.bind, lift.
        now rewrite Hbin. }
      rewrite (lnposterior_raises _ _ _ _ _ _ Hhl).
      split; [reflexivity | discriminate].
  - pose proof (lnhyperlikelihood_outside_run sim distmod g h s Hin) as Hhl.
    destruct (Hret _ _ Hhl) as [nt' [s2 [Hnt [Hrun Hext]]]].
    destruct Hload as [_ Hflat]. rewrite Hflat in Hnt.
    injection Hnt as Hnt. apply nd_inj in Hnt. subst nt'.
    rewrite Hrun. split; [reflexivity|].
    intros v s3 H. injection H as _ <-. exact Hext.
Qed.

(** X11: Calls of [lnposterior] do not influence each other: after a call that
    returned, the module-level arrays still hold their set-up contents, and
    a call at any hyperparameters has the outcome (the value, or the
    exception) that it would have had before. *)
Theorem lnposterior_repeatable (sim : SimInfo) (distmod : R -> R -> R -> R)
    (g : Globals) (h h' : Hyper) (s s2 : store) (v : R)
    (Hws : well_shaped sim) (Hload : loaded sim g s)
    (Hrun : lnposterior sim distmod g h s = Return (v, s2)) :
  loaded sim g s2 /\
  Py.fmap fst (lnposterior sim distmod g h' s2)
  = Py.fmap fst (lnposterior sim distmod g h' s).
Proof.
  destruct (lnposterior_pure sim distmod g h s Hws Hload) as [_ Hext].
  pose proof (loaded_extends sim g s s2 Hload (Hext v s2 Hrun)) as Hload2.
  split; [exact Hload2|].
  rewrite (proj1 (lnposterior_pure sim distmod g h' s2 Hws Hload2)).
  now rewrite (proj1 (lnposterior_pure sim distmod g h' s Hws Hload)).
Qed.

Lemma np_sum_map_lower {A : Type} (f : A -> R) (c : R) (l : list A) :
  (forall x, In x l -> c <= f x) -> INR (length l) * c <= np_sum (map f l).
Proof.
  induction l as [|x l IH]; intros H.
  - simpl. unfold np_sum. simpl. lra.
  - change (length (x :: l)) with (S (length l)). rewrite S_INR.
    cbn [map]. rewrite np_sum_cons.
    assert (c <= f x) by (apply H; left; reflexivity).
    assert (INR (length l) * c <= np_sum (map f l))
      by (apply IH; intros y Hy; apply H; right; exact Hy).
    lra.
Qed.

Lemma length_const_term_value (sim : SimInfo) :
  well_shaped sim -> length (const_term_value sim) = n_SNe sim.
Proof.
  intros Hws. unfold const_term_value, reg_vals_val, per_object. cbn [tmap].
  rewrite !length_map. apply (proj1 (ws_posteriors Hws)).
Qed.

Lemma log_posterior_spec_lower (sim : SimInfo) (nt : tensor 3) :
  well_shaped sim -> INR (n_SNe sim) * ln epsilon <= log_posterior_spec sim nt.
Proof.
  intros Hws. unfold log_posterior_spec.
  rewrite <- (length_const_term_value sim Hws).
  apply np_sum_map_lower. intros obj _.
  pose proof epsilon_pos as Heps.
  destruct (Rle_lt_or_eq_dec _ _
              (Rmax_r (grid_integral sim (combined obj nt)) epsilon)) as [Hlt|Heq].
  - left. now apply ln_increasing.
  - rewrite <- Heq. lra.
Qed.

(** X12: Whenever [lnposterior] returns, its value is at least
    [n_SNe * ln(epsilon)]: every object contributes at least the floor
    [ln(epsilon)] that [safe_log] puts under its grid integral, so no
    object can drive the log-posterior to minus infinity. *)
Theorem lnposterior_lower_bound (sim : SimInfo) (distmod : R -> R -> R -> R)
    (g : Globals) (h : Hyper) (s s2 : store) (v : R)
    (Hws : well_shaped sim) (Hload : loaded sim g s)
    (Hrun : lnposterior sim distmod g h s = Return (v, s2)) :
  INR (n_SNe sim) * ln epsilon <= v.
Proof.
  destruct (lnposterior_pure sim distmod g h s Hws Hload) as [Hval _].
  rewrite Hrun in Hval. cbn in Hval. unfold lnposterior_value in Hval.
  destruct (param_check h).
  - destruct (mu_binner _ _) as [matrix|]; [|discriminate]. cbn [Py.bind] in Hval.
    destruct (normalised_value sim matrix) as [nt|]; [|discriminate].
    injection Hval as ->. now apply log_posterior_spec_lower.
  - injection Hval as ->. now apply log_posterior_spec_lower.
Qed.

(** X13: Outside the prior box the log-posterior is one constant, the value for
    the flat hyperlikelihood, whatever the hyperparameters and the
    cosmology's distance moduli; [lnhyperposterior] there is the log-prior
    plus that constant, floored at [log_epsilon]. *)
Theorem lnhyperposterior_outside (sim : SimInfo) (distmod norm_logpdf : R -> R -> R -> R)
    (g : Globals) (h : Hyper) (s : store)
    (Hws : well_shaped sim) (Hload : loaded sim g s)
    (Hout : H0 h <= min_H0 \/ max_H0 <= H0 h \/ Om0 h <= min_Om0 \/ max_Om0 <= Om0 h) :
  exists s2,
    lnposterior sim distmod g h s
    = Return (log_posterior_spec sim (flat_value sim), s2) /\
    lnhyperposterior sim distmod norm_logpdf g h s
    = Return (Rmax (norm_logpdf H0_mean H0_std (H0 h)
                    + norm_logpdf Om0_mean Om0_std (Om0 h)
                    + log_posterior_spec sim (flat_value sim)) log_epsilon, s2).
Proof.
  apply param_check_false_iff in Hout.
  destruct (lnposterior_pure sim distmod g h s Hws Hload) as [Hval _].
  unfold lnposterior_value in Hval. rewrite Hout in Hval.
  destruct (lnposterior sim distmod g h s) as [[v s2]|e] eqn:Hrun; [|discriminate].
  injection Hval as ->. exists s2. split; [reflexivity|].
  unfold lnhyperposterior. rewrite lnprior_value.
  unfold Store.bind, lift, Py.fmap, Py.bind. rewrite Hrun. unfold Store.ret.
  rewrite py_max_Rmax. do 3 f_equal. lra.
Qed.

Lemma toy_lnposterior_outside :
  exists s2,
    lnposterior Toy.sim Toy.distmod_44 setup_globals Toy.outside (setup_store Toy.sim)
    = Return (log_posterior_spec Toy.sim (flat_value Toy.sim), s2).
Proof.
  destruct (lnposterior_pure Toy.sim Toy.distmod_44 setup_globals Toy.outside
              (setup_store Toy.sim) toy_well_shaped (setup_loaded Toy.sim))
    as [Hval _].
  unfold lnposterior_value in Hval. rewrite toy_outside in Hval.
  destruct (lnposterior _ _ _ _ _) as [[v s2]|e]; [|discriminate].
  injection Hval as ->. now exists s2.
Qed.

Lemma lnposterior_repeatable_witness :
  exists s2,
    lnposterior Toy.sim Toy.distmod_44 setup_globals Toy.outside (setup_store Toy.sim)
    = Return (log_posterior_spec Toy.sim (flat_value Toy.sim), s2) /\
    Py.fmap fst (lnposterior Toy.sim Toy.distmod_44 setup_globals Toy.inside s2)
    = Py.fmap fst (lnposterior Toy.sim Toy.distmod_44 setup_globals Toy.inside
                     (setup_store Toy.sim)).
Proof.
  destruct toy_lnposterior_outside as [s2 Hrun].
  exists s2. split; [exact Hrun|].
  exact (proj2 (lnposterior_repeatable Toy.sim Toy.distmod_44 setup_globals
                  Toy.outside Toy.inside (setup_store Toy.sim) s2 _
                  toy_well_shaped (setup_loaded Toy.sim) Hrun)).
Defined.

Lemma lnposterior_lower_bound_witness :
  INR (n_SNe Toy.sim) * ln epsilon <= log_posterior_spec Toy.sim (flat_value Toy.sim).
Proof.
  destruct toy_lnposterior_outside as [s2 Hrun].
  exact (lnposterior_lower_bound Toy.sim Toy.distmod_44 setup_globals Toy.outside
           (setup_store Toy.sim) s2 _ toy_well_shaped (setup_loaded Toy.sim) Hrun).
Defined.

Lemma lnhyperposterior_outside_witness :
  exists s2,
    lnposterior Toy.sim Toy.distmod_44 setup_globals Toy.outside (setup_store Toy.sim)
    = Return (log_posterior_spec Toy.sim (flat_value Toy.sim), s2).
Proof.
  destruct (lnhyperposterior_outside Toy.sim Toy.distmod_44 Toy.gauss_logpdf
              setup_globals Toy.outside (setup_store Toy.sim)
              toy_well_shaped (setup_loaded Toy.sim)) as [s2 [Hrun _]].
  - left. unfold Toy.outside, min_H0. simpl. lra.
  - exists s2. exact Hrun.
Defined.

(** ** The convergence test *)

Lemma xmax_not_nan (a b : xreal) (t : R) :
  is_nan a = false -> is_nan b = false ->
  is_nan (xmax a b) = false /\
  xgt (xmax a b) (Fin t) = xgt a (Fin t) || xgt b (Fin t).
Proof.
  destruct a as [x| | |], b as [y| | |]; simpl; try discriminate; intros _ _;
    repeat match goal with
    | |- context [Rlt_dec ?u ?v] => destruct (Rlt_dec u v); simpl
    end; split; try reflexivity; try lra.
Qed.

Lemma fold_xmax_nan (xs : list xreal) (x : xreal) :
  existsb is_nan (x :: xs) = true -> fold_left xmax xs x = NaN.
Proof.
  revert x. induction xs as [|y xs IH]; intros x H; simpl in *.
  - rewrite orb_false_r in H. destruct x; simpl in H; congruence.
  - apply IH. simpl.
    destruct x, y; simpl in *; try reflexivity; try discriminate; try exact H;
      repeat match goal with
      | |- context [Rlt_dec ?u ?v] => destruct (Rlt_dec u v); simpl
      end; exact H.
Qed.

Lemma fold_xmax_not_nan (t : R) (xs : list xreal) (x : xreal) :
  existsb is_nan (x :: xs) = false ->
  xgt (fold_left xmax xs x) (Fin t) = existsb (fun v => xgt v (Fin t)) (x :: xs).
Proof.
  revert x. induction xs as [|y xs IH]; intros x H; simpl in *.
  - now rewrite orb_false_r.
  - apply orb_false_iff in H. destruct H as [Hx H].
    apply orb_false_iff in H. destruct H as [Hy H].
    destruct (xmax_not_nan x y t Hx Hy) as [Hn Hg].
    rewrite IH by (now rewrite Hn). rewrite Hg. now rewrite orb_assoc.
Qed.

(** X18: What [gr_test] answers, given the statistics [gr] of the parameters:
    with no parameter [np.max] raises [ValueError]; when any statistic is
    NaN the answer is [False] whatever the others are, even infinite;
    otherwise it is [True] exactly when some statistic exceeds the
    threshold. *)
Theorem gr_test_decides (sample : tensor 3) (threshold : R) (gr : list xreal)
    (Hgr : multi_parameter_gr_stat sample = Return gr) :
  gr_test sample threshold
  = match gr with
    | [] => Raise ValueError
    | _ :: _ =>
        Return (negb (existsb is_nan gr)
                && existsb (fun v => xgt v (Fin threshold)) gr)
    end.
Proof.
  unfold gr_test. rewrite Hgr. simpl.
  destruct gr as [|x xs]; [reflexivity|]. simpl np_max. cbv beta iota.
  unfold Py.bind. f_equal.
  destruct (existsb is_nan (x :: xs)) eqn:E.
  - now rewrite (fold_xmax_nan xs x E).
  - now rewrite (fold_xmax_not_nan threshold xs x E).
Qed.

Lemma gr_test_decides_witness :
  gr_test (full_chain Toy.stuck_after) gr_limit = Return false.
Proof.
  exact (gr_test_decides (full_chain Toy.stuck_after) gr_limit [NaN; NaN] stuck_gr).
Defined.

(** ** Exceptions of the statistic *)

Lemma INR_minus_one_zero (m : nat) : INR m - 1 = 0 <-> m = 1%nat.
Proof.
  split.
  - intros H. apply INR_eq. simpl. lra.
  - intros ->. simpl. lra.
Qed.

(** X14: The only exception of [single_parameter_gr_stat] is
    [ZeroDivisionError], raised exactly for a single chain ([m - 1.] is 0)
    and for chains without samples ([n] is 0); for two or more chains that
    have samples it returns a value (possibly infinite or NaN). *)
Theorem gr_stat_raises (row : list R) (rows : list (list R)) :
  match rows, row with
  | [], _ => single_parameter_gr_stat (row :: rows) = Raise ZeroDivisionError
  | _ :: _, [] => single_parameter_gr_stat (row :: rows) = Raise ZeroDivisionError
  | _ :: _, _ :: _ => exists v, single_parameter_gr_stat (row :: rows) = Return v
  end.
Proof.
  unfold single_parameter_gr_stat.
  set (m1 := INR (length (row :: rows)) - 1).
  set (n := INR (n_columns (row :: rows))).
  assert (Hm : m1 = 0 <-> rows = []).
  { unfold m1. rewrite INR_minus_one_zero. simpl. destruct rows; split; intros H;
      try reflexivity; try discriminate. }
  assert (Hn : n = 0 <-> row = []).
  { unfold n. simpl. destruct row; simpl length; split; intros H;
      try reflexivity; try discriminate.
    apply (not_0_INR (S (length row))) in H; [contradiction | lia]. }
  unfold py_div.
  destruct rows as [|row' rows].
  - destruct (Req_dec_T m1 0) as [_|H]; [reflexivity|]. now destruct H; apply Hm.
  - destruct (Req_dec_T m1 0) as [H|_]; [apply Hm in H; discriminate|].
    destruct row as [|x row].
    + destruct (Req_dec_T n 0) as [_|H]; [reflexivity|]. now destruct H; apply Hn.
    + destruct (Req_dec_T n 0) as [H|_]; [apply Hn in H; discriminate|].
      unfold Py.bind. eexists. reflexivity.
Qed.

(** ** The statistic in terms of the two variances *)

Lemma between_nonneg (chain : list (list R)) :
  (2 <= length chain)%nat -> 0 <= between_chain_variance chain.
Proof.
  intros Hm. unfold between_chain_variance.
  apply Rmult_le_pos.
  - apply Rmult_le_pos; [apply pos_INR|].
    left. apply Rinv_0_lt_compat. apply le_INR in Hm. simpl in Hm. lra.
  - apply (np_sum_squares_nonneg (fun xb => grand_mean chain - xb)).
Qed.

Lemma sqrt_le_one (x : R) : 0 <= x -> (sqrt x <= 1 <-> x <= 1).
Proof.
  intros Hx. split; intros H.
  - destruct (Rle_dec x 1) as [|Hgt]; [assumption|].
    assert (1 < sqrt x); [|lra].
    rewrite <- sqrt_1 at 1. apply sqrt_lt_1; lra.
  - rewrite <- sqrt_1. apply sqrt_le_1; lra.
Qed.

Lemma sqrt_above_limit (x : R) : 0 <= x -> (gr_limit < sqrt x <-> 144 / 100 < x).
Proof.
  intros Hx.
  assert (E : gr_limit = sqrt (144 / 100)).
  { unfold gr_limit. replace (144 / 100) with ((12 / 10) * (12 / 10)) by lra.
    rewrite sqrt_square; lra. }
  rewrite E. split; intros H.
  - apply sqrt_lt_0_alt in H; lra.
  - apply sqrt_lt_1; lra.
Qed.

(** X15: For at least two chains of at least two samples each with positive
    within-chain variance [W], the statistic is the real number [r] with
    [r^2 = (n-1)/n + B/(n W)], where [B] is the between-chain variance.  It
    is never below [sqrt((n-1)/n)]; it is at most 1 exactly when [B <= W];
    and it exceeds the burn-in threshold 1.2 exactly when
    [B > (1 + 0.44 n) W]. *)
Theorem gr_stat_between_within (chain : list (list R))
    (Hm : (2 <= length chain)%nat)
    (Hrows : Forall (fun row => (2 <= length row)%nat) chain)
    (HW : 0 < within_chain_variance chain) :
  let n := INR (n_columns chain) in
  let B := between_chain_variance chain in
  let W := within_chain_variance chain in
  exists r,
    single_parameter_gr_stat chain = Return (Fin r) /\
    r * r = (n - 1) / n + B / (n * W) /\
    sqrt ((n - 1) / n) <= r /\
    (r <= 1 <-> B <= W) /\
    (xgt (Fin r) (Fin gr_limit) = true <-> (1 + 44 / 100 * n) * W < B).
Proof.
  intros n B W.
  assert (Hne : chain <> []) by (destruct chain; simpl in Hm; [lia | discriminate]).
  assert (Hn : 2 <= n).
  { unfold n. apply (le_INR 2). now apply n_columns_ge. }
  assert (HB : 0 <= B) by now apply between_nonneg.
  fold W in HW.
  assert (Hq : pooled_variance chain / W = (n - 1) / n + B / (n * W)).
  { unfold pooled_variance. fold n B W. field. lra. }
  assert (Hbase : 0 <= (n - 1) / n).
  { apply Rmult_le_pos; [lra|]. left. apply Rinv_0_lt_compat. lra. }
  assert (Hextra : 0 <= B / (n * W)).
  { apply Rmult_le_pos; [lra|]. left. apply Rinv_0_lt_compat.
    apply Rmult_lt_0_compat; lra. }
  assert (Hnw : 0 < n * W) by (apply Rmult_lt_0_compat; lra).
  exists (sqrt ((n - 1) / n + B / (n * W))). split; [|split; [|split; [|split]]].
  - rewrite gr_stat_finite by assumption. fold W.
    rewrite xdiv_Fin by lra. rewrite Hq. unfold xsqrt.
    destruct (Rlt_dec _ 0) as [Hneg|_]; [lra | reflexivity].
  - apply sqrt_sqrt. lra.
  - apply sqrt_le_1; lra.
  - rewrite sqrt_le_one by lra. split; intros H.
    + assert (H1 : B / (n * W) <= 1 / n).
      { replace (1 / n) with (1 - (n - 1) / n) by (field; lra). lra. }
      apply (Rmult_le_compat_r (n * W)) in H1; [|lra].
      replace (B / (n * W) * (n * W)) with B in H1 by (field; lra).
      replace (1 / n * (n * W)) with W in H1 by (field; lra). exact H1.
    + assert (H1 : B / (n * W) <= 1 / n).
      { apply (Rmult_le_reg_r (n * W)); [lra|].
        replace (B / (n * W) * (n * W)) with B by (field; lra).
        replace (1 / n * (n * W)) with W by (field; lra). exact H. }
      replace (1 / n) with (1 - (n - 1) / n) in H1 by (field; lra). lra.
  - unfold xgt. destruct (Rlt_dec gr_limit _) as [Hgt|Hle].
    + split; [intros _|reflexivity].
      apply sqrt_above_limit in Hgt; [|lra].
      assert (H1 : (144 / 100 - (n - 1) / n) * (n * W) < B / (n * W) * (n * W))
        by (apply Rmult_lt_compat_r; lra).
      replace (B / (n * W) * (n * W)) with B in H1 by (field; lra).
      replace ((144 / 100 - (n - 1) / n) * (n * W))
        with ((1 + 44 / 100 * n) * W) in H1 by (field; lra).
      exact H1.
    + split; [discriminate|]. intros H. exfalso. apply Hle.
      apply sqrt_above_limit; [lra|].
      assert (H1 : (144 / 100 - (n - 1) / n) * (n * W) < B / (n * W) * (n * W)).
      { replace (B / (n * W) * (n * W)) with B by (field; lra).
        replace ((144 / 100 - (n - 1) / n) * (n * W))
          with ((1 + 44 / 100 * n) * W) by (field; lra).
        exact H. }
      apply Rmult_lt_reg_r in H1; lra.
Qed.

Lemma gr_stat_between_within_witness :
  exists r,
    single_parameter_gr_stat (repeat Toy.two_samples 2) = Return (Fin r) /\
    sqrt ((INR 2 - 1) / INR 2) <= r.
Proof.
  destruct (gr_stat_between_within (repeat Toy.two_samples 2)) as [r [Hrun [_ [Hlow _]]]].
  - simpl. lia.
  - repeat constructor.
  - rewrite within_identical by lia. rewrite toy_sample_variance. lra.
  - exists r. split; [exact Hrun | exact Hlow].
Defined.

(** ** The statistic under a change of units *)

Section Affine.

Variables a b : R.

Local Abbreviation rescale := (map (map (fun x => a * x + b))).

Lemma np_sum_affine (l : list R) :
  np_sum (map (fun x => a * x + b) l) = a * np_sum l + INR (length l) * b.
Proof.
  induction l as [|x l IH].
  - unfold np_sum. simpl. lra.
  - change (length (x :: l)) with (S (length l)). rewrite S_INR.
    cbn [map]. rewrite !np_sum_cons, IH. lra.
Qed.

Lemma sample_mean_affine (row : list R) :
  row <> [] ->
  sample_mean (map (fun x => a * x + b) row) = a * sample_mean row + b.
Proof.
  intros Hne. unfold sample_mean. rewrite length_map, np_sum_affine.
  field. apply not_0_INR. destruct row; [contradiction | discriminate].
Qed.

Lemma sample_variance_affine (row : list R) :
  row <> [] ->
  sample_variance (map (fun x => a * x + b) row) = a * a * sample_variance row.
Proof.
  intros Hne. unfold sample_variance.
  rewrite (sample_mean_affine row Hne), length_map, map_map.
  rewrite (map_ext _ (fun x => (x - sample_mean row) * (x - sample_mean row) * (a * a)))
    by (intros x; ring).
  rewrite np_sum_scale. unfold Rdiv. ring.
Qed.

Lemma within_affine (chain : list (list R)) :
  Forall (fun row => row <> []) chain ->
  within_chain_variance (rescale chain) = a * a * within_chain_variance chain.
Proof.
  intros Hrows. unfold within_chain_variance. rewrite length_map, map_map.
  rewrite (map_Forall_eq _ (fun row => sample_variance row * (a * a)) Hrows)
    by (intros row Hrow; rewrite sample_variance_affine by exact Hrow; ring).
  rewrite np_sum_scale. unfold Rdiv. ring.
Qed.

Lemma means_affine (chain : list (list R)) :
  Forall (fun row => row <> []) chain ->
  map sample_mean (rescale chain)
  = map (fun xb => a * xb + b) (map sample_mean chain).
Proof.
  intros Hrows. rewrite !map_map.
  apply (map_Forall_eq _ _ Hrows). intros row Hrow. now apply sample_mean_affine.
Qed.

Lemma grand_mean_affine (chain : list (list R)) :
  chain <> [] -> Forall (fun row => row <> []) chain ->
  grand_mean (rescale chain) = a * grand_mean chain + b.
Proof.
  intros Hne Hrows. unfold grand_mean.
  rewrite (means_affine chain Hrows), np_sum_affine, !length_map.
  field. apply not_0_INR. destruct chain; [contradiction | discriminate].
Qed.

Lemma n_columns_rescale (chain : list (list R)) :
  n_columns (rescale chain) = n_columns chain.
Proof.
  destruct chain; simpl; [reflexivity | apply length_map].
Qed.

Lemma between_affine (chain : list (list R)) :
  chain <> [] -> Forall (fun row => row <> []) chain ->
  between_chain_variance (rescale chain) = a * a * between_chain_variance chain.
Proof.
  intros Hne Hrows. unfold between_chain_variance.
  rewrite (grand_mean_affine chain Hne Hrows), (means_affine chain Hrows).
  rewrite n_columns_rescale, length_map, map_map.
  rewrite (map_ext _ (fun xb => (grand_mean chain - xb) * (grand_mean chain - xb)
                                * (a * a)))
    by (intros xb; ring).
  rewrite np_sum_scale. ring.
Qed.

Lemma pooled_affine (chain : list (list R)) :
  chain <> [] -> Forall (fun row => row <> []) chain ->
  pooled_variance (rescale chain) = a * a * pooled_variance chain.
Proof.
  intros Hne Hrows. unfold pooled_variance.
  rewrite n_columns_rescale, (within_affine chain Hrows),
    (between_affine chain Hne Hrows).
  unfold Rdiv. ring.
Qed.

(** X16: The statistic does not depend on the unit or the origin of the
    parameter: for at least two chains of at least two samples with
    positive within-chain variance, replacing every sample [x] by
    [a x + b] with [a] nonzero leaves the result, a real number,
    unchanged. *)
Theorem gr_stat_affine (chain : list (list R))
    (Ha : a <> 0) (Hm : (2 <= length chain)%nat)
    (Hrows : Forall (fun row => (2 <= length row)%nat) chain)
    (HW : 0 < within_chain_variance chain) :
  single_parameter_gr_stat (rescale chain) = single_parameter_gr_stat chain /\
  exists r, single_parameter_gr_stat chain = Return (Fin r).
Proof.
  assert (Hne : chain <> []) by (destruct chain; simpl in Hm; [lia | discriminate]).
  assert (Hrows' : Forall (fun row : list R => row <> []) chain).
  { eapply Forall_impl; [|exact Hrows]. intros row H ->. simpl in H. lia. }
  assert (Ha2 : 0 < a * a) by nra.
  assert (Hm' : (2 <= length (rescale chain))%nat) by now rewrite length_map.
  assert (Hrows2 : Forall (fun row => (2 <= length row)%nat) (rescale chain)).
  { apply Forall_forall. intros row Hrow. apply in_map_iff in Hrow.
    destruct Hrow as [row' [<- Hin]]. rewrite length_map.
    rewrite Forall_forall in Hrows. now apply Hrows. }
  assert (Hn : (1 <= n_columns chain)%nat)
    by (pose proof (n_columns_ge chain Hne Hrows); lia).
  pose proof (pooled_variance_nonneg chain Hm Hn (Rlt_le _ _ HW)) as HV.
  rewrite (gr_stat_finite _ Hm' Hrows2), (gr_stat_finite _ Hm Hrows).
  rewrite (pooled_affine chain Hne Hrows'), (within_affine chain Hrows').
  rewrite !xdiv_Fin by nra.
  replace (a * a * pooled_variance chain / (a * a * within_chain_variance chain))
    with (pooled_variance chain / within_chain_variance chain)
    by (field; split; [lra | exact Ha]).
  assert (Hq : 0 <= pooled_variance chain / within_chain_variance chain)
    by (apply Rle_mult_inv_pos; assumption).
  split; [reflexivity|].
  unfold xsqrt. destruct (Rlt_dec _ 0) as [Hneg|_]; [lra|].
  eexists. reflexivity.
Qed.

End Affine.

Lemma gr_stat_affine_witness :
  single_parameter_gr_stat (map (map (fun x => 100 * x + 70)) (repeat Toy.two_samples 2))
  = single_parameter_gr_stat (repeat Toy.two_samples 2).
Proof.
  refine (proj1 (gr_stat_affine 100 70 (repeat Toy.two_samples 2) _ _ _ _)).
  - lra.
  - simpl. lia.
  - repeat constructor.
  - rewrite within_identical by lia. rewrite toy_sample_variance. lra.
Defined.

(** ** The driver from start to end *)

Lemma for_each_walkers (ivals : tensor 2) :
  forall k a, (a <= length ivals)%nat ->
    for_each (fun w => match nth_error ivals w with
                       | Some v => Return [v]
                       | None => Raise IndexError
                       end) (seq a k)
    = if (a + k <=? length ivals)%nat
      then Return (map (fun v => [v]) (firstn k (skipn a ivals)))
      else Raise IndexError.
Proof.
  induction k as [|k IH]; intros a Ha.
  - simpl. rewrite Nat.add_0_r. apply Nat.leb_le in Ha. now rewrite Ha.
  - cbn [seq for_each].
    destruct (nth_error ivals a) as [v|] eqn:E.
    + assert (a < length ivals)%nat by (apply nth_error_Some; congruence).
      rewrite IH by lia. cbn [Py.bind].
      replace (a + S k)%nat with (S a + k)%nat by lia.
      destruct (S a + k <=? length ivals)%nat; [|reflexivity].
      cbn [Py.bind]. rewrite (skipn_nth_error _ _ _ E). reflexivity.
    + apply nth_error_None in E.
      destruct (a + S k <=? length ivals)%nat eqn:E'; [|reflexivity].
      apply Nat.leb_le in E'. lia.
Qed.

Lemma starts_with_refl (a : tensor 3) : Forall2 starts_with a a.
Proof.
  induction a as [|w a IH]; constructor; auto.
  exists []. now rewrite app_nil_r.
Qed.

Lemma starts_with_trans (a b c : tensor 3) :
  Forall2 starts_with a b -> Forall2 starts_with b c -> Forall2 starts_with a c.
Proof.
  intros Hab. revert c. induction Hab as [|x y a b [m ->] _ IH]; intros c Hbc.
  - inversion Hbc. constructor.
  - inversion Hbc as [|y' z b' c' [m' ->] Hrest]; subst. constructor.
    + exists (m ++ m'). now rewrite app_assoc.
    + now apply IH.
Qed.

Lemma concatenate_starts_with (a b fc : tensor 3) :
  concatenate_axis1 a b = Return fc -> Forall2 starts_with a fc.
Proof.
  unfold concatenate_axis1. destruct (length a =? length b)%nat eqn:E; [|discriminate].
  apply Nat.eqb_eq in E. intros H.
  assert (Hfc : fc = zip_with (@app (list R)) a b).
  { destruct (last_axis a) as [p|], (last_axis b) as [q|];
      try (injection H as <-; reflexivity).
    destruct (p =? q)%nat; [injection H as <-; reflexivity | discriminate]. }
  subst fc. clear H.
  revert b E. induction a as [|x a IH]; intros [|y b] E; simpl in *; try discriminate.
  - constructor.
  - constructor; [now exists y|]. apply IH. lia.
Qed.

Lemma Forall2_nth_lt {A B : Type} (P : A -> B -> Prop) (l : list A) (l' : list B)
    (da : A) (db : B) :
  Forall2 P l l' -> forall i, (i < length l)%nat -> P (nth i l da) (nth i l' db).
Proof.
  induction 1 as [|x y l l' Hxy _ IH]; intros [|i] Hi; simpl in *; try lia; auto.
  apply IH. lia.
Qed.

Section DriverRun.

Variable sim : SimInfo.
Variables distmod norm_logpdf : R -> R -> R -> R.
Variable g : Globals.
Variable sampler : Type.
Variable EnsembleSampler : nat -> nat -> (Hyper -> M R) -> nat -> sampler.
Variable sampler_reset : sampler -> sampler.
Variable sampler_run_mcmc : sampler -> tensor 2 -> nat -> sampler.
Variable sampler_chain : sampler -> tensor 3.
Variable sampler_lnprobability : sampler -> tensor 2.
Variable sampler_acceptance_fraction : sampler -> tensor 1.
Variables nthreads nwalkers nsteps ninit : nat.

Local Abbreviation an_epoch :=
  (burn_in_epoch sampler_reset sampler_run_mcmc sampler_chain
                 sampler_lnprobability sampler_acceptance_fraction ninit).
Local Abbreviation the_loop :=
  (burn_in_loop sampler_reset sampler_run_mcmc sampler_chain
                sampler_lnprobability sampler_acceptance_fraction ninit).
Local Abbreviation init :=
  (run_MCMC_init sim distmod norm_logpdf g EnsembleSampler nthreads nwalkers).
Local Abbreviation run :=
  (run_MCMC sim distmod norm_logpdf g EnsembleSampler sampler_reset sampler_run_mcmc
            sampler_chain sampler_lnprobability sampler_acceptance_fraction
            nthreads nwalkers nsteps ninit).

Lemma run_MCMC_init_run (ivals : tensor 2) :
  init ivals
  = if (nwalkers <=? length ivals)%nat
    then Return {| the_sampler :=
                     EnsembleSampler nwalkers n_cosmo_hyperparams
                       (lnhyperposterior sim distmod norm_logpdf g) nthreads;
                   burn_ins := 0;
                   burning_in := true;
                   vals := ivals;
                   full_chain := map (fun v => [v]) (firstn nwalkers ivals);
                   files := [] |}
    else Raise IndexError.
Proof.
  unfold run_MCMC_init. rewrite for_each_walkers by lia. simpl.
  destruct (nwalkers <=? length ivals)%nat; reflexivity.
Qed.


Lemma burn_in_epoch_step (st st' : driver sampler) :
  an_epoch st = Return st' ->
  burn_ins st' = S (burn_ins st) /\
  (exists outputs, files st' = files st ++ [EpochFile (burn_ins st) outputs]) /\
  Forall2 starts_with (full_chain st) (full_chain st').
Proof.
  unfold burn_in_epoch, sample. cbv zeta.
  destruct (concatenate_axis1 _ _) as [fc|] eqn:Ec; [|discriminate].
  cbn [Py.bind]. destruct (gr_test fc gr_limit) as [b|]; [|discriminate].
  cbn [Py.bind]. destruct (for_each last_item _) as [v|]; [|discriminate].
  cbn [Py.bind]. intros H. injection H as <-. cbn.
  split; [reflexivity|]. split; [eexists; reflexivity|].
  now apply concatenate_starts_with in Ec.
Qed.

Lemma burn_in_loop_inv (fuel : nat) :
  forall st st' : driver sampler,
    the_loop fuel st = Some (Return st') ->
    burning_in st' = false /\
    (burning_in st = true -> (burn_ins st < burn_ins st')%nat) /\
    (exists epochs,
       files st' = files st ++ epochs /\
       map checkpoint_epoch epochs
       = map Some (seq (burn_ins st) (burn_ins st' - burn_ins st))) /\
    (burn_ins st <= burn_ins st')%nat /\
    Forall2 starts_with (full_chain st) (full_chain st').
Proof.
  induction fuel as [|fuel IH]; intros st st' H; simpl in H.
  - destruct (burning_in st) eqn:Eb; [discriminate|]. injection H as <-.
    split; [exact Eb|]. split; [discriminate|]. split; [|split].
    + exists []. rewrite app_nil_r, Nat.sub_diag. split; reflexivity.
    + lia.
    + apply starts_with_refl.
  - destruct (burning_in st) eqn:Eb.
    + destruct (an_epoch st) as [st1|] eqn:Ee; [|discriminate].
      destruct (burn_in_epoch_step st st1 Ee) as [Hn [[out Hf] Hc]].
      destruct (IH st1 st' H) as [Hend [_ [[epochs [Hfiles Hnum]] [Hle Hchain]]]].
      split; [exact Hend|]. split; [intros _; lia|]. split; [|split].
      * exists (EpochFile (burn_ins st) out :: epochs). split.
        -- rewrite Hfiles, Hf, <- app_assoc. reflexivity.
        -- replace (burn_ins st' - burn_ins st)%nat
             with (S (burn_ins st' - burn_ins st1))%nat by lia.
           cbn [map seq checkpoint_epoch]. rewrite Hnum, Hn. reflexivity.
      * lia.
      * now apply starts_with_trans with (full_chain st1).
    + injection H as <-.
      split; [exact Eb|]. split; [discriminate|]. split; [|split].
      * exists []. rewrite app_nil_r, Nat.sub_diag. split; reflexivity.
      * lia.
      * apply starts_with_refl.
Qed.

(** X20: A run of [run_MCMC] that returns had an initial position for every
    walker and went through at least one burn-in epoch; it wrote the
    checkpoints [mcmc0], ..., [mcmc(k-1)] of its [k] epochs in this order and
    then, as the last file, the very chain it returns; that chain has one
    sequence per walker, which starts with the walker's initial position. *)
Theorem run_MCMC_returns (fuel : nat) (ivals : tensor 2) (fc : tensor 3)
    (st : driver sampler)
    (Hrun : run fuel ivals = Some (Return (fc, st))) :
  (nwalkers <= length ivals)%nat /\
  (1 <= burn_ins st)%nat /\
  full_chain st = fc /\
  (exists epochs,
     files st = epochs ++ [FullChainFile fc] /\
     map checkpoint_epoch epochs = map Some (seq 0 (burn_ins st))) /\
  length fc = nwalkers /\
  forall w, (w < nwalkers)%nat ->
    exists more, nth w fc [] = nth w ivals [] :: more.
Proof.
  unfold run_MCMC in Hrun. rewrite run_MCMC_init_run in Hrun.
  destruct (nwalkers <=? length ivals)%nat eqn:Ew; [|discriminate].
  apply Nat.leb_le in Ew.
  match type of Hrun with
  | match the_loop fuel ?st0 with _ => _ end = _ => set (st0' := st0) in *
  end.
  destruct (the_loop fuel st0') as [[st1|]|] eqn:El; try discriminate.
  destruct (burn_in_loop_inv fuel st0' st1 El)
    as [_ [Hpos [[epochs [Hfiles Hnum]] [_ Hchain]]]].
  injection Hrun as Hrun. unfold production, sample in Hrun. cbv zeta in Hrun.
  destruct (concatenate_axis1 _ _) as [fc'|] eqn:Ec; [|discriminate].
  cbn [Py.bind] in Hrun. injection Hrun as -> <-. cbn.
  apply concatenate_starts_with in Ec.
  pose proof (starts_with_trans _ _ _ Hchain Ec) as Hall.
  cbn in Hpos, Hfiles, Hnum, Hall. rewrite Nat.sub_0_r in Hnum.
  split; [exact Ew|]. split; [apply Hpos; reflexivity|]. split; [reflexivity|].
  split; [|split].
  - exists epochs. rewrite Hfiles. split; [reflexivity | exact Hnum].
  - apply Forall2_length in Hall. rewrite <- Hall, length_map, length_firstn. lia.
  - intros w Hw.
    assert (Hw' : (w < length (map (fun v : list R => [v]) (firstn nwalkers ivals)))%nat)
      by (rewrite length_map, length_firstn; lia).
    destruct (Forall2_nth_lt _ _ _ [] [] Hall w Hw') as [more Hmore].
    exists more. rewrite Hmore.
    rewrite (nth_map_lt (fun v : list R => [v]) [] [])
      by (rewrite length_firstn; lia).
    rewrite nth_firstn.
    destruct (w <? nwalkers)%nat eqn:E; [reflexivity|].
    apply Nat.ltb_ge in E. lia.
Qed.

End DriverRun.

Lemma stuck_epoch :
  burn_in_epoch Toy.stuck_reset Toy.stuck_run_mcmc Toy.stuck_chain_of
                Toy.stuck_lnprobability Toy.stuck_acceptance 3 Toy.stuck_before
  = Return Toy.stuck_after.
Proof.
  unfold burn_in_epoch, sample, gr_test.
  change (concatenate_axis1 (full_chain Toy.stuck_before)
            (chain {| chain := Toy.stuck_chain_of
                                 (Toy.stuck_run_mcmc
                                    (Toy.stuck_reset (the_sampler Toy.stuck_before))
                                    (vals Toy.stuck_before) 3);
                      lnprobability := _; acceptance_fraction := _ |}))
    with (Return (A:=tensor 3) (full_chain Toy.stuck_after)).
  cbn [Py.bind]. rewrite stuck_gr. reflexivity.
Qed.

Lemma stuck_run :
  run_MCMC Toy.sim Toy.distmod_44 Toy.gauss_logpdf setup_globals
           (fun _ _ _ _ => tt) Toy.stuck_reset Toy.stuck_run_mcmc Toy.stuck_chain_of
           Toy.stuck_lnprobability Toy.stuck_acceptance 1 2 3 3 1 Toy.stuck_start
  = Some (Return (Toy.stuck_full, Toy.stuck_done)).
Proof.
  rewrite (run_MCMC_production unit Toy.stuck_reset Toy.stuck_run_mcmc
             Toy.stuck_chain_of Toy.stuck_lnprobability Toy.stuck_acceptance 3 3
             Toy.sim Toy.distmod_44 Toy.gauss_logpdf setup_globals
             (fun _ _ _ _ => tt) 1 2 1 Toy.stuck_start
             Toy.stuck_before Toy.stuck_after).
  - reflexivity.
  - reflexivity.
  - cbn [burn_in_loop]. cbn [Toy.stuck_before burning_in]. now rewrite stuck_epoch.
Qed.

Lemma run_MCMC_returns_witness :
  (1 <= burn_ins Toy.stuck_done)%nat /\ length Toy.stuck_full = 2%nat.
Proof.
  destruct (run_MCMC_returns Toy.sim Toy.distmod_44 Toy.gauss_logpdf setup_globals
              unit (fun _ _ _ _ => tt) Toy.stuck_reset Toy.stuck_run_mcmc
              Toy.stuck_chain_of Toy.stuck_lnprobability Toy.stuck_acceptance
              1 2 3 3 1 Toy.stuck_start Toy.stuck_full Toy.stuck_done stuck_run)
    as [_ [Hepochs [_ [_ [Hlen _]]]]].
  split; [exact Hepochs | exact Hlen].
Defined.

(** ** The test with a single walker *)

Lemma gr_stat_single_chain (row : list R) :
  single_parameter_gr_stat [row] = Raise ZeroDivisionError.
Proof.
  unfold single_parameter_gr_stat, py_div at 1.
  change (INR (length [row])) with 1.
  destruct (Req_dec_T (1 - 1) 0) as [_|H]; [reflexivity | lra].
Qed.

(** X21: with a single walker [gr_test] never returns: the factor
    [n / (m - 1.)] of the first parameter's statistic raises
    [ZeroDivisionError], whatever the walker's samples are; when the
    samples have no parameter at all, [np.max] of the empty array of
    statistics raises [ValueError] instead. *)
Theorem gr_test_single_walker (walker : list (list R)) (threshold : R) :
  gr_test [walker] threshold
  = match hd [] walker with
    | [] => Raise ValueError
    | _ :: _ => Raise ZeroDivisionError
    end.
Proof.
  unfold gr_test, multi_parameter_gr_stat.
  change (hd [] [walker]) with walker.
  change (n_columns [walker]) with (length walker).
  assert (E : n_columns walker = length (hd [] walker)) by (destruct walker; reflexivity).
  rewrite E. destruct (hd [] walker) as [|p ps]; [reflexivity|].
  cbn [length seq for_each kept_chains map]. now rewrite gr_stat_single_chain.
Qed.

(** ** Outcomes of the in-bounds branch *)

Lemma for_each_raises {A B : Type} (f : A -> result B) (l : list A) (e : exn) :
  for_each f l = Raise e -> exists x, In x l /\ f x = Raise e.
Proof.
  induction l as [|x l IH]; simpl; [discriminate|].
  destruct (f x) as [y|e'] eqn:Ex; simpl.
  - destruct (for_each f l) as [ys|e'']; simpl; [discriminate|].
    intros H. injection H as <-. destruct (IH eq_refl) as [x' [Hin Hx']].
    exists x'. split; [right; exact Hin | exact Hx'].
  - intros H. injection H as <-. exists x. split; [left; reflexivity | exact Ex].
Qed.

Lemma broadcast_raises {A B C : Type} (f : A -> B -> C) (l : list A) (w : list B)
    (e : exn) :
  broadcast f l w = Raise e -> e = ValueError.
Proof.
  unfold broadcast. destruct (length l =? length w)%nat; [discriminate|].
  destruct l as [|x [|x' l]], w as [|y [|y' w]]; try discriminate;
    intros H; injection H as <-; reflexivity.
Qed.

Lemma times_axis1_raises (w : list R) (d : tensor 3) (e : exn) :
  times_axis1 w d = Raise e -> e = ValueError.
Proof.
  unfold times_axis1. intros H. apply for_each_raises in H.
  destruct H as [plane [_ H]]. now apply broadcast_raises in H.
Qed.

Lemma asserted_sum_raises (sim : SimInfo) (d : tensor 3) (e : exn) :
  asserted_sum sim d = Raise e -> e = ValueError.
Proof.
  unfold asserted_sum.
  destruct (times_axis1 (z_difs sim) d) as [a|e1] eqn:E1; cbn [Py.bind].
  - destruct (times_axis1 (mu_difs sim) a) as [b|e2] eqn:E2; cbn [Py.bind].
    + destruct (times_axis0 (repeat 1 (n_types sim)) b) as [c|e3] eqn:E3;
        cbn [Py.bind]; [discriminate|].
      intros H. injection H as <-. unfold times_axis0 in E3.
      now apply broadcast_raises in E3.
    + intros H. injection H as <-. now apply times_axis1_raises in E2.
  - intros H. injection H as <-. now apply times_axis1_raises in E1.
Qed.

(** X22: the outcomes of an in-bounds call of [lnhyperlikelihood] on a
    well-shaped catalog with at least one distance-modulus bin.  It either
    returns a new array, leaving every array that existed before as it was,
    or raises [ValueError] (the product inside the assertion cannot be
    broadcast) or [AssertionError]; it raises nothing else, in particular
    no [IndexError] from [mu_binner]. *)
Theorem lnhyperlikelihood_outcomes (sim : SimInfo) (distmod : R -> R -> R -> R)
    (g : Globals) (h : Hyper) (s : store)
    (Hws : well_shaped sim) (HM : (1 <= n_mus sim)%nat)
    (Hin : param_check h = true) :
  match lnhyperlikelihood sim distmod g h s with
  | Return (r, s') => (length s <= r)%nat /\ extends s s'
  | Raise e => e = ValueError \/ e = AssertionError
  end.
Proof.
  pose proof (length_difs _ _ (ws_z_bins Hws)) as Hzd.
  pose proof (length_difs _ _ (ws_mu_bins Hws)) as Hmd.
  pose proof (mu_binner_marked sim HM (ws_mu_bins Hws)
                (map (distmod (H0 h) (Om0 h)) (z_mids sim))) as Hbin.
  match type of Hbin with _ = Return ?t => set (matrix := t) in * end.
  pose proof (mu_binner_shape sim _ matrix Hbin) as Hshape.
  rewrite length_map in Hshape.
  unfold z_mids in Hshape. rewrite (length_mids _ _ (ws_z_bins Hws)) in Hshape.
  rewrite (lnhyperlikelihood_inside sim distmod g h matrix Hin Hbin).
  rewrite normalised_log_steps.
  rewrite (normaliser_weighted sim matrix Hshape Hzd Hmd). cbv zeta.
  destruct (asserted_sum sim _) as [total|e] eqn:Esum.
  - destruct (Req_dec_T _ 0); [right; reflexivity|].
    destruct (isclose total 1); [|right; reflexivity].
    split; [lia|]. eapply extends_trans; apply extends_alloc.
  - left. now apply asserted_sum_raises in Esum.
Qed.

Lemma lnhyperlikelihood_outcomes_witness :
  match lnhyperlikelihood Toy.sim23 Toy.distmod_44 setup_globals Toy.inside
                          (setup_store Toy.sim23) with
  | Return (r, s') =>
      (length (setup_store Toy.sim23) <= r)%nat /\ extends (setup_store Toy.sim23) s'
  | Raise e => e = ValueError \/ e = AssertionError
  end.
Proof.
  apply (lnhyperlikelihood_outcomes Toy.sim23 Toy.distmod_44 setup_globals Toy.inside
           (setup_store Toy.sim23) toy23_well_shaped).
  - simpl. lia.
  - exact toy_param_check.
Defined.
